(** * The syncthing model: index store, recomputation, deletion marking,
      pulling and the index exchange

    A shallow embedding of package [model]: the index store, the read
    operations, the broadcast round and the puller's helpers of
    src/unnamed/part_000 (model.go, puller.go) and the file records of
    src/unnamed/part_002 (walk.go); of package [protocol]
    (src/unnamed/part_003) the declarations they use and the index
    exchange of a Connection.  The older main-package model of
    src/model.go is embedded as far as its Index goes.

    Go maps are [gmap]s, slices are lists (a nil slice and an empty one are
    both [[]]), fixed-width integers are [Z] with the wrap-around written
    where the code computes.  A method that mutates the model is a function
    from the model to the model; every reading of the clock is an argument.
    The order in which [range] visits a map is a parameter ([MapOrder]).
    Locks, trace logging and the fields that only configure the puller
    carry nothing the operations below read and are left out. *)

From Stdlib Require Import ZArith Lia.
From Stdlib Require Strings.Byte.
From stdpp Require Import gmap strings list.

Local Open Scope Z_scope.

(** ** Machine integers *)

Definition wrap_u32 (x : Z) : Z := x mod 2 ^ 32.
Definition wrap_u64 (x : Z) : Z := x mod 2 ^ 64.
Definition wrap_i64 (x : Z) : Z := (x + 2 ^ 63) mod 2 ^ 64 - 2 ^ 63.
(** Go's [int] on the 64-bit targets the program is built for. *)
Definition wrap_int (x : Z) : Z := wrap_i64 x.

Definition is_u64 (x : Z) : Prop := 0 <= x < 2 ^ 64.

(** ** Package time: instants and durations in nanoseconds

    An instant is its distance from the Unix epoch. *)

Definition Instant := Z.
Definition Duration := Z.
Definition time_Second : Duration := 1000000000.
Definition minDuration : Duration := - 2 ^ 63.
Definition maxDuration : Duration := 2 ^ 63 - 1.

(** [Time.Sub]: the difference, saturated to what a Duration holds. *)
Definition time_Sub (t u : Instant) : Duration :=
  Z.max minDuration (Z.min maxDuration (t - u)).

(** [time.Since(t)] at clock reading [now]. *)
Definition time_Since (now t : Instant) : Duration := time_Sub now t.

(** The zero [time.Time] (January 1, year 1, UTC) on the nanosecond axis. *)
Definition Instant_zero : Instant := -62135596800 * time_Second.

(** [Time.Unix]: whole seconds since the epoch, rounded down. *)
Definition time_Unix (t : Instant) : Z := t / time_Second.

(** ** Package protocol (src/unnamed/part_003) *)

Module protocol.

Definition FlagDeleted : Z := Z.shiftl 1 12.
Definition FlagInvalid : Z := Z.shiftl 1 13.
Definition FlagDirectory : Z := Z.shiftl 1 14.

Record BlockInfo := mkBlockInfo {
  Length : Z;            (* uint32 *)
  Hash : list Byte.byte
}.

Record FileInfo := mkFileInfo {
  Name : string;
  Flags : Z;             (* uint32 *)
  Modified : Z;          (* int64 *)
  Version : Z;           (* uint32 *)
  Blocks : list BlockInfo
}.

End protocol.

(** ** Package model: file records (src/unnamed/part_002) *)

(** Modelled from the spec: the declaration of [Block] (blocks.go) is not
    among the sources; "each block has {offset, length, hash}", and the
    composite literals of model.go name the fields Offset, Length, Hash. *)
Record Block := mkBlock {
  Offset : Z;              (* uint64 *)
  Length : Z;              (* uint32 *)
  Hash : list Byte.byte
}.

Record File := mkFile {
  Name : string;
  Flags : Z;               (* uint32 *)
  Modified : Z;            (* int64 *)
  Version : Z;             (* uint32 *)
  Blocks : list Block
}.

(** The zero value a map lookup yields for a missing key. *)
Definition File_zero : File := mkFile "" 0 0 0 [].

Definition Equals (f o : File) : bool :=
  (Modified f =? Modified o) && (Version f =? Version o).

Definition NewerThan (f o : File) : bool :=
  (Modified o <? Modified f) ||
  ((Modified f =? Modified o) && (Version o <? Version f)).

Definition has_flag (flags bit : Z) : bool := negb (Z.land flags bit =? 0).

(** ** Conversions between File and protocol.FileInfo (src/unnamed/part_000) *)

Definition fileFromFileInfo (f : protocol.FileInfo) : File :=
  let '(blocks, _) :=
    foldl (λ '(blocks, offset) b,
             (blocks ++ [mkBlock offset (protocol.Length b) (protocol.Hash b)],
              wrap_u64 (offset + protocol.Length b)))
          ([], 0) (protocol.Blocks f) in
  mkFile (protocol.Name f) (protocol.Flags f) (protocol.Modified f)
         (protocol.Version f) blocks.

Definition fileInfoFromFile (f : File) : protocol.FileInfo :=
  let blocks :=
    foldl (λ blocks b, blocks ++ [protocol.mkBlockInfo (Length b) (Hash b)])
          [] (Blocks f) in
  protocol.mkFileInfo (Name f) (Flags f) (Modified f) (Version f) blocks.

(** ** The model (src/unnamed/part_000) *)

Record Model := mkModel {
  dir : string;
  global : gmap string File;             (* latest version of each file in the cluster *)
  local : gmap string File;              (* the files we have on disk *)
  remote : gmap string (gmap string File);  (* the remote indexes *)
  need : gmap string bool;               (* the files we need to update *)
  nodes : gset string;                   (* peers with a protocol connection *)
  rawConn : gset string;                 (* peers with an underlying connection *)
  updatedLocal : Z;                      (* int64: timestamp of last update to local *)
  updateGlobal : Z;                      (* int64: timestamp of last update to remote *)
  lastIdxBcast : Instant;
  lastIdxBcastRequest : Instant;
  delete_ : bool;                        (* field [delete]: we are allowed to delete files *)
  fileLastChanged : gmap string Instant;
  fileWasSuppressed : gmap string Z
}.

Definition idxBcastHoldtime : Duration := 15 * time_Second.
Definition idxBcastMaxDelay : Duration := 120 * time_Second.
Definition minFileHoldTimeS : Z := 60.
Definition maxFileHoldTimeS : Z := 600.

Inductive error := ErrNoSuchFile | ErrInvalid | ErrIO (msg : string).

(** [NewModel dir], created at clock reading [now]. *)
Definition NewModel (now : Instant) (d : string) : Model :=
  {| dir := d; global := ∅; local := ∅; remote := ∅; need := ∅;
     nodes := ∅; rawConn := ∅; updatedLocal := 0; updateGlobal := 0;
     lastIdxBcast := now; lastIdxBcastRequest := Instant_zero;
     delete_ := false; fileLastChanged := ∅; fileWasSuppressed := ∅ |}.

Definition set_global (g : gmap string File) (t : Z) (m : Model) : Model :=
  {| dir := dir m; global := g; local := local m; remote := remote m;
     need := need m; nodes := nodes m; rawConn := rawConn m;
     updatedLocal := updatedLocal m; updateGlobal := t;
     lastIdxBcast := lastIdxBcast m;
     lastIdxBcastRequest := lastIdxBcastRequest m; delete_ := delete_ m;
     fileLastChanged := fileLastChanged m;
     fileWasSuppressed := fileWasSuppressed m |}.

Definition set_local (l : gmap string File) (m : Model) : Model :=
  {| dir := dir m; global := global m; local := l; remote := remote m;
     need := need m; nodes := nodes m; rawConn := rawConn m;
     updatedLocal := updatedLocal m; updateGlobal := updateGlobal m;
     lastIdxBcast := lastIdxBcast m;
     lastIdxBcastRequest := lastIdxBcastRequest m; delete_ := delete_ m;
     fileLastChanged := fileLastChanged m;
     fileWasSuppressed := fileWasSuppressed m |}.

Definition set_remote (r : gmap string (gmap string File)) (m : Model) : Model :=
  {| dir := dir m; global := global m; local := local m; remote := r;
     need := need m; nodes := nodes m; rawConn := rawConn m;
     updatedLocal := updatedLocal m; updateGlobal := updateGlobal m;
     lastIdxBcast := lastIdxBcast m;
     lastIdxBcastRequest := lastIdxBcastRequest m; delete_ := delete_ m;
     fileLastChanged := fileLastChanged m;
     fileWasSuppressed := fileWasSuppressed m |}.

Definition set_need (nd : gmap string bool) (m : Model) : Model :=
  {| dir := dir m; global := global m; local := local m; remote := remote m;
     need := nd; nodes := nodes m; rawConn := rawConn m;
     updatedLocal := updatedLocal m; updateGlobal := updateGlobal m;
     lastIdxBcast := lastIdxBcast m;
     lastIdxBcastRequest := lastIdxBcastRequest m; delete_ := delete_ m;
     fileLastChanged := fileLastChanged m;
     fileWasSuppressed := fileWasSuppressed m |}.

Definition set_conns (ns rc : gset string) (m : Model) : Model :=
  {| dir := dir m; global := global m; local := local m; remote := remote m;
     need := need m; nodes := ns; rawConn := rc;
     updatedLocal := updatedLocal m; updateGlobal := updateGlobal m;
     lastIdxBcast := lastIdxBcast m;
     lastIdxBcastRequest := lastIdxBcastRequest m; delete_ := delete_ m;
     fileLastChanged := fileLastChanged m;
     fileWasSuppressed := fileWasSuppressed m |}.

(** The two assignments that end ReplaceLocal and updateLocal. *)
Definition touch_local (tl tb : Instant) (m : Model) : Model :=
  {| dir := dir m; global := global m; local := local m; remote := remote m;
     need := need m; nodes := nodes m; rawConn := rawConn m;
     updatedLocal := time_Unix tl; updateGlobal := updateGlobal m;
     lastIdxBcast := lastIdxBcast m;
     lastIdxBcastRequest := tb; delete_ := delete_ m;
     fileLastChanged := fileLastChanged m;
     fileWasSuppressed := fileWasSuppressed m |}.

(** [m[name]] on a map of files: the zero File when the key is missing. *)
Definition file_at (m : gmap string File) (name : string) : File :=
  default File_zero (m !! name).

(** Go leaves the order in which [range] visits a map unspecified.  The
    order is a parameter of the model: any listing of the map's entries. *)
Class MapOrder := {
  range_of : ∀ {A : Type}, gmap string A → list (string * A);
  range_of_perm : ∀ (A : Type) (m : gmap string A), range_of m ≡ₚ map_to_list m
}.

(** One such order: the one stdpp lists the entries in. *)
Definition listed_order : MapOrder :=
  {| range_of := λ A (m : gmap string A), map_to_list m;
     range_of_perm := λ A (m : gmap string A), reflexivity (map_to_list m) |}.

(** Another: the same listing backwards. *)
Definition reversed_order : MapOrder :=
  {| range_of := λ A (m : gmap string A), reverse (map_to_list m);
     range_of_perm := λ A (m : gmap string A),
       reverse_Permutation (map_to_list m) |}.

Definition Generation (m : Model) : Z :=
  wrap_i64 (updatedLocal m + updateGlobal m).

(** ** Change suppression *)

Definition shouldSuppressChange (now lastChange : Instant) (numChanges : Z) : bool :=
  let sinceLast := time_Since now lastChange in
  if maxFileHoldTimeS * time_Second <? sinceLast then false
  else if sinceLast <?
          wrap_i64 (wrap_int (wrap_int (numChanges + 2) * minFileHoldTimeS)
                    * time_Second)
       then true
       else false.

Definition set_suppression (lc : gmap string Instant) (ws : gmap string Z)
    (m : Model) : Model :=
  {| dir := dir m; global := global m; local := local m; remote := remote m;
     need := need m; nodes := nodes m; rawConn := rawConn m;
     updatedLocal := updatedLocal m; updateGlobal := updateGlobal m;
     lastIdxBcast := lastIdxBcast m;
     lastIdxBcastRequest := lastIdxBcastRequest m; delete_ := delete_ m;
     fileLastChanged := lc; fileWasSuppressed := ws |}.

(** The method [m.shouldSuppressChange(name)]; [now] is read by [time.Since],
    [now'] by the [time.Now()] that stamps an admitted change. *)
Definition Model_shouldSuppressChange (now now' : Instant) (name : string)
    (m : Model) : bool * Model :=
  let count := default 0 (fileWasSuppressed m !! name) in
  let sup :=
    shouldSuppressChange now
      (default Instant_zero (fileLastChanged m !! name)) count in
  if sup
  then (sup, set_suppression (fileLastChanged m)
                (<[name := wrap_int (count + 1)]> (fileWasSuppressed m)) m)
  else (sup, set_suppression (<[name := now']> (fileLastChanged m))
                (<[name := 0]> (fileWasSuppressed m)) m).

(** [g[n] = f] for an entry [(n, f)]. *)
Definition put {A} (g : gmap string A) (e : string * A) : gmap string A :=
  <[e.1 := e.2]> g.

(** ** Recomputation, deletion marking and the write operations *)

Section operations.
Context {order : MapOrder}.

(** The body of the loop over one remote index: the entry [(n, nf)] takes
    the place of the incumbent iff there is none or it is NewerThan it. *)
Definition offer (g : gmap string File) (e : string * File) : gmap string File :=
  let '(n, nf) := e in
  match g !! n with
  | Some lf => if NewerThan nf lf then <[n := nf]> g else g
  | None => <[n := nf]> g
  end.

(** The map [newGlobal] that recomputeGlobal builds. *)
Definition newGlobal (m : Model) : gmap string File :=
  let g := foldl put ∅ (range_of (local m)) in
  foldl (λ g '(_, fs), foldl offer g (range_of fs)) g (range_of (remote m)).

(** The flag [updated] of recomputeGlobal: did anything actually change. *)
Definition globalUpdated (m : Model) (ng : gmap string File) : bool :=
  if negb (size ng =? size (global m))%nat then true
  else existsb (λ '(n, f0),
                  match global m !! n with
                  | Some f1 => negb (Equals f0 f1)
                  | None => true
                  end) (range_of ng).

Definition recomputeGlobal (now : Instant) (m : Model) : Model :=
  let ng := newGlobal m in
  if globalUpdated m ng then set_global ng (time_Unix now) m else m.

Definition recomputeNeed (m : Model) : Model :=
  set_need
    (foldl (λ nd '(n, gf),
              let lf := local m !! n in
              if match lf with Some lf => NewerThan gf lf | None => true end
              then
                if has_flag (Flags gf) protocol.FlagInvalid then nd
                else if has_flag (Flags gf) protocol.FlagDeleted
                        && negb (delete_ m) then nd
                else if has_flag (Flags gf) protocol.FlagDeleted
                        && negb (bool_decide (is_Some lf)) then nd
                else <[n := true]> nd
              else nd)
           ∅ (range_of (global m)))
    m.

(** What markDeletedLocals turns a vanished, undeleted record into. *)
Definition tombstone (f : File) : File :=
  mkFile (Name f) protocol.FlagDeleted (Modified f) (wrap_u32 (Version f + 1)) [].

(** The body of markDeletedLocals' loop for the entry [(n, f)] of the old
    local map; [acc] is [newLocal] and the flag [updated]. *)
Definition markOne (m : Model) (acc : gmap string File * bool)
    (e : string * File) : gmap string File * bool :=
  let '(newLocal, updated) := acc in
  let '(n, f) := e in
  match newLocal !! n with
  | Some _ => (newLocal, updated)
  | None =>
      if negb (NewerThan (file_at (global m) n) f) then
        if Z.land (Flags f) protocol.FlagDeleted =? 0
        then (<[n := tombstone f]> newLocal, true)
        else (<[n := f]> newLocal, updated)
      else (newLocal, updated)
  end.

(** markDeletedLocals: the map [newLocal] as the loop leaves it, and the
    flag it returns. *)
Definition markDeletedLocals (m : Model) (newLocal : gmap string File)
    : gmap string File * bool :=
  foldl (markOne m) (newLocal, false) (range_of (local m)).

(** The body of the first loop of ReplaceLocal. *)
Definition scanOne (m : Model) (acc : gmap string File * bool) (f : File)
    : gmap string File * bool :=
  let '(newLocal, updated) := acc in
  (<[Name f := f]> newLocal,
   if negb (Equals (file_at (local m) (Name f)) f) then true else updated).

Definition scanLocal (m : Model) (fs : list File) : gmap string File * bool :=
  foldl (scanOne m) (∅, false) fs.

(** [newLocal] and [updated] as ReplaceLocal has them at its last test. *)
Definition replaceLocal_plan (m : Model) (fs : list File)
    : gmap string File * bool :=
  let '(newLocal, updated) := scanLocal m fs in
  let '(newLocal, marked) := markDeletedLocals m newLocal in
  let updated := if marked then true else updated in
  let updated :=
    if negb (size newLocal =? size (local m))%nat then true else updated in
  (newLocal, updated).

(** ReplaceLocal; [tg], [tl], [tb] are the readings of the three calls of
    [time.Now()] an updating call makes, in program order. *)
Definition ReplaceLocal (tg tl tb : Instant) (fs : list File) (m : Model) : Model :=
  let '(newLocal, updated) := replaceLocal_plan m fs in
  if updated
  then touch_local tl tb
         (recomputeNeed (recomputeGlobal tg (set_local newLocal m)))
  else m.

Definition updateLocal (tg tl tb : Instant) (f : File) (m : Model) : Model :=
  if match local m !! Name f with
     | Some ef => negb (Equals ef f)
     | None => true
     end
  then touch_local tl tb
         (recomputeNeed
            (recomputeGlobal tg (set_local (<[Name f := f]> (local m)) m)))
  else m.

(** The map a list of received records is stored as, on top of [r]. *)
Definition storeIndex (r : gmap string File) (fs : list protocol.FileInfo)
    : gmap string File :=
  foldl (λ r f, <[protocol.Name f := fileFromFileInfo f]> r) r fs.

Definition SeedLocal (now : Instant) (fs : list protocol.FileInfo) (m : Model) : Model :=
  recomputeNeed (recomputeGlobal now (set_local (storeIndex ∅ fs) m)).

Definition Index (now : Instant) (nodeID : string)
    (fs : list protocol.FileInfo) (m : Model) : Model :=
  recomputeNeed
    (recomputeGlobal now
       (set_remote (<[nodeID := storeIndex ∅ fs]> (remote m)) m)).

Definition IndexUpdate (now : Instant) (nodeID : string)
    (fs : list protocol.FileInfo) (m : Model) : Model :=
  match remote m !! nodeID with
  | None => m
  | Some repo =>
      recomputeNeed
        (recomputeGlobal now
           (set_remote (<[nodeID := storeIndex repo fs]> (remote m)) m))
  end.

(** Close; closing the raw connection itself happens outside the model. *)
Definition Close (now : Instant) (node : string) (m : Model) : Model :=
  recomputeNeed
    (recomputeGlobal now
       (set_conns (nodes m ∖ {[node]}) (rawConn m ∖ {[node]})
          (set_remote (delete node (remote m)) m))).

End operations.

(** ** Request *)

Section request.
(** The disk: what opening [path.Join(dir, name)] and reading [size] bytes
    at [offset] gives, the bytes or the error of [os.Open] or [ReadAt]. *)
Context (disk : string → string → Z → Z → list Byte.byte + error).

Definition Request (m : Model) (nodeID name : string) (offset size : Z)
    (hash : list Byte.byte) : option (list Byte.byte) * option error :=
  match local m !! name, global m !! name with
  | Some lf, Some _ =>
      if negb (Z.land (Flags lf) protocol.FlagInvalid =? 0)
      then (None, Some ErrInvalid)
      else match disk (dir m) name offset size with
           | inl buf => (Some buf, None)
           | inr err => (None, Some err)
           end
  | _, _ => (None, Some ErrNoSuchFile)
  end.

End request.


(** ** The older model of package main (src/model.go)

    The model before versions and the INVALID flag: files are compared by
    modification time alone, and Index and IndexUpdate keep tombstones out
    of the remote indexes unless deletion is enabled. *)

Module legacy.

Definition FlagDeleted : Z := Z.shiftl 1 12.

Section operations.
Context {order : MapOrder}.
(** [opts.Delete]; the options are declared outside the sources. *)
Context (opts_Delete : bool).

(** The record is built without a version: the field keeps its zero. *)
Definition fileFromFileInfo (f : protocol.FileInfo) : File :=
  let '(blocks, _) :=
    foldl (λ '(blocks, offset) b,
             (blocks ++ [mkBlock offset (protocol.Length b) (protocol.Hash b)],
              wrap_u64 (offset + protocol.Length b)))
          ([], 0) (protocol.Blocks f) in
  mkFile (protocol.Name f) (protocol.Flags f) (protocol.Modified f) 0 blocks.

Definition recomputeGlobal (now : Instant) (m : Model) : Model :=
  let g := foldl put ∅ (range_of (local m)) in
  let g :=
    foldl (λ g '(_, fs),
             foldl (λ g '(n, f),
                      match g !! n with
                      | Some cf =>
                          if Modified cf <? Modified f then <[n := f]> g else g
                      | None => <[n := f]> g
                      end) g (range_of fs))
          g (range_of (remote m)) in
  let updated :=
    if negb (size g =? size (global m))%nat then true
    else existsb (λ '(n, f0),
                    match global m !! n with
                    | Some f1 => negb (Modified f0 =? Modified f1)
                    | None => true
                    end) (range_of g) in
  if updated then set_global g (time_Unix now) m else m.

Definition recomputeNeed (m : Model) : Model :=
  set_need
    (foldl (λ nd '(n, f),
              match local m !! n with
              | Some hf =>
                  if Modified hf <? Modified f then <[n := true]> nd else nd
              | None => <[n := true]> nd
              end)
           ∅ (range_of (global m)))
    m.

(** The body of the loop of Index and IndexUpdate. *)
Definition storeOne (r : gmap string File) (f : protocol.FileInfo)
    : gmap string File :=
  if negb (Z.land (protocol.Flags f) FlagDeleted =? 0) && negb opts_Delete
  then r   (* files marked as deleted do not even enter the model *)
  else <[protocol.Name f := fileFromFileInfo f]> r.

Definition Index (now : Instant) (nodeID : string)
    (fs : list protocol.FileInfo) (m : Model) : Model :=
  recomputeNeed
    (recomputeGlobal now
       (set_remote (<[nodeID := foldl storeOne ∅ fs]> (remote m)) m)).

End operations.

End legacy.

(** ** Vocabulary of the statements *)

Section vocabulary.
Context {order : MapOrder}.

(** The entries the loop over the remote indexes visits, in order. *)
Definition remote_visits (r : gmap string (gmap string File))
    : list (string * File) :=
  concat (map (λ pf, range_of pf.2) (range_of r)).

End vocabulary.

(** [c] is a record for [n] in local or in some remote index. *)
Definition candidate (m : Model) (n : string) (c : File) : Prop :=
  local m !! n = Some c ∨ ∃ p fs, remote m !! p = Some fs ∧ fs !! n = Some c.

(** [g] is a candidate for [n] that no candidate is NewerThan. *)
Definition newest_of (m : Model) (n : string) (g : File) : Prop :=
  candidate m n g ∧ ∀ c, candidate m n c → NewerThan c g = false.

(** The global map has a record for every name with a candidate, and no
    candidate is NewerThan it. *)
Definition global_covers (m : Model) : Prop :=
  ∀ n c, candidate m n c →
         ∃ g, global m !! n = Some g ∧ NewerThan c g = false.

(** The older Index (src/model.go) stores [f]: it is not flagged DELETED,
    or deletion is enabled. *)
Definition legacy_kept (opts_Delete : bool) (f : protocol.FileInfo) : bool :=
  (Z.land (protocol.Flags f) legacy.FlagDeleted =? 0) || opts_Delete.

(** The test recomputeNeed applies to the global record [gf] of [n]. *)
Definition wanted (m : Model) (n : string) (gf : File) : bool :=
  match local m !! n with Some lf => NewerThan gf lf | None => true end
  && negb (has_flag (Flags gf) protocol.FlagInvalid)
  && (negb (has_flag (Flags gf) protocol.FlagDeleted)
      || (delete_ m && bool_decide (is_Some (local m !! n)))).

(** The record markDeletedLocals stores for a vanished local record [f]
    whose global record is not NewerThan it. *)
Definition marked (f : File) : File :=
  if Z.land (Flags f) protocol.FlagDeleted =? 0 then tombstone f else f.

(** The offsets of [bs] are the sums of the lengths before them, counted
    from [start]. *)
Fixpoint prefix_offsets (start : Z) (bs : list Block) : Prop :=
  match bs with
  | [] => True
  | b :: bs => Offset b = start ∧ prefix_offsets (start + Length b) bs
  end.

(** The blocks [bs] with their offsets counted anew from [start], in
    uint64 arithmetic. *)
Fixpoint regenerate (start : Z) (bs : list Block) : list Block :=
  match bs with
  | [] => []
  | b :: bs =>
      mkBlock start (Length b) (Hash b)
      :: regenerate (wrap_u64 (start + Length b)) bs
  end.

(** ** Concrete states for the examples *)

Definition clock0 : Instant := 1700000000 * time_Second.
Definition clock1 : Instant := clock0 + 30 * time_Second.
Definition clock2 : Instant := clock0 + 60 * time_Second.

(** The record a peer announces for "a", and the record of a local scan
    with the same stamps but another mode and content. *)
Definition peer_a : protocol.FileInfo :=
  protocol.mkFileInfo "a" 0 1600000000 0 [protocol.mkBlockInfo 100 []].
Definition disk_a : File := mkFile "a" 420 1600000000 0 [mkBlock 0 7 []].

(** A new model, the index of peer "42", then the first local scan. *)
Definition stale_state : Model :=
  ReplaceLocal (order := listed_order) clock1 clock1 clock1 [disk_a]
    (Index (order := listed_order) clock0 "42" [peer_a] (NewModel clock0 "repo")).

(** Scenario 5 of the spec: a scan that finds "a", a file "b" promoted by
    updateLocal, and a second scan that no longer finds "b". *)
Definition disk_b : File := mkFile "b" 420 1650000000 0 [mkBlock 0 100 []].

Definition scanned_state : Model :=
  ReplaceLocal (order := listed_order) clock0 clock0 clock0 [disk_a]
    (NewModel clock0 "repo").

Definition promoted_state : Model :=
  updateLocal (order := listed_order) clock0 clock0 clock0 disk_b scanned_state.

Definition tombstone_state : Model :=
  ReplaceLocal (order := listed_order) clock1 clock1 clock1 [disk_a]
    promoted_state.

Definition tombstone_b : File :=
  mkFile "b" protocol.FlagDeleted 1650000000 1 [].

(** A second record under the name of [peer_a]. *)
Definition peer_a' : protocol.FileInfo :=
  protocol.mkFileInfo "a" 0 1600000005 0 [protocol.mkBlockInfo 50 []].

(** A file of two blocks and an empty disk. *)
Definition two_blocks : File :=
  mkFile "c" 420 1600000000 3 [mkBlock 0 131072 []; mkBlock 131072 5 []].

Definition no_disk (d name : string) (offset size : Z)
    : list Byte.byte + error :=
  inr (ErrIO "open: no such file or directory").

(** A list that names "a" twice, with two modification times. *)
Definition disk_a' : File := mkFile "a" 420 1600000005 0 [mkBlock 0 9 []].


(** A record whose version counter stands at its maximum, as a peer
    announces it and as the local scan has it. *)
Definition peer_b_max : protocol.FileInfo :=
  protocol.mkFileInfo "b" 420 1650000000 4294967295
    [protocol.mkBlockInfo 100 []].
Definition disk_b_max : File :=
  mkFile "b" 420 1650000000 4294967295 [mkBlock 0 100 []].

(** A newer "b" announced by a peer, and a file last modified at the
    epoch, in its first version. *)
Definition peer_b_newer : protocol.FileInfo :=
  protocol.mkFileInfo "b" 420 1650000500 0 [protocol.mkBlockInfo 100 []].
Definition disk_z : File := mkFile "z" 420 0 0 [mkBlock 0 3 []].

(** The tombstone of "b" as a peer announces it. *)
Definition peer_b_deleted : protocol.FileInfo :=
  protocol.mkFileInfo "b" protocol.FlagDeleted 1650000000 1 [].

(** ** Read operations and the peer table (src/unnamed/part_000) *)

Section reads.
Context {order : MapOrder}.
(** [b.Size] of [File.Size]: the field is declared with [Block], outside
    the sources. *)
Context (Block_Size : Block → Z).

(** [File.Size] (src/unnamed/part_002). *)
Definition File_Size (f : File) : Z :=
  foldl (λ bytes b, wrap_int (bytes + wrap_int (Block_Size b))) 0 (Blocks f).

(** The loop of GlobalSize and LocalSize over a map of files:
    (files, deleted, bytes). *)
Definition sizeOne (acc : Z * Z * Z) (e : string * File) : Z * Z * Z :=
  let '(files, deleted, bytes) := acc in
  if Z.land (Flags e.2) protocol.FlagDeleted =? 0
  then (wrap_int (files + 1), deleted, wrap_int (bytes + File_Size e.2))
  else (files, wrap_int (deleted + 1), bytes).

Definition GlobalSize (m : Model) : Z * Z * Z :=
  foldl sizeOne (0, 0, 0) (range_of (global m)).

Definition LocalSize (m : Model) : Z * Z * Z :=
  foldl sizeOne (0, 0, 0) (range_of (local m)).

Definition InSyncSize (m : Model) : Z * Z :=
  foldl (λ '(files, bytes) '(n, f),
           match global m !! n with
           | Some gf =>
               if Equals f gf
               then (wrap_int (files + 1), wrap_int (bytes + File_Size f))
               else (files, bytes)
           | None => (files, bytes)
           end)
        (0, 0) (range_of (local m)).

Definition NeedFiles (m : Model) : list File * Z :=
  foldl (λ '(files, bytes) '(n, _),
           let f := file_at (global m) n in
           (files ++ [f], wrap_int (bytes + File_Size f)))
        ([], 0) (range_of (need m)).

End reads.

Section peers.
Context {order : MapOrder}.

Definition ConnectedTo (m : Model) (nodeID : string) : bool :=
  bool_decide (nodeID ∈ nodes m).

(** protocolIndex: the local index in protocol data types. *)
Definition protocolIndex (m : Model) : list protocol.FileInfo :=
  foldl (λ index '(_, f), index ++ [fileInfoFromFile f]) [] (range_of (local m)).

(** AddConnection: the peer is installed; the index that is handed to
    [node.Index] in the background is returned with the model. *)
Definition AddConnection (nodeID : string) (m : Model)
    : Model * list protocol.FileInfo :=
  let m' := set_conns ({[nodeID]} ∪ nodes m) ({[nodeID]} ∪ rawConn m) m in
  (m', protocolIndex m').

(** whoHas: the peers whose record for [name] Equals the global one. *)
Definition whoHas (m : Model) (name : string) : list string :=
  let gf := file_at (global m) name in
  foldl (λ remote '(node, files),
           match files !! name with
           | Some file => if Equals file gf then remote ++ [node] else remote
           | None => remote
           end)
        [] (range_of (remote m)).

End peers.

(** ** The puller's helpers (src/unnamed/part_000) *)

Definition Block_zero : Block := mkBlock 0 0 [].

(** [blockIterator.Next] on the queue [blocks]: the block, [ok], and the
    queue that is left. *)
Definition Next (blocks : list Block) : Block * bool * list Block :=
  match blocks with
  | [] => (Block_zero, false, [])
  | b :: rest => (b, true, rest)
  end.

(** The loop of one fetcher, run on its own: it takes blocks until [Next]
    says there is none or a request fails.  [requestGlobal] tells whether
    the request for a block succeeds; the result is the blocks whose
    content went to the channel and the queue that is left. *)
Fixpoint fetch_all (fuel : nat) (requestGlobal : Block → bool)
    (blocks : list Block) : list Block * list Block :=
  match fuel with
  | O => ([], blocks)
  | S fuel =>
      let '(b, ok, rest) := Next blocks in
      if ok
      then if requestGlobal b
           then let '(got, remaining) := fetch_all fuel requestGlobal rest in
                (b :: got, remaining)
           else ([], rest)
      else ([], rest)
  end.

(** Fetchers share one iterator; under its mutex their calls of [Next]
    come in some order.  [schedule] names the fetcher of each call; the
    result gives each call's fetcher, block and [ok]. *)
Fixpoint fetchers (schedule : list nat) (blocks : list Block)
    : list (nat * Block * bool) :=
  match schedule with
  | [] => []
  | who :: schedule =>
      let '(b, ok, rest) := Next blocks in
      (who, b, ok) :: fetchers schedule rest
  end.

Inductive hashError :=
  | ReadError (err : error)
  | IncorrectNumberOfBlocks
  | HashMismatch (current correct : Block).

(** [bytes.Compare]: -1, 0 or 1 as [a] is lexically below, equal to or
    above [b]. *)
Fixpoint bytes_Compare (a b : list Byte.byte) : Z :=
  match a, b with
  | [], [] => 0
  | [], _ :: _ => -1
  | _ :: _, [] => 1
  | x :: a, y :: b =>
      match N.compare (Strings.Byte.to_N x) (Strings.Byte.to_N y) with
      | Lt => -1
      | Gt => 1
      | Eq => bytes_Compare a b
      end
  end.

(** The comparison loop of hashCheck, over two lists of one length. *)
Fixpoint hashCompare (current correct : list Block) : option hashError :=
  match current, correct with
  | c :: current, r :: correct =>
      if negb (bytes_Compare (Hash c) (Hash r) =? 0)
      then Some (HashMismatch c r)
      else hashCompare current correct
  | _, _ => None
  end.

(** hashCheck; [read] is what opening the file and hashing it by
    [Blocks(rf, BlockSize)] gives (blocks.go is not among the sources). *)
Definition hashCheck (read : list Block + error) (correct : list Block)
    : option hashError :=
  match read with
  | inr err => Some (ReadError err)
  | inl current =>
      if negb (length current =? length correct)%nat
      then Some IncorrectNumberOfBlocks
      else hashCompare current correct
  end.

(** ** Package protocol: the index exchange of a connection
    (src/unnamed/part_003)

    Of a Connection the fields that Index, Close and the index arms of
    readerLoop read or write; the reader, the writer and the channels of
    pending requests are outside. *)

Definition messageTypeIndex : Z := 1.
Definition messageTypeIndexUpdate : Z := 6.

Record Connection := mkConnection {
  ID : string;
  closed : bool;
  nextId : Z;                                  (* int *)
  indexSent : option (gmap string (Z * Z));    (* nil, or name -> [2]int64 *)
  hasSentIndex : bool;
  hasRecvdIndex : bool
}.

Definition NewConnection (nodeID : string) : Connection :=
  mkConnection nodeID false 0 None false false.

(** The pair [{f.Modified, int64(f.Version)}] kept per name sent. *)
Definition sentStamps (f : protocol.FileInfo) : Z * Z :=
  (protocol.Modified f, protocol.Version f).

(** The body of the loop that builds the diff of an index update. *)
Definition diffOne (acc : gmap string (Z * Z) * list protocol.FileInfo)
    (f : protocol.FileInfo) : gmap string (Z * Z) * list protocol.FileInfo :=
  let '(sent, diff) := acc in
  if match sent !! protocol.Name f with
     | Some vs =>
         negb (protocol.Modified f =? vs.1) || negb (protocol.Version f =? vs.2)
     | None => true
     end
  then (<[protocol.Name f := sentStamps f]> sent, diff ++ [f])
  else (sent, diff).

(** A message as it is handed to the writer: id, type and index. *)
Definition IndexMessage : Type := Z * Z * list protocol.FileInfo.

(** [Connection.Close]: the first call closes and tells the receiver (the
    flag returned), later calls do nothing. *)
Definition Connection_Close (c : Connection) : Connection * bool :=
  if closed c then (c, false)
  else (mkConnection (ID c) true (nextId c) (indexSent c) (hasSentIndex c)
          (hasRecvdIndex c), true).

(** The first part of [Connection.Index]: the message type, the new
    [indexSent] and the index to write. *)
Definition indexPlan (idx : list protocol.FileInfo) (c : Connection)
    : Z * gmap string (Z * Z) * list protocol.FileInfo :=
  match indexSent c with
  | None =>
      (messageTypeIndex,
       foldl (λ sent f, <[protocol.Name f := sentStamps f]> sent) ∅ idx,
       idx)
  | Some sent =>
      let '(sent, diff) := foldl diffOne (sent, []) idx in
      (messageTypeIndexUpdate, sent, diff)
  end.

(** [Connection.Index]; [werr] is the error of the flush or of the writer,
    if any.  The result is the connection, the message written, and
    whether the receiver's Close was called. *)
Definition Connection_Index (werr : option error)
    (idx : list protocol.FileInfo) (c : Connection)
    : Connection * IndexMessage * bool :=
  let '(msgType, sent, idx) := indexPlan idx c in
  let c' := mkConnection (ID c) (closed c)
              (Z.land (wrap_int (nextId c + 1)) 4095)
              (Some sent) true (hasRecvdIndex c) in
  let msg := (nextId c, msgType, idx) in
  match werr with
  | None => (c', msg, false)
  | Some _ => let '(c'', told) := Connection_Close c' in (c'', msg, told)
  end.

Section receiver.
Context {order : MapOrder}.

(** The arms of readerLoop's switch that hand a received index to the
    model; [nodeID] is the ID of the connection it came in on. *)
Definition receiveIndex (now : Instant) (nodeID : string) (msgType : Z)
    (files : list protocol.FileInfo) (m : Model) : Model :=
  if msgType =? messageTypeIndex then Index now nodeID files m
  else if msgType =? messageTypeIndexUpdate then IndexUpdate now nodeID files m
  else m.

End receiver.

(** ** The public mutations as data *)

Inductive Mutation :=
  | DoIndex (now : Instant) (nodeID : string) (fs : list protocol.FileInfo)
  | DoIndexUpdate (now : Instant) (nodeID : string) (fs : list protocol.FileInfo)
  | DoClose (now : Instant) (node : string)
  | DoReplaceLocal (tg tl tb : Instant) (fs : list File)
  | DoSeedLocal (now : Instant) (fs : list protocol.FileInfo)
  | DoUpdateLocal (tg tl tb : Instant) (f : File)
  | DoAddConnection (nodeID : string).

Definition mutate {order : MapOrder} (op : Mutation) (m : Model) : Model :=
  match op with
  | DoIndex now nodeID fs => Index now nodeID fs m
  | DoIndexUpdate now nodeID fs => IndexUpdate now nodeID fs m
  | DoClose now node => Close now node m
  | DoReplaceLocal tg tl tb fs => ReplaceLocal tg tl tb fs m
  | DoSeedLocal now fs => SeedLocal now fs m
  | DoUpdateLocal tg tl tb f => updateLocal tg tl tb f m
  | DoAddConnection nodeID => (AddConnection nodeID m).1
  end.

(** The clock readings a mutation takes. *)
Definition readings (op : Mutation) : list Instant :=
  match op with
  | DoIndex now _ _ | DoIndexUpdate now _ _ | DoClose now _
  | DoSeedLocal now _ => [now]
  | DoReplaceLocal tg tl tb _ | DoUpdateLocal tg tl tb _ => [tg; tl; tb]
  | DoAddConnection _ => []
  end.

(** ** Invariants of the index store *)

(** Every record is stored under its own name. *)
Definition keyed (fm : gmap string File) : Prop :=
  ∀ n f, fm !! n = Some f → Name f = n.

Definition well_keyed (m : Model) : Prop :=
  keyed (local m) ∧ keyed (global m) ∧
  ∀ p fs, remote m !! p = Some fs → keyed fs.

(** The need map is the one recomputeNeed gives. *)
Definition need_current (m : Model) : Prop :=
  ∀ n b, need m !! n = Some b ↔
         b = true ∧ ∃ gf, global m !! n = Some gf ∧ wanted m n gf = true.

(** The global map is settled: its keys are the names that have a
    candidate, each of its records has the stamps of a candidate, and no
    candidate is NewerThan it; and the need map is current. *)
Definition settled (m : Model) : Prop :=
  (∀ n g, global m !! n = Some g →
          ∃ c, candidate m n c ∧ Equals g c = true) ∧
  global_covers m ∧
  need_current m.

(** The stamps the model keeps of a record. *)
Definition stampsOf (f : File) : Z * Z := (Modified f, Version f).

(** What a connection has sent is what the receiver holds, stamp for
    stamp: [c] is the sender's connection to the peer whose model is [m],
    and [p] the sender's id there. *)
Definition in_step (c : Connection) (m : Model) (p : string) : Prop :=
  match indexSent c with
  | None => True
  | Some sent =>
      ∃ r, remote m !! p = Some r ∧
           ∀ n, sent !! n = stampsOf <$> r !! n
  end.

(** The test of whoHas on one entry of [m.remote]. *)
Definition holds (name : string) (gf : File) (e : string * gmap string File)
    : bool :=
  match e.2 !! name with
  | Some file => Equals file gf
  | None => false
  end.

(** ** One pull of the puller (src/unnamed/part_000) *)

(** What one round of puller does to the model for the needed name [n],
    with no other writer in between.  The round first sorts the needed
    names by the flags of [m.global[n]]: a name with FlagDirectory goes to
    [needDirs], for which pullDir is called, and pullDir writes nothing to
    the model; any other name goes to [needFiles] and gets a goroutine,
    which reads [m.global[n]], pulls or removes the file, and calls
    updateLocal.  [pullFile] is the result of [m.pullFile(n)].  The source
    declares [var err error] and then, in the branch of a file that is not
    deleted, [err := m.pullFile(n)]: a second variable of that branch, so
    the [err] tested afterwards is the first one, which is never
    assigned. *)
Definition pullOne {order : MapOrder} (pullFile : string → option error)
    (tg tl tb : Instant) (n : string) (m : Model) : Model :=
  if Z.land (Flags (file_at (global m) n)) protocol.FlagDirectory =? 0
  then
    match global m !! n with
    | None => m
    | Some f =>
        let err : option error := None in
        let _ :=
          if Z.land (Flags f) protocol.FlagDeleted =? 0
          then (let err := pullFile n in err)
          else None in
        match err with
        | None => updateLocal tg tl tb f m
        | Some _ => m
        end
    end
  else m.

(** The model right after peer "42" has announced "a". *)
Definition needy_state : Model :=
  Index (order := listed_order) clock0 "42" [peer_a] (NewModel clock0 "repo").

(** A pull that fails. *)
Definition failing_pull (n : string) : option error :=
  Some (ErrIO "no connected nodes with file available").

(** A peer's first index and a later one, in which "a" has changed and
    "b" is new. *)
Definition first_index : list protocol.FileInfo := [peer_a].
Definition later_index : list protocol.FileInfo := [peer_a'; peer_b_newer].

(** The connection of node "42" to node "7" after it has sent its first
    index, and the model of node "7" after receiving it. *)
Definition sender_one : Connection :=
  (Connection_Index None first_index (NewConnection "7")).1.1.
Definition receiver_one : Model :=
  receiveIndex (order := listed_order) clock0 "42" messageTypeIndex
    first_index (NewModel clock0 "repo").

(** [f] with the offsets of its blocks counted anew from 0. *)
Definition reoffset (f : File) : File :=
  mkFile (Name f) (Flags f) (Modified f) (Version f)
         (regenerate 0 (Blocks f)).

(** Successive calls of [m.shouldSuppressChange(name)], one per pair of
    clock readings: the results and the model left. *)
Fixpoint suppressionRun (name : string) (readings : list (Instant * Instant))
    (m : Model) : list bool * Model :=
  match readings with
  | [] => ([], m)
  | (now, now') :: readings =>
      let '(sup, m) := Model_shouldSuppressChange now now' name m in
      let '(sups, m) := suppressionRun name readings m in
      (sup :: sups, m)
  end.

(** A model that has just admitted a change of "a". *)
Definition admitted_state : Model :=
  (Model_shouldSuppressChange clock0 clock0 "a" (NewModel clock0 "repo")).2.

(** ** StartRW (src/unnamed/part_000) *)

Definition set_delete (del : bool) (m : Model) : Model :=
  {| dir := dir m; global := global m; local := local m; remote := remote m;
     need := need m; nodes := nodes m; rawConn := rawConn m;
     updatedLocal := updatedLocal m; updateGlobal := updateGlobal m;
     lastIdxBcast := lastIdxBcast m;
     lastIdxBcastRequest := lastIdxBcastRequest m; delete_ := del;
     fileLastChanged := fileLastChanged m;
     fileWasSuppressed := fileWasSuppressed m |}.

(** StartRW as it is called, once: what it assigns of the fields above.
    The flag [rwRunning] that makes a second call panic, the two degrees
    of parallelism and the goroutines it starts are outside. *)
Definition StartRW (del : bool) (m : Model) : Model := set_delete del m.

(** A model that holds "b" and has heard from peer "42" that "b" is
    deleted, while deletion is off. *)
Definition deletion_pending : Model :=
  Index (order := listed_order) clock1 "42" [peer_b_deleted]
    (ReplaceLocal (order := listed_order) clock0 clock0 clock0 [disk_b]
       (NewModel clock0 "repo")).

(** ** One round of broadcastIndexLoop (src/unnamed/part_000) *)

Definition set_lastIdxBcast (t : Instant) (m : Model) : Model :=
  {| dir := dir m; global := global m; local := local m; remote := remote m;
     need := need m; nodes := nodes m; rawConn := rawConn m;
     updatedLocal := updatedLocal m; updateGlobal := updateGlobal m;
     lastIdxBcast := t;
     lastIdxBcastRequest := lastIdxBcastRequest m; delete_ := delete_ m;
     fileLastChanged := fileLastChanged m;
     fileWasSuppressed := fileWasSuppressed m |}.

(** The body of the loop, between two sleeps and with no other writer in
    between; [now1] and [now2] are read by the two [time.Since], [now3] by
    the [time.Now()] that stamps the broadcast.  The result is the model
    and, when the round broadcasts, the index handed to [Index] of every
    connection of [m.nodes]. *)
Definition broadcastRound {order : MapOrder} (now1 now2 now3 : Instant)
    (m : Model) : Model * option (list protocol.FileInfo) :=
  let bcastRequested := lastIdxBcast m <? lastIdxBcastRequest m in
  let holdtimeExceeded :=
    idxBcastHoldtime <? time_Since now1 (lastIdxBcastRequest m) in
  let maxDelayExceeded :=
    idxBcastMaxDelay <? time_Since now2 (lastIdxBcast m) in
  if bcastRequested && (holdtimeExceeded || maxDelayExceeded)
  then (set_lastIdxBcast now3 m, Some (protocolIndex m))
  else (m, None).
(** * Properties *)

(** ** The two comparators *)

Lemma Equals_spec f o :
  Equals f o = true ↔ Modified f = Modified o ∧ Version f = Version o.
Proof. unfold Equals. rewrite andb_true_iff, !Z.eqb_eq. tauto. Qed.

Lemma NewerThan_spec f o :
  NewerThan f o = true ↔
  Modified o < Modified f ∨ (Modified f = Modified o ∧ Version o < Version f).
Proof.
  unfold NewerThan.
  rewrite orb_true_iff, andb_true_iff, !Z.ltb_lt, Z.eqb_eq. tauto.
Qed.

Lemma NewerThan_false f o :
  NewerThan f o = false ↔
  Modified f < Modified o ∨ (Modified f = Modified o ∧ Version f <= Version o).
Proof.
  rewrite <- not_true_iff_false, NewerThan_spec. lia.
Qed.

(** Turns every comparator fact in sight into arithmetic on the stamps. *)
Ltac stamps :=
  repeat match goal with
         | H : NewerThan _ _ = true |- _ => apply NewerThan_spec in H
         | H : NewerThan _ _ = false |- _ => apply NewerThan_false in H
         | H : Equals _ _ = true |- _ => apply Equals_spec in H
         | |- NewerThan _ _ = true => apply NewerThan_spec
         | |- NewerThan _ _ = false => apply NewerThan_false
         | |- Equals _ _ = true => apply Equals_spec
         end;
  try lia.

Lemma NewerThan_irrefl f : NewerThan f f = false.
Proof. stamps. Qed.

Lemma not_newer_trans a b c :
  NewerThan a b = false → NewerThan b c = false → NewerThan a c = false.
Proof. intros; stamps. Qed.

Lemma NewerThan_Equals_l a a' b :
  Equals a a' = true → NewerThan a b = NewerThan a' b.
Proof.
  intros; destruct (NewerThan a' b) eqn:E; stamps.
Qed.

Lemma NewerThan_Equals_r a b b' :
  Equals b b' = true → NewerThan a b = NewerThan a b'.
Proof.
  intros; destruct (NewerThan a b') eqn:E; stamps.
Qed.

(** ** Iteration order *)

Section order_facts.
Context {order : MapOrder}.

Lemma elem_of_range_of {A} (m : gmap string A) k v :
  (k, v) ∈ range_of m ↔ m !! k = Some v.
Proof. rewrite (range_of_perm A m). apply elem_of_map_to_list. Qed.

Lemma NoDup_fst_range_of {A} (m : gmap string A) : NoDup (range_of m).*1.
Proof. rewrite (range_of_perm A m). apply NoDup_fst_map_to_list. Qed.

Lemma foldl_put_notin {A} (es : list (string * A)) g k :
  k ∉ es.*1 → foldl put g es !! k = g !! k.
Proof.
  revert g. induction es as [|[n f] es IH]; intros g Hk; simpl in *; [done|].
  apply not_elem_of_cons in Hk as [Hne Hk].
  rewrite IH by done. unfold put; simpl. by rewrite lookup_insert_ne.
Qed.

Lemma foldl_put_elem {A} (es : list (string * A)) g k v :
  foldl put g es !! k = Some v → (k, v) ∈ es ∨ g !! k = Some v.
Proof.
  revert g. induction es as [|[n f] es IH]; intros g Hk; simpl in *; [by right|].
  apply IH in Hk as [Hk|Hk]; [left; by right|].
  unfold put in Hk; simpl in Hk.
  destruct (decide (n = k)) as [->|Hne].
  - rewrite lookup_insert_eq in Hk. injection Hk as ->. left; by left.
  - rewrite lookup_insert_ne in Hk by done. by right.
Qed.

Lemma foldl_put_NoDup {A} (es : list (string * A)) g k v :
  NoDup es.*1 → (k, v) ∈ es → foldl put g es !! k = Some v.
Proof.
  revert g. induction es as [|[n f] es IH]; intros g Hnd Hin; simpl in *.
  - by apply elem_of_nil in Hin.
  - apply NoDup_cons in Hnd as [Hn Hnd].
    apply elem_of_cons in Hin as [Heq|Hin]; [|by apply IH].
    injection Heq as -> ->.
    rewrite foldl_put_notin by done.
    unfold put; simpl. by rewrite lookup_insert_eq.
Qed.

Lemma foldl_put_is_Some {A} (es : list (string * A)) g k :
  is_Some (foldl put g es !! k) ↔ k ∈ es.*1 ∨ is_Some (g !! k).
Proof.
  revert g. induction es as [|[n f] es IH]; intros g; simpl.
  - rewrite elem_of_nil. tauto.
  - rewrite IH, elem_of_cons. unfold put; simpl.
    destruct (decide (n = k)) as [->|Hne].
    + rewrite lookup_insert_eq. split; [|eauto]. intros _. by left; left.
    + rewrite lookup_insert_ne by done. split; [tauto|].
      intros [[?|?]|?]; [congruence|tauto|tauto].
Qed.

(** Seeding a map with all the entries of another copies it. *)
Lemma foldl_put_range_of {A} (m : gmap string A) :
  foldl put ∅ (range_of m) = m.
Proof.
  apply map_eq; intros k. apply option_eq; intros v. split.
  - intros [Hin|Hin]%foldl_put_elem; [by apply elem_of_range_of|].
    by rewrite lookup_empty in Hin.
  - intros Hk. apply foldl_put_NoDup; [apply NoDup_fst_range_of|].
    by apply elem_of_range_of.
Qed.

End order_facts.

(** ** recomputeGlobal *)

Section global_facts.
Context {order : MapOrder}.

Lemma elem_of_remote_visits r n c :
  (n, c) ∈ remote_visits r ↔ ∃ p fs, r !! p = Some fs ∧ fs !! n = Some c.
Proof.
  unfold remote_visits.
  assert (∀ ps : list (string * gmap string File),
            (n, c) ∈ concat (map (λ pf, range_of pf.2) ps) ↔
            ∃ p fs, (p, fs) ∈ ps ∧ fs !! n = Some c) as Hgen.
  { induction ps as [|[p fs] ps IH]; simpl.
    - split; [by intros ?%elem_of_nil|]. by intros (?&?&?%elem_of_nil&_).
    - rewrite elem_of_app, IH, elem_of_range_of. split.
      + intros [Hfs|(q&gs&Hq&Hgs)]; [exists p, fs|exists q, gs];
          split; try done; [by left|by right].
      + intros (q&gs&[Heq|Hq]%elem_of_cons&Hgs).
        * injection Heq as -> ->. by left.
        * right. by exists q, gs. }
  rewrite Hgen. split; intros (p&fs&Hp&Hfs); exists p, fs; split; try done;
    by apply elem_of_range_of.
Qed.

Lemma newGlobal_visits m :
  newGlobal m = foldl offer (local m) (remote_visits (remote m)).
Proof.
  unfold newGlobal, remote_visits. rewrite foldl_put_range_of.
  generalize (local m) as g. induction (range_of (remote m)) as [|[p fs] ps IH];
    intros g; simpl; [done|].
  by rewrite foldl_app, IH.
Qed.

Lemma offer_lookup_ne g n nf k : n ≠ k → offer g (n, nf) !! k = g !! k.
Proof.
  intros Hne. unfold offer.
  destruct (g !! n) as [lf|]; [destruct (NewerThan nf lf)|];
    by rewrite ?lookup_insert_ne.
Qed.

Lemma offer_lookup g n nf :
  offer g (n, nf) !! n =
  Some match g !! n with
       | Some lf => if NewerThan nf lf then nf else lf
       | None => nf
       end.
Proof.
  unfold offer. destruct (g !! n) as [lf|] eqn:E;
    [destruct (NewerThan nf lf)|]; by rewrite ?lookup_insert_eq.
Qed.

(** Every entry of the result was in the seed or was offered. *)
Lemma foldl_offer_elem es g n f :
  foldl offer g es !! n = Some f → g !! n = Some f ∨ (n, f) ∈ es.
Proof.
  revert g. induction es as [|[k kf] es IH]; intros g Hf; cbn [foldl] in *; [by left|].
  apply IH in Hf as [Hf|Hf]; [|right; by right].
  destruct (decide (k = n)) as [->|Hne].
  - rewrite offer_lookup in Hf. injection Hf as Hf.
    destruct (g !! n) as [lf|]; [destruct (NewerThan kf lf)|]; subst;
      first [by left | right; by left].
  - rewrite offer_lookup_ne in Hf by done. by left.
Qed.

(** An incumbent is only ever replaced by a record NewerThan it. *)
Lemma foldl_offer_seed es g n c :
  g !! n = Some c →
  ∃ f, foldl offer g es !! n = Some f ∧ (f = c ∨ NewerThan f c = true).
Proof.
  revert g c. induction es as [|[k kf] es IH]; intros g c Hc; cbn [foldl].
  - exists c. by split; [|left].
  - destruct (decide (k = n)) as [->|Hne].
    + pose proof (offer_lookup g n kf) as Hstep. rewrite Hc in Hstep.
      destruct (NewerThan kf c) eqn:Hnew.
      * destruct (IH _ _ Hstep) as (f&Hf&Hfk). exists f. split; [done|].
        right. destruct Hfk as [->|Hfk]; stamps.
      * apply (IH _ _ Hstep).
    + apply IH. by rewrite offer_lookup_ne.
Qed.

(** No offered record is NewerThan the one that ends up in the map. *)
Lemma foldl_offer_bound es g n c :
  (n, c) ∈ es → ∃ f, foldl offer g es !! n = Some f ∧ NewerThan c f = false.
Proof.
  revert g. induction es as [|[k kf] es IH]; intros g Hin; cbn [foldl].
  - by apply elem_of_nil in Hin.
  - apply elem_of_cons in Hin as [Heq|Hin]; [|by apply IH].
    injection Heq as <- <-.
    pose proof (offer_lookup g n c) as Hstep.
    destruct (foldl_offer_seed es _ _ _ Hstep) as (f&Hf&Hfc).
    exists f. split; [done|].
    destruct (g !! n) as [lf|]; [destruct (NewerThan c lf) eqn:Hnew|];
      destruct Hfc as [->|Hfc]; stamps.
Qed.

(** A seed record that no offered record is NewerThan stays. *)
Lemma foldl_offer_keeps es g n lf :
  g !! n = Some lf →
  (∀ c, (n, c) ∈ es → NewerThan c lf = false) →
  foldl offer g es !! n = Some lf.
Proof.
  revert g. induction es as [|[k kf] es IH]; intros g Hlf Hall; cbn [foldl]; [done|].
  apply IH; [|intros c Hc; apply Hall; by right].
  destruct (decide (k = n)) as [->|Hne].
  - rewrite offer_lookup, Hlf. by rewrite (Hall kf) by by left.
  - by rewrite offer_lookup_ne.
Qed.

Lemma foldl_offer_is_Some es g n :
  is_Some (foldl offer g es !! n) ↔ is_Some (g !! n) ∨ n ∈ es.*1.
Proof.
  revert g. induction es as [|[k kf] es IH]; intros g; cbn [foldl]; rewrite ?fmap_cons.
  - rewrite elem_of_nil. tauto.
  - rewrite IH, elem_of_cons. cbn [fst]. destruct (decide (k = n)) as [->|Hne].
    + rewrite offer_lookup. split; [|eauto]. intros _. right; by left.
    + rewrite offer_lookup_ne by done. split; [tauto|].
      intros [?|[?|?]]; [tauto|congruence|tauto].
Qed.

Lemma newGlobal_newest m n g : newGlobal m !! n = Some g → newest_of m n g.
Proof.
  rewrite newGlobal_visits. intros Hg. split.
  - apply foldl_offer_elem in Hg as [Hg|Hg]; [by left|].
    right. by apply elem_of_remote_visits.
  - intros c [Hc|Hc].
    + destruct (foldl_offer_seed (remote_visits (remote m)) _ _ _ Hc)
        as (f&Hf&Hfc).
      rewrite Hg in Hf. injection Hf as <-. destruct Hfc as [->|?]; stamps.
    + apply elem_of_remote_visits in Hc.
      destruct (foldl_offer_bound _ (local m) _ _ Hc) as (f&Hf&Hfc).
      rewrite Hg in Hf. by injection Hf as <-.
Qed.

Lemma newGlobal_local_wins m n lf :
  local m !! n = Some lf →
  (∀ p fs c, remote m !! p = Some fs → fs !! n = Some c →
             NewerThan c lf = false) →
  newGlobal m !! n = Some lf.
Proof.
  intros Hlf Hall. rewrite newGlobal_visits.
  apply foldl_offer_keeps; [done|].
  intros c (p&fs&Hp&Hc)%elem_of_remote_visits. eauto.
Qed.

Lemma newGlobal_only_newer m n g lf :
  newGlobal m !! n = Some g → local m !! n = Some lf →
  g = lf ∨ NewerThan g lf = true.
Proof.
  rewrite newGlobal_visits. intros Hg Hlf.
  destruct (foldl_offer_seed (remote_visits (remote m)) _ _ _ Hlf) as (f&Hf&?).
  rewrite Hg in Hf. by injection Hf as <-.
Qed.

Lemma newGlobal_is_Some m n :
  is_Some (newGlobal m !! n) ↔ ∃ c, candidate m n c.
Proof.
  rewrite newGlobal_visits, foldl_offer_is_Some. unfold candidate. split.
  - intros [[c Hc]|Hn]; [exists c; by left|].
    apply list_elem_of_fmap in Hn as ([k c]&->&Hc).
    exists c. right. by apply elem_of_remote_visits.
  - intros (c&[Hc|Hc]); [left; eauto|].
    right. apply list_elem_of_fmap. exists (n, c). split; [done|].
    by apply elem_of_remote_visits.
Qed.

Lemma globalUpdated_false m ng :
  globalUpdated m ng = false →
  size ng = size (global m) ∧
  ∀ n f0, ng !! n = Some f0 →
          ∃ f1, global m !! n = Some f1 ∧ Equals f0 f1 = true.
Proof.
  unfold globalUpdated.
  destruct (size ng =? size (global m))%nat eqn:Hsz; [|done]. cbn [negb].
  intros Hex. split; [by apply Nat.eqb_eq|].
  intros n f0 Hn%elem_of_range_of.
  rewrite <- not_true_iff_false, existsb_exists in Hex.
  destruct (global m !! n) as [f1|] eqn:Hg.
  - exists f1. split; [done|].
    destruct (Equals f0 f1) eqn:HE; [done|]. exfalso. apply Hex.
    exists (n, f0). split; [by apply list_elem_of_In|]. by rewrite Hg, HE.
  - exfalso. apply Hex.
    exists (n, f0). split; [by apply list_elem_of_In|]. by rewrite Hg.
Qed.

(** When nothing changed the old map is kept: it has the keys of the new
    one, with records of the same stamps. *)
Lemma globalUpdated_false_kept m ng n g :
  globalUpdated m ng = false → global m !! n = Some g →
  ∃ g', ng !! n = Some g' ∧ Equals g g' = true.
Proof.
  intros [Hsz Hall]%globalUpdated_false Hg.
  assert (dom ng = dom (global m)) as Hdom.
  { apply set_subseteq_size_eq.
    - intros k [f0 Hk]%elem_of_dom. destruct (Hall _ _ Hk) as (f1&Hf1&_).
      apply elem_of_dom. eauto.
    - rewrite !size_dom. lia. }
  assert (n ∈ dom ng) as [g' Hg']%elem_of_dom.
  { rewrite Hdom. apply elem_of_dom. eauto. }
  exists g'. split; [done|].
  destruct (Hall _ _ Hg') as (f1&Hf1&HE). rewrite Hg in Hf1.
  injection Hf1 as <-. stamps.
Qed.

Lemma global_recomputeGlobal now m :
  global (recomputeGlobal now m) =
  if globalUpdated m (newGlobal m) then newGlobal m else global m.
Proof.
  unfold recomputeGlobal. by destruct (globalUpdated m (newGlobal m)).
Qed.

Lemma local_recomputeGlobal now m : local (recomputeGlobal now m) = local m.
Proof.
  unfold recomputeGlobal. by destruct (globalUpdated m (newGlobal m)).
Qed.

Lemma remote_recomputeGlobal now m : remote (recomputeGlobal now m) = remote m.
Proof.
  unfold recomputeGlobal. by destruct (globalUpdated m (newGlobal m)).
Qed.

(** After recomputeGlobal the global map agrees with [newGlobal], by stamps
    always and record for record whenever the new map was published. *)
Lemma recomputeGlobal_agrees now m n g :
  global (recomputeGlobal now m) !! n = Some g →
  ∃ g', newGlobal m !! n = Some g' ∧ Equals g g' = true ∧
        (globalUpdated m (newGlobal m) = true → g = g').
Proof.
  rewrite global_recomputeGlobal.
  destruct (globalUpdated m (newGlobal m)) eqn:Hupd; intros Hg.
  - exists g. repeat split; [done|stamps].
  - destruct (globalUpdated_false_kept _ _ _ _ Hupd Hg) as (g'&Hg'&HE).
    exists g'. by repeat split.
Qed.

Lemma recomputeGlobal_is_Some now m n :
  is_Some (global (recomputeGlobal now m) !! n) ↔ ∃ c, candidate m n c.
Proof.
  rewrite <- newGlobal_is_Some, global_recomputeGlobal.
  destruct (globalUpdated m (newGlobal m)) eqn:Hupd; [done|]. split.
  - intros [g Hg].
    destruct (globalUpdated_false_kept _ _ _ _ Hupd Hg) as (g'&Hg'&_). eauto.
  - intros [g' Hg'].
    apply globalUpdated_false in Hupd as [_ Hall].
    destruct (Hall _ _ Hg') as (f1&Hf1&_). eauto.
Qed.

End global_facts.

(** ** recomputeNeed *)

Section need_facts.
Context {order : MapOrder}.

Lemma recomputeNeed_fold m :
  need (recomputeNeed m) =
  foldl (λ nd e, if wanted m e.1 e.2 then <[e.1 := true]> nd else nd)
        ∅ (range_of (global m)).
Proof.
  unfold recomputeNeed; cbn [need set_need].
  generalize (∅ : gmap string bool) as nd.
  induction (range_of (global m)) as [|[n gf] es IH]; intros nd;
    cbn [foldl]; [done|].
  rewrite <- IH. f_equal. unfold wanted; cbn [fst snd].
  destruct (local m !! n) as [lf|]; [destruct (NewerThan gf lf)|];
    destruct (has_flag (Flags gf) protocol.FlagInvalid);
    destruct (has_flag (Flags gf) protocol.FlagDeleted);
    destruct (delete_ m); try done.
Qed.

Lemma foldl_need_elem m es (nd : gmap string bool) n b :
  foldl (λ nd e, if wanted m e.1 e.2 then <[e.1 := true]> nd else nd) nd es
    !! n = Some b →
  nd !! n = Some b ∨ (b = true ∧ ∃ gf, (n, gf) ∈ es ∧ wanted m n gf = true).
Proof.
  revert nd. induction es as [|[k kf] es IH]; intros nd; cbn [foldl];
    [by left|].
  intros [Hnd|(->&gf&Hin&Hw)]%IH; [|right; split; [done|]; exists gf;
                                     split; [by right|done]].
  cbn [fst snd] in Hnd. destruct (wanted m k kf) eqn:Hw; [|by left].
  destruct (decide (k = n)) as [->|Hne].
  - rewrite lookup_insert_eq in Hnd. injection Hnd as <-.
    right. split; [done|]. exists kf. split; [by left|done].
  - rewrite lookup_insert_ne in Hnd by done. by left.
Qed.

Lemma foldl_need_stays m es (nd : gmap string bool) n :
  nd !! n = Some true →
  foldl (λ nd e, if wanted m e.1 e.2 then <[e.1 := true]> nd else nd) nd es
    !! n = Some true.
Proof.
  revert nd. induction es as [|[k kf] es IH]; intros nd Hnd; cbn [foldl];
    [done|].
  apply IH. cbn [fst snd]. destruct (wanted m k kf); [|done].
  destruct (decide (k = n)) as [->|Hne];
    by rewrite ?lookup_insert_eq, ?lookup_insert_ne.
Qed.

Lemma foldl_need_enters m es (nd : gmap string bool) n gf :
  (n, gf) ∈ es → wanted m n gf = true →
  foldl (λ nd e, if wanted m e.1 e.2 then <[e.1 := true]> nd else nd) nd es
    !! n = Some true.
Proof.
  revert nd. induction es as [|[k kf] es IH]; intros nd Hin Hw; cbn [foldl].
  - by apply elem_of_nil in Hin.
  - apply elem_of_cons in Hin as [Heq|Hin]; [|by apply IH].
    injection Heq as <- <-. apply foldl_need_stays. cbn [fst snd].
    by rewrite Hw, lookup_insert_eq.
Qed.

Lemma need_recomputeNeed m n b :
  need (recomputeNeed m) !! n = Some b ↔
  b = true ∧ ∃ gf, global m !! n = Some gf ∧ wanted m n gf = true.
Proof.
  rewrite recomputeNeed_fold. split.
  - intros [Hnd|(->&gf&Hin%elem_of_range_of&Hw)]%foldl_need_elem;
      [by rewrite lookup_empty in Hnd|eauto].
  - intros (->&gf&Hg%elem_of_range_of&Hw). by eapply foldl_need_enters.
Qed.

Lemma has_flag_false flags bit : has_flag flags bit = false ↔ Z.land flags bit = 0.
Proof. unfold has_flag. rewrite negb_false_iff. apply Z.eqb_eq. Qed.

Lemma wanted_spec m n gf :
  wanted m n gf = true ↔
  match local m !! n with
  | Some lf => NewerThan gf lf = true
  | None => True
  end ∧
  Z.land (Flags gf) protocol.FlagInvalid = 0 ∧
  (Z.land (Flags gf) protocol.FlagDeleted ≠ 0 →
   delete_ m = true ∧ is_Some (local m !! n)).
Proof.
  unfold wanted.
  rewrite !andb_true_iff, orb_true_iff, andb_true_iff, !negb_true_iff,
    !has_flag_false, bool_decide_eq_true.
  destruct (local m !! n) as [lf|]; split.
  - intros [[? ?] Hd]. repeat split; try done; destruct Hd as [?|[? ?]]; done.
  - intros (?&?&Hd). repeat split; try done.
    destruct (decide (Z.land (Flags gf) protocol.FlagDeleted = 0)); [by left|].
    right. by apply Hd.
  - intros [[? ?] Hd]. repeat split; try done; destruct Hd as [?|[? ?]]; done.
  - intros (?&?&Hd). repeat split; try done.
    destruct (decide (Z.land (Flags gf) protocol.FlagDeleted = 0)); [by left|].
    right. by apply Hd.
Qed.

Lemma global_recomputeNeed m : global (recomputeNeed m) = global m.
Proof. done. Qed.

Lemma local_recomputeNeed m : local (recomputeNeed m) = local m.
Proof. done. Qed.

End need_facts.

(** ** ReplaceLocal and markDeletedLocals *)

Section replace_facts.
Context {order : MapOrder}.

Lemma scanLocal_fst m fs acc :
  (foldl (scanOne m) acc fs).1 = foldl put acc.1 ((λ f, (Name f, f)) <$> fs).
Proof.
  revert acc. induction fs as [|f fs IH]; intros [nl u]; [done|].
  rewrite fmap_cons. cbn [foldl]. by rewrite IH.
Qed.

Lemma scanLocal_lookup_notin m fs n :
  n ∉ (Name <$> fs) → (scanLocal m fs).1 !! n = None.
Proof.
  intros Hn. unfold scanLocal. rewrite scanLocal_fst, foldl_put_notin.
  - apply lookup_empty.
  - by rewrite <- list_fmap_compose.
Qed.

Lemma scanLocal_is_Some m fs n :
  is_Some ((scanLocal m fs).1 !! n) ↔ n ∈ Name <$> fs.
Proof.
  unfold scanLocal. rewrite scanLocal_fst, foldl_put_is_Some.
  rewrite <- list_fmap_compose. cbn [fst]. rewrite lookup_empty.
  split; [intros [?|[? ?]]; done|by left].
Qed.

(** The flag of the first loop: some scanned record differs by stamps from
    what the local map gives for its name. *)
Lemma scanLocal_snd m fs acc :
  (foldl (scanOne m) acc fs).2 = true ↔
  acc.2 = true ∨ ∃ f, f ∈ fs ∧ Equals (file_at (local m) (Name f)) f = false.
Proof.
  revert acc. induction fs as [|f fs IH]; intros [nl u]; cbn [foldl snd].
  - split; [by left|]. intros [?|(?&?%elem_of_nil&_)]; done.
  - rewrite IH. cbn [scanOne snd].
    destruct (Equals (file_at (local m) (Name f)) f) eqn:HE; cbn [negb]; split.
    + intros [?|(g&?&?)]; [by left|right; exists g; split; [by right|done]].
    + intros [?|(g&[->|?]%elem_of_cons&?)]; [by left|congruence|right; eauto].
    + intros _. right. exists f. split; [by left|done].
    + intros _. by left.
Qed.

Lemma markOne_keeps m acc e n x :
  acc.1 !! n = Some x → (markOne m acc e).1 !! n = Some x.
Proof.
  destruct acc as [nl u], e as [k f]; cbn [fst markOne]. intros Hx.
  destruct (nl !! k) eqn:Hk; [done|].
  assert (k ≠ n) by congruence.
  destruct (negb _); [destruct (_ =? _)|]; cbn [fst];
    by rewrite ?lookup_insert_ne.
Qed.

Lemma markOne_other m acc k f n :
  k ≠ n → (markOne m acc (k, f)).1 !! n = acc.1 !! n.
Proof.
  destruct acc as [nl u]; cbn [fst markOne]. intros Hne.
  destruct (nl !! k); [done|].
  destruct (negb _); [destruct (_ =? _)|]; cbn [fst];
    by rewrite ?lookup_insert_ne.
Qed.

Lemma markOne_at m acc n f :
  acc.1 !! n = None →
  (markOne m acc (n, f)).1 !! n =
  if NewerThan (file_at (global m) n) f then None else Some (marked f).
Proof.
  destruct acc as [nl u]; cbn [fst markOne]. intros Hn. rewrite Hn.
  unfold marked.
  destruct (NewerThan _ f); cbn [negb fst]; [done|].
  destruct (_ =? _); cbn [fst]; by rewrite lookup_insert_eq.
Qed.

Lemma foldl_markOne_keeps m es acc n x :
  acc.1 !! n = Some x → (foldl (markOne m) acc es).1 !! n = Some x.
Proof.
  revert acc. induction es as [|e es IH]; intros acc Hx; cbn [foldl]; [done|].
  apply IH. by apply markOne_keeps.
Qed.

Lemma foldl_markOne_notin m es acc n :
  n ∉ es.*1 → (foldl (markOne m) acc es).1 !! n = acc.1 !! n.
Proof.
  revert acc. induction es as [|[k f] es IH]; intros acc Hn; cbn [foldl];
    [done|].
  rewrite fmap_cons in Hn. apply not_elem_of_cons in Hn as [Hne Hn].
  rewrite IH by done. by apply markOne_other.
Qed.

Lemma foldl_markOne_at m es acc n f :
  NoDup es.*1 → (n, f) ∈ es → acc.1 !! n = None →
  (foldl (markOne m) acc es).1 !! n =
  if NewerThan (file_at (global m) n) f then None else Some (marked f).
Proof.
  revert acc. induction es as [|[k kf] es IH]; intros acc Hnd Hin Hn;
    cbn [foldl].
  - by apply elem_of_nil in Hin.
  - rewrite fmap_cons in Hnd. apply NoDup_cons in Hnd as [Hk Hnd].
    apply elem_of_cons in Hin as [Heq|Hin].
    + injection Heq as <- <-. cbn [fst] in Hk.
      rewrite foldl_markOne_notin by done. by apply markOne_at.
    + apply IH; [done..|].
      rewrite markOne_other; [done|]. intros ->. apply Hk.
      apply list_elem_of_fmap. by exists (n, f).
Qed.

Lemma foldl_markOne_flag_stays m es acc :
  acc.2 = true → (foldl (markOne m) acc es).2 = true.
Proof.
  revert acc. induction es as [|[k kf] es IH]; intros [nl u] Hu; cbn [foldl];
    [done|].
  apply IH. cbn [snd] in Hu; subst u. cbn [markOne].
  destruct (nl !! k); [done|].
  by destruct (negb _); [destruct (_ =? _)|].
Qed.

(** The flag is raised as soon as an undeleted record is turned into a
    tombstone. *)
Lemma foldl_markOne_flag_raised m es acc n f :
  NoDup es.*1 → (n, f) ∈ es → acc.1 !! n = None →
  NewerThan (file_at (global m) n) f = false →
  Z.land (Flags f) protocol.FlagDeleted = 0 →
  (foldl (markOne m) acc es).2 = true.
Proof.
  revert acc. induction es as [|[k kf] es IH]; intros acc Hnd Hin Hn Hg Hd;
    cbn [foldl].
  - by apply elem_of_nil in Hin.
  - rewrite fmap_cons in Hnd. apply NoDup_cons in Hnd as [Hk Hnd].
    apply elem_of_cons in Hin as [Heq|Hin].
    + injection Heq as <- <-. apply foldl_markOne_flag_stays.
      destruct acc as [nl u]; cbn [fst] in Hn. cbn [markOne].
      rewrite Hn, Hg. cbn [negb]. by rewrite Hd.
    + apply IH; [done..| |done|done].
      rewrite markOne_other; [done|]. intros ->. apply Hk.
      apply list_elem_of_fmap. by exists (n, f).
Qed.

(** The flag stays down when every record that is carried over already
    has DELETED. *)
Lemma foldl_markOne_flag_down m es acc :
  acc.2 = false →
  (∀ n f, (n, f) ∈ es → acc.1 !! n = None →
          NewerThan (file_at (global m) n) f = false →
          Z.land (Flags f) protocol.FlagDeleted ≠ 0) →
  (foldl (markOne m) acc es).2 = false.
Proof.
  revert acc. induction es as [|[k kf] es IH]; intros acc Hu Hall;
    cbn [foldl]; [done|].
  apply IH.
  - destruct acc as [nl u]; cbn [snd fst] in *. subst u. cbn [markOne].
    destruct (nl !! k) eqn:Hk; [done|].
    destruct (NewerThan _ kf) eqn:Hg; cbn [negb]; [done|].
    destruct (_ =? _) eqn:Hd; [|done].
    apply Z.eqb_eq in Hd. exfalso. eapply (Hall k kf); [by left|done..].
  - intros n f Hin Hn. apply Hall; [by right|].
    destruct (acc.1 !! n) as [x|] eqn:Hx; [|done].
    by rewrite (markOne_keeps _ _ _ _ _ Hx) in Hn.
Qed.

Lemma local_touch_local tl tb m : local (touch_local tl tb m) = local m.
Proof. done. Qed.

Lemma local_ReplaceLocal tg tl tb fs m :
  local (ReplaceLocal tg tl tb fs m) =
  if (replaceLocal_plan m fs).2 then (replaceLocal_plan m fs).1 else local m.
Proof.
  unfold ReplaceLocal. destruct (replaceLocal_plan m fs) as [nl [|]]; [|done].
  cbn [fst snd].
  by rewrite local_touch_local, local_recomputeNeed, local_recomputeGlobal.
Qed.

Lemma replaceLocal_plan_fst m fs :
  (replaceLocal_plan m fs).1 = (markDeletedLocals m (scanLocal m fs).1).1.
Proof.
  unfold replaceLocal_plan. destruct (scanLocal m fs) as [nl u]. cbn [fst].
  by destruct (markDeletedLocals m nl) as [nl' d].
Qed.

Lemma replaceLocal_plan_snd m fs :
  (replaceLocal_plan m fs).2 =
  (scanLocal m fs).2 || (markDeletedLocals m (scanLocal m fs).1).2
  || negb (size (replaceLocal_plan m fs).1 =? size (local m))%nat.
Proof.
  rewrite replaceLocal_plan_fst.
  unfold replaceLocal_plan. destruct (scanLocal m fs) as [nl u]. cbn [fst snd].
  destruct (markDeletedLocals m nl) as [nl' d]. cbn [fst snd].
  by destruct d, u, (negb _).
Qed.

(** What the new local map holds for a name the scan did not report. *)
Lemma replaceLocal_plan_vanished m fs n f :
  local m !! n = Some f → n ∉ (Name <$> fs) →
  (replaceLocal_plan m fs).1 !! n =
  if NewerThan (file_at (global m) n) f then None else Some (marked f).
Proof.
  intros Hf Hn. rewrite replaceLocal_plan_fst. unfold markDeletedLocals.
  apply foldl_markOne_at.
  - apply NoDup_fst_range_of.
  - by apply elem_of_range_of.
  - by apply scanLocal_lookup_notin.
Qed.

Lemma replaceLocal_plan_tombstoned m fs n f :
  local m !! n = Some f → n ∉ (Name <$> fs) →
  NewerThan (file_at (global m) n) f = false →
  Z.land (Flags f) protocol.FlagDeleted = 0 →
  (replaceLocal_plan m fs).2 = true.
Proof.
  intros Hf Hn Hg Hd. rewrite replaceLocal_plan_snd.
  assert ((markDeletedLocals m (scanLocal m fs).1).2 = true) as ->;
    [|by rewrite orb_true_r].
  unfold markDeletedLocals.
  apply (foldl_markOne_flag_raised m _ _ n f); try done.
  - apply NoDup_fst_range_of.
  - by apply elem_of_range_of.
  - by apply scanLocal_lookup_notin.
Qed.

(** Every name of the new local map comes from the scan or from the old
    local map. *)
Lemma replaceLocal_plan_is_Some m fs n :
  is_Some ((replaceLocal_plan m fs).1 !! n) →
  n ∈ (Name <$> fs) ∨ is_Some (local m !! n).
Proof.
  rewrite replaceLocal_plan_fst. unfold markDeletedLocals. intros Hn.
  destruct (decide (n ∈ (Name <$> fs))) as [?|Hfs]; [by left|right].
  destruct (local m !! n) as [f|] eqn:Hf; [eauto|].
  rewrite foldl_markOne_notin in Hn.
  - cbn [fst] in Hn. rewrite scanLocal_lookup_notin in Hn by done.
    by destruct Hn.
  - intros ([k f]&->&Hin%elem_of_range_of)%list_elem_of_fmap.
    cbn [fst] in Hf. congruence.
Qed.

(** A name that is dropped makes the call replace the local map, unless
    the scan brings a record that the zero File Equals under a name new to
    the local map. *)
Lemma replaceLocal_plan_dropped m fs n f :
  local m !! n = Some f → n ∉ (Name <$> fs) →
  NewerThan (file_at (global m) n) f = true →
  (∀ g, g ∈ fs → local m !! Name g = None → Equals File_zero g = false) →
  (replaceLocal_plan m fs).2 = true.
Proof.
  intros Hf Hn Hg Hnew.
  destruct (replaceLocal_plan m fs).2 eqn:Hupd; [done|exfalso].
  rewrite replaceLocal_plan_snd in Hupd.
  apply orb_false_elim in Hupd as [[Hscan _]%orb_false_elim Hsize].
  apply negb_false_iff, Nat.eqb_eq in Hsize.
  assert (∀ g, g ∈ fs → is_Some (local m !! Name g)) as Hold.
  { intros g Hgfs. destruct (local m !! Name g) as [x|] eqn:Hx; [eauto|].
    apply not_true_iff_false in Hscan. exfalso. apply Hscan.
    unfold scanLocal. apply scanLocal_snd. right. exists g. split; [done|].
    unfold file_at. rewrite Hx. by apply Hnew. }
  assert (dom (replaceLocal_plan m fs).1 ⊂ dom (local m)) as Hsub.
  { split.
    - intros k [Hk|Hk]%elem_of_dom%replaceLocal_plan_is_Some.
      + apply list_elem_of_fmap in Hk as (g&->&Hgfs).
        apply elem_of_dom. by apply Hold.
      + by apply elem_of_dom.
    - intros Hall. assert (n ∈ dom (replaceLocal_plan m fs).1) as Hin.
      { apply Hall, elem_of_dom. eauto. }
      apply elem_of_dom in Hin as [x Hx].
      rewrite (replaceLocal_plan_vanished m fs n f Hf Hn), Hg in Hx. done. }
  apply subset_size in Hsub. rewrite !size_dom in Hsub. lia.
Qed.

End replace_facts.

(** ** A second scan with the same list *)

Section rescan_facts.
Context {order : MapOrder}.

Lemma recomputeGlobal_covers now m : global_covers (recomputeGlobal now m).
Proof.
  intros n c Hc.
  assert (candidate m n c) as Hc'.
  { unfold candidate in *.
    by rewrite local_recomputeGlobal, remote_recomputeGlobal in Hc. }
  destruct (proj2 (recomputeGlobal_is_Some now m n)) as [g Hg]; [eauto|].
  exists g. split; [done|].
  destruct (recomputeGlobal_agrees _ _ _ _ Hg) as (g'&Hg'&HE&_).
  apply newGlobal_newest in Hg' as [_ Hmax].
  rewrite (NewerThan_Equals_r _ _ _ HE). by apply Hmax.
Qed.

Lemma updateLocal_covers tg tl tb f m :
  local m !! Name f = None → global_covers (updateLocal tg tl tb f m).
Proof.
  intros Hf. unfold updateLocal. rewrite Hf.
  exact (recomputeGlobal_covers tg _).
Qed.

Lemma marked_deleted f : Z.land (Flags (marked f)) protocol.FlagDeleted ≠ 0.
Proof.
  unfold marked.
  destruct (Z.land (Flags f) protocol.FlagDeleted =? 0) eqn:Hd.
  - done.
  - by apply Z.eqb_neq.
Qed.

Lemma marked_of_deleted f :
  Z.land (Flags f) protocol.FlagDeleted ≠ 0 → marked f = f.
Proof. intros Hd%Z.eqb_neq. unfold marked. by rewrite Hd. Qed.

(** Short of a wrap of the version counter, marking does not make a record
    older. *)
Lemma marked_not_older f c :
  Version f < 2 ^ 32 - 1 →
  NewerThan c f = false → NewerThan c (marked f) = false.
Proof.
  intros Hv Hc. unfold marked.
  destruct (Z.land (Flags f) protocol.FlagDeleted =? 0); [|done].
  apply NewerThan_false in Hc. apply NewerThan_false.
  cbn [tombstone Modified Version]. unfold wrap_u32.
  destruct (decide (0 <= Version f + 1)).
  - rewrite Z.mod_small by lia. lia.
  - pose proof (Z.mod_pos_bound (Version f + 1) (2 ^ 32)). lia.
Qed.

Lemma scanLocal_lookup_NoDup m fs f :
  NoDup (Name <$> fs) → f ∈ fs → (scanLocal m fs).1 !! Name f = Some f.
Proof.
  intros Hnd Hf. unfold scanLocal. rewrite scanLocal_fst.
  apply foldl_put_NoDup.
  - by rewrite <- list_fmap_compose.
  - apply list_elem_of_fmap. eauto.
Qed.

Lemma replaceLocal_plan_scanned m fs f :
  NoDup (Name <$> fs) → f ∈ fs →
  (replaceLocal_plan m fs).1 !! Name f = Some f.
Proof.
  intros Hnd Hf. rewrite replaceLocal_plan_fst. unfold markDeletedLocals.
  apply foldl_markOne_keeps. by apply scanLocal_lookup_NoDup.
Qed.

Lemma replaceLocal_plan_absent m fs n :
  local m !! n = None → n ∉ (Name <$> fs) →
  (replaceLocal_plan m fs).1 !! n = None.
Proof.
  intros Hl Hn. rewrite replaceLocal_plan_fst. unfold markDeletedLocals.
  rewrite foldl_markOne_notin; [by apply scanLocal_lookup_notin|].
  intros ([k f]&->&Hin%elem_of_range_of)%list_elem_of_fmap.
  cbn [fst] in Hl. congruence.
Qed.

Lemma ReplaceLocal_not_updated tg tl tb fs m :
  (replaceLocal_plan m fs).2 = false → ReplaceLocal tg tl tb fs m = m.
Proof.
  unfold ReplaceLocal. destruct (replaceLocal_plan m fs) as [nl u].
  cbn [fst snd]. by intros ->.
Qed.

Lemma ReplaceLocal_updated tg tl tb fs m :
  (replaceLocal_plan m fs).2 = true →
  ReplaceLocal tg tl tb fs m =
  touch_local tl tb
    (recomputeNeed
       (recomputeGlobal tg (set_local (replaceLocal_plan m fs).1 m))).
Proof.
  unfold ReplaceLocal. destruct (replaceLocal_plan m fs) as [nl u].
  cbn [fst snd]. by intros ->.
Qed.

(** A scan is quiet when it reports the records the local map already has
    under their names and every other local record is a tombstone that the
    global record is not NewerThan. *)
Lemma rescan_quiet m fs :
  NoDup (Name <$> fs) →
  (∀ f, f ∈ fs → local m !! Name f = Some f) →
  (∀ n r, local m !! n = Some r → n ∉ (Name <$> fs) →
          Z.land (Flags r) protocol.FlagDeleted ≠ 0 ∧
          NewerThan (file_at (global m) n) r = false) →
  (replaceLocal_plan m fs).2 = false.
Proof.
  intros Hnd Hfs Hkept.
  assert ((replaceLocal_plan m fs).1 = local m) as Hsame.
  { apply map_eq; intros n.
    destruct (decide (n ∈ (Name <$> fs))) as [Hin|Hn].
    - apply list_elem_of_fmap in Hin as (f&->&Hf).
      by rewrite replaceLocal_plan_scanned, Hfs.
    - destruct (local m !! n) as [r|] eqn:Hr.
      + destruct (Hkept n r Hr Hn) as [Hd Hg].
        rewrite (replaceLocal_plan_vanished m fs n r) by done.
        by rewrite Hg, marked_of_deleted.
      + by apply replaceLocal_plan_absent. }
  rewrite replaceLocal_plan_snd, Hsame, Nat.eqb_refl.
  cbn [negb]. rewrite orb_false_r. apply orb_false_intro.
  - apply not_true_iff_false. unfold scanLocal. rewrite scanLocal_snd.
    intros [?|(f&Hf&HE)]; [done|].
    unfold file_at in HE. rewrite (Hfs f Hf) in HE. cbn [default] in HE.
    apply not_true_iff_false in HE. apply HE. unfold id. stamps.
  - unfold markDeletedLocals. apply foldl_markOne_flag_down; [done|].
    intros n r Hr%elem_of_range_of Hscan _. cbn [fst] in Hscan.
    apply (Hkept n r Hr).
    intros Hin. apply (scanLocal_is_Some m) in Hin. rewrite Hscan in Hin.
    by destruct Hin.
Qed.

(** The state an updating scan leaves behind meets the conditions of
    [rescan_quiet], provided the global map covered the candidates, the
    names of the list are pairwise distinct and no version counter is about
    to wrap. *)
Lemma ReplaceLocal_settles tg tl tb fs m :
  global_covers m →
  NoDup (Name <$> fs) →
  (∀ n r, local m !! n = Some r → Version r < 2 ^ 32 - 1) →
  (replaceLocal_plan m fs).2 = true →
  (∀ f, f ∈ fs → local (ReplaceLocal tg tl tb fs m) !! Name f = Some f) ∧
  (∀ n r, local (ReplaceLocal tg tl tb fs m) !! n = Some r →
          n ∉ (Name <$> fs) →
          Z.land (Flags r) protocol.FlagDeleted ≠ 0 ∧
          NewerThan (file_at (global (ReplaceLocal tg tl tb fs m)) n) r = false).
Proof.
  intros Hcov Hnd Hver Hupd.
  rewrite local_ReplaceLocal, Hupd.
  rewrite (ReplaceLocal_updated _ _ _ _ _ Hupd).
  set (pre := set_local (replaceLocal_plan m fs).1 m).
  change (global (touch_local tl tb (recomputeNeed (recomputeGlobal tg pre))))
    with (global (recomputeGlobal tg pre)).
  split; [intros f Hf; by apply replaceLocal_plan_scanned|].
  intros n r Hr Hn.
  destruct (local m !! n) as [fo|] eqn:Hfo;
    [|by rewrite (replaceLocal_plan_absent m fs n Hfo Hn) in Hr].
  pose proof (replaceLocal_plan_vanished m fs n fo Hfo Hn) as Hplan.
  rewrite Hplan in Hr.
  destruct (NewerThan (file_at (global m) n) fo) eqn:Hg; [done|].
  injection Hr as <-. split; [apply marked_deleted|].
  assert (newGlobal pre !! n = Some (marked fo)) as Hng.
  { apply newGlobal_local_wins; [done|].
    intros p ps c Hp Hc. apply marked_not_older; [by eapply Hver|].
    destruct (Hcov n c) as (g&Hgn&Hcg); [right; eauto|].
    unfold file_at in Hg. rewrite Hgn in Hg. cbn [default] in Hg.
    by eapply not_newer_trans. }
  assert (is_Some (global (recomputeGlobal tg pre) !! n)) as [g Hgn].
  { apply recomputeGlobal_is_Some. exists (marked fo). by left. }
  destruct (recomputeGlobal_agrees _ _ _ _ Hgn) as (g'&Hg'&HE&_).
  rewrite Hng in Hg'. injection Hg' as <-.
  unfold file_at. rewrite Hgn. cbn [default].
  rewrite (NewerThan_Equals_l _ _ _ HE). apply NewerThan_irrefl.
Qed.

(** What markDeletedLocals leaves in the map, name by name. *)
Lemma markDeletedLocals_lookup m nl n :
  (markDeletedLocals m nl).1 !! n =
  match nl !! n with
  | Some x => Some x
  | None =>
      match local m !! n with
      | Some f =>
          if NewerThan (file_at (global m) n) f then None
          else Some (marked f)
      | None => None
      end
  end.
Proof.
  unfold markDeletedLocals.
  destruct (nl !! n) as [x|] eqn:Hx; [by apply foldl_markOne_keeps|].
  destruct (local m !! n) as [f|] eqn:Hf.
  - apply foldl_markOne_at; [apply NoDup_fst_range_of| |done].
    by apply elem_of_range_of.
  - rewrite foldl_markOne_notin; [done|].
    intros ([k f]&->&Hin%elem_of_range_of)%list_elem_of_fmap.
    cbn [fst] in Hf. congruence.
Qed.

End rescan_facts.

(** ** Independence of the iteration order

    The plan of a scan, map and flag, is the same in whatever order
    markDeletedLocals visits the old local map. *)

Lemma markDeletedLocals_fst_order (order1 order2 : MapOrder) m nl :
  (markDeletedLocals (order := order1) m nl).1 =
  (markDeletedLocals (order := order2) m nl).1.
Proof. apply map_eq; intros n. by rewrite !markDeletedLocals_lookup. Qed.

Lemma markDeletedLocals_flag_order (order1 order2 : MapOrder) m nl :
  (markDeletedLocals (order := order1) m nl).2 = false →
  (markDeletedLocals (order := order2) m nl).2 = false.
Proof.
  unfold markDeletedLocals. intros Hdown.
  apply foldl_markOne_flag_down; [done|].
  intros n f Hin%(elem_of_range_of (order := order2)) Hn Hg Hd.
  cbn [fst] in Hn. apply not_true_iff_false in Hdown. apply Hdown.
  apply (foldl_markOne_flag_raised m _ _ n f); try done.
  - apply NoDup_fst_range_of.
  - by apply elem_of_range_of.
Qed.

Lemma replaceLocal_plan_order (order1 order2 : MapOrder) m fs :
  (replaceLocal_plan (order := order1) m fs).2 = false →
  (replaceLocal_plan (order := order2) m fs).2 = false.
Proof.
  rewrite !replaceLocal_plan_snd, !replaceLocal_plan_fst.
  rewrite <- (markDeletedLocals_fst_order order1 order2).
  intros [[Hscan Hmark]%orb_false_elim Hsize]%orb_false_elim.
  rewrite Hscan, Hsize.
  by rewrite (markDeletedLocals_flag_order order1 order2 _ _ Hmark).
Qed.

(** Scanning the same list again changes nothing; each call may visit its
    maps in an order of its own. *)
Lemma ReplaceLocal_idempotent (order1 order2 : MapOrder)
    tg tl tb tg' tl' tb' fs m :
  global_covers m →
  NoDup (Name <$> fs) →
  (∀ n r, local m !! n = Some r → Version r < 2 ^ 32 - 1) →
  ReplaceLocal (order := order2) tg' tl' tb' fs
    (ReplaceLocal (order := order1) tg tl tb fs m) =
  ReplaceLocal (order := order1) tg tl tb fs m.
Proof.
  intros Hcov Hnd Hver.
  apply (ReplaceLocal_not_updated (order := order2)).
  destruct (replaceLocal_plan (order := order1) m fs).2 eqn:Hupd.
  - destruct (ReplaceLocal_settles (order := order1) tg tl tb fs m
                Hcov Hnd Hver Hupd) as [Hfs Hkept].
    by apply (rescan_quiet (order := order2)).
  - rewrite (ReplaceLocal_not_updated (order := order1) _ _ _ _ m Hupd).
    by apply (replaceLocal_plan_order order1 order2).
Qed.

(** ** Main theorems: recomputation *)

(** C1, as the code has it: after recomputeGlobal every record of
    the global map has the stamps (modified, version) of the record [g'] that
    the recomputation selects for its name, and [g'] is a NewerThan-maximum
    of the local and remote records of that name; when the recomputation
    publishes its map the global record is [g'] itself.  [g'] is the local
    record whenever no remote record is NewerThan it, and differs from the
    local record only by being NewerThan it. *)
Theorem recomputeGlobal_newest {order : MapOrder} now m n g :
  global (recomputeGlobal now m) !! n = Some g →
  ∃ g', newGlobal m !! n = Some g' ∧
        newest_of m n g' ∧
        Equals g g' = true ∧
        (globalUpdated m (newGlobal m) = true → g = g') ∧
        (∀ lf, local m !! n = Some lf →
               (∀ p fs c, remote m !! p = Some fs → fs !! n = Some c →
                          NewerThan c lf = false) →
               g' = lf) ∧
        (∀ lf, local m !! n = Some lf → g' = lf ∨ NewerThan g' lf = true).
Proof.
  intros Hg. destruct (recomputeGlobal_agrees _ _ _ _ Hg) as (g'&Hg'&HE&Hpub).
  exists g'. repeat split; try done.
  - by apply newGlobal_newest in Hg' as [? _].
  - by apply newGlobal_newest in Hg' as [_ ?].
  - intros lf Hlf Hall.
    rewrite (newGlobal_local_wins _ _ _ Hlf Hall) in Hg'. by injection Hg'.
  - intros lf Hlf. by eapply newGlobal_only_newer.
Qed.

Lemma recomputeGlobal_newest_witness :
  ∃ g', newGlobal (order := listed_order) stale_state !! "a" = Some g' ∧
        newest_of stale_state "a" g' ∧
        Equals (fileFromFileInfo peer_a) g' = true ∧
        (globalUpdated (order := listed_order) stale_state
           (newGlobal (order := listed_order) stale_state) = true →
         fileFromFileInfo peer_a = g') ∧
        (∀ lf, local stale_state !! "a" = Some lf →
               (∀ p fs c, remote stale_state !! p = Some fs →
                          fs !! "a" = Some c → NewerThan c lf = false) →
               g' = lf) ∧
        (∀ lf, local stale_state !! "a" = Some lf →
               g' = lf ∨ NewerThan g' lf = true).
Proof.
  apply (recomputeGlobal_newest (order := listed_order) clock2 stale_state "a"
           (fileFromFileInfo peer_a)).
  vm_compute. reflexivity.
Defined.

(** C1 fails as stated: peer "42" announces "a", then the first local scan
    finds "a" with the same stamps.  The local map holds "a", the only remote
    record is not NewerThan it, and yet recomputeGlobal leaves the peer's
    record in the global map, because the freshly built map does not differ
    from the old one by size or by Equals. *)
Lemma recomputeGlobal_keeps_stale_record :
  let m' := recomputeGlobal (order := listed_order) clock2 stale_state in
  local m' !! "a" = Some disk_a ∧
  remote m' = {[ "42" := {[ "a" := fileFromFileInfo peer_a ]} ]} ∧
  NewerThan (fileFromFileInfo peer_a) disk_a = false ∧
  global m' !! "a" = Some (fileFromFileInfo peer_a) ∧
  fileFromFileInfo peer_a ≠ disk_a.
Proof. vm_compute. repeat split; discriminate. Qed.

(** C2: after recomputeNeed a name is in the need set exactly when its
    global record is NewerThan the local record (or there is no local
    record), does not carry INVALID, and, if it carries DELETED, deletion is
    enabled and the name is present in local; the need map only ever holds
    [true]. *)
Theorem recomputeNeed_sound {order : MapOrder} (m : Model) (n : string) :
  (∀ b, need (recomputeNeed m) !! n = Some b → b = true) ∧
  (is_Some (need (recomputeNeed m) !! n) ↔
   ∃ gf, global (recomputeNeed m) !! n = Some gf ∧
         match local (recomputeNeed m) !! n with
         | Some lf => NewerThan gf lf = true
         | None => True
         end ∧
         Z.land (Flags gf) protocol.FlagInvalid = 0 ∧
         (Z.land (Flags gf) protocol.FlagDeleted ≠ 0 →
          delete_ (recomputeNeed m) = true ∧
          is_Some (local (recomputeNeed m) !! n))).
Proof.
  rewrite global_recomputeNeed, local_recomputeNeed.
  change (delete_ (recomputeNeed m)) with (delete_ m). split.
  - by intros b [-> _]%need_recomputeNeed.
  - split.
    + intros [b (_&gf&Hg&Hw)%need_recomputeNeed].
      exists gf. split; [done|]. by apply wanted_spec.
    + intros (gf&Hg&Hw). exists true. apply need_recomputeNeed.
      split; [done|]. exists gf. split; [done|]. by apply wanted_spec.
Qed.

(** ** Main theorems: local scans *)

(** C3, as the code has it: when ReplaceLocal(fs) omits a name that the old
    local map holds and the global record is not NewerThan the old local
    record, the new local map holds for it a record with DELETED: the old
    record itself if it already carried DELETED (its version is not
    incremented again), otherwise the tombstone with flags DELETED, the
    version incremented (modulo 2^32), no blocks, and the old name and
    modification time.  When the global record is NewerThan the old local
    record, the name is absent, as long as no scanned record under a name
    new to the local map has both modification time 0 and version 0. *)
Theorem ReplaceLocal_vanished {order : MapOrder} tg tl tb fs m n f :
  local m !! n = Some f → n ∉ (Name <$> fs) →
  (NewerThan (file_at (global m) n) f = false →
   local (ReplaceLocal tg tl tb fs m) !! n =
   Some (if Z.land (Flags f) protocol.FlagDeleted =? 0
         then mkFile (Name f) protocol.FlagDeleted (Modified f)
                     ((Version f + 1) mod 2 ^ 32) []
         else f)) ∧
  (NewerThan (file_at (global m) n) f = true →
   (∀ g, g ∈ fs → local m !! Name g = None →
         Modified g ≠ 0 ∨ Version g ≠ 0) →
   local (ReplaceLocal tg tl tb fs m) !! n = None).
Proof.
  intros Hf Hn. rewrite local_ReplaceLocal.
  pose proof (replaceLocal_plan_vanished m fs n f Hf Hn) as Hplan.
  split.
  - intros Hg. rewrite Hg in Hplan. fold (wrap_u32 (Version f + 1)).
    fold (tombstone f). fold (marked f).
    destruct (replaceLocal_plan m fs).2 eqn:Hupd; [done|].
    rewrite Hf. f_equal. unfold marked.
    destruct (Z.land (Flags f) protocol.FlagDeleted =? 0) eqn:Hd; [|done].
    apply Z.eqb_eq in Hd.
    by rewrite (replaceLocal_plan_tombstoned m fs n f) in Hupd.
  - intros Hg Hnew.
    rewrite (replaceLocal_plan_dropped m fs n f Hf Hn Hg); [by rewrite Hg in Hplan|].
    intros g Hgfs Hgl. apply not_true_iff_false.
    intros [Hm Hv]%Equals_spec. cbn in Hm, Hv.
    destruct (Hnew g Hgfs Hgl); congruence.
Qed.

Lemma ReplaceLocal_vanished_witness :
  (NewerThan (file_at (global promoted_state) "b") disk_b = false →
   local (ReplaceLocal (order := listed_order) clock1 clock1 clock1 [disk_a]
            promoted_state) !! "b" =
   Some (if Z.land (Flags disk_b) protocol.FlagDeleted =? 0
         then mkFile (Name disk_b) protocol.FlagDeleted (Modified disk_b)
                     ((Version disk_b + 1) mod 2 ^ 32) []
         else disk_b)) ∧
  (NewerThan (file_at (global promoted_state) "b") disk_b = true →
   (∀ g, g ∈ [disk_a] → local promoted_state !! Name g = None →
         Modified g ≠ 0 ∨ Version g ≠ 0) →
   local (ReplaceLocal (order := listed_order) clock1 clock1 clock1 [disk_a]
            promoted_state) !! "b" = None).
Proof.
  apply (ReplaceLocal_vanished (order := listed_order) clock1 clock1 clock1
           [disk_a] promoted_state "b" disk_b).
  - vm_compute. reflexivity.
  - rewrite list_fmap_singleton, list_elem_of_singleton. discriminate.
Defined.

(** C3 fails as stated: in scenario 5 of the spec the second scan without
    "b" finds the tombstone of "b" (version 1) in the old local map, the
    global record is not NewerThan it, and the new local map holds the
    same tombstone, its version still 1 and not 1 + 1. *)
Lemma ReplaceLocal_keeps_old_tombstone :
  let m' :=
    ReplaceLocal (order := listed_order) clock2 clock2 clock2 [disk_a]
      tombstone_state in
  local tombstone_state !! "b" = Some tombstone_b ∧
  ("b" ∉ Name <$> [disk_a]) ∧
  NewerThan (file_at (global tombstone_state) "b") tombstone_b = false ∧
  local m' !! "b" = Some tombstone_b ∧
  Version tombstone_b = 1 ∧
  (Version <$> (local m' !! "b")) ≠ Some (Version tombstone_b + 1).
Proof.
  cbv zeta. repeat split.
  - rewrite list_fmap_singleton, list_elem_of_singleton. discriminate.
  - vm_compute. discriminate.
Qed.

(** C10: when the local map already holds a record for the name of [f]
    with the modification time and version of [f], updateLocal leaves the
    whole model as it is, whatever flags and blocks [f] carries. *)
Theorem updateLocal_same_stamps {order : MapOrder} tg tl tb (f ef : File) m :
  local m !! Name f = Some ef →
  Modified ef = Modified f → Version ef = Version f →
  updateLocal tg tl tb f m = m.
Proof.
  intros Hef Hm Hv. unfold updateLocal. rewrite Hef.
  assert (Equals ef f = true) as -> by stamps. done.
Qed.

Lemma updateLocal_same_stamps_witness :
  updateLocal (order := listed_order) clock1 clock1 clock1
    (fileFromFileInfo peer_a) stale_state = stale_state.
Proof.
  apply (updateLocal_same_stamps (order := listed_order) clock1 clock1 clock1
           (fileFromFileInfo peer_a) disk_a stale_state);
    vm_compute; reflexivity.
Defined.

(** ** Request *)

(** C4: Request answers ErrNoSuchFile and no data unless the name is a key
    of both the local and the global map, and ErrInvalid and no data when it
    is and the local record carries INVALID; the disk is not consulted. *)
Theorem Request_rejects disk (m : Model) (nodeID name : string)
    (offset size : Z) (hash : list Byte.byte) :
  (local m !! name = None ∨ global m !! name = None →
   Request disk m nodeID name offset size hash = (None, Some ErrNoSuchFile)) ∧
  (∀ lf, local m !! name = Some lf → is_Some (global m !! name) →
         Z.land (Flags lf) protocol.FlagInvalid ≠ 0 →
         Request disk m nodeID name offset size hash = (None, Some ErrInvalid)).
Proof.
  unfold Request. split.
  - intros [-> | ->]; [done|]. by destruct (local m !! name).
  - intros lf -> [gf ->] Hinv%Z.eqb_neq. by rewrite Hinv.
Qed.

(** A name that climbs out of the repository is in no index. *)
Example Request_escape :
  Request no_disk stale_state "42" "../escape" 0 6 [] =
  (None, Some ErrNoSuchFile).
Proof. reflexivity. Qed.

(** ** Conversions *)

Lemma fileInfo_blocks bs acc :
  foldl (λ blocks b, blocks ++ [protocol.mkBlockInfo (Length b) (Hash b)])
        acc bs =
  acc ++ ((λ b, protocol.mkBlockInfo (Length b) (Hash b)) <$> bs).
Proof.
  revert acc. induction bs as [|b bs IH]; intros acc; cbn [foldl].
  - by rewrite app_nil_r.
  - by rewrite IH, fmap_cons, <- app_assoc.
Qed.

Lemma file_blocks bs acc start :
  Forall (λ b, is_u64 (Offset b)) bs → is_u64 start ∨ bs = [] →
  prefix_offsets start bs →
  (foldl (λ '(blocks, offset) b,
            (blocks ++ [mkBlock offset (protocol.Length b) (protocol.Hash b)],
             wrap_u64 (offset + protocol.Length b)))
         (acc, start)
         ((λ b, protocol.mkBlockInfo (Length b) (Hash b)) <$> bs)).1
  = acc ++ bs.
Proof.
  revert acc start. induction bs as [|b bs IH]; intros acc start Hwf Hs Hp.
  - by rewrite app_nil_r.
  - rewrite fmap_cons. cbn [foldl protocol.Length protocol.Hash].
    destruct Hp as [Hb Hp]. apply Forall_cons in Hwf as [Hu Hwf].
    destruct bs as [|b' bs].
    + cbn [fmap list_fmap foldl fst]. destruct b; cbn in *. by subst.
    + assert (wrap_u64 (start + Length b) = start + Length b) as ->.
      { destruct Hp as [Hb' _]. apply Forall_cons in Hwf as [Hu' _].
        unfold wrap_u64, is_u64 in *. apply Z.mod_small. lia. }
      rewrite IH; try done.
      * rewrite <- app_assoc. destruct b; cbn in *. by subst.
      * left. destruct Hp as [Hb' _]. apply Forall_cons in Hwf as [Hu' _].
        by rewrite <- Hb'.
Qed.

(** C9: a File whose block offsets are the prefix sums of its block
    lengths comes back unchanged from the round trip through
    protocol.FileInfo (offsets are uint64 values). *)
Theorem fileFromFileInfo_fileInfoFromFile (f : File) :
  Forall (λ b, is_u64 (Offset b)) (Blocks f) →
  prefix_offsets 0 (Blocks f) →
  fileFromFileInfo (fileInfoFromFile f) = f.
Proof.
  intros Hwf Hp. unfold fileFromFileInfo, fileInfoFromFile.
  cbn [protocol.Blocks protocol.Name protocol.Flags protocol.Modified
       protocol.Version].
  rewrite fileInfo_blocks, app_nil_l.
  pose proof (file_blocks (Blocks f) [] 0 Hwf) as Hb.
  destruct (foldl _ _ _) as [blocks off]. cbn [fst] in Hb.
  rewrite Hb; [by destruct f|left; unfold is_u64; lia|done].
Qed.

Lemma fileFromFileInfo_fileInfoFromFile_witness :
  fileFromFileInfo (fileInfoFromFile two_blocks) = two_blocks.
Proof.
  apply (fileFromFileInfo_fileInfoFromFile two_blocks).
  - repeat constructor; cbn; lia.
  - cbn. repeat split; reflexivity.
Defined.

(** ** Change suppression *)

Lemma wrap_i64_small x : - 2 ^ 63 <= x < 2 ^ 63 → wrap_i64 x = x.
Proof. intros Hx. unfold wrap_i64. rewrite Z.mod_small; lia. Qed.

(** C6, as the code has it: as long as (count + 2) x 60 s fits a Duration
    (int64 nanoseconds), that is for -153722869 <= count <= 153722865, the
    decision is: admit when now - lastChange exceeds 600 s; else suppress
    when now - lastChange is less than (count + 2) x 60 s; else admit. *)
Theorem shouldSuppressChange_law (now lastChange : Instant) (count : Z) :
  minDuration <= (count + 2) * minFileHoldTimeS * time_Second <= maxDuration →
  shouldSuppressChange now lastChange count =
  if maxFileHoldTimeS * time_Second <? now - lastChange then false
  else if now - lastChange <? (count + 2) * minFileHoldTimeS * time_Second
       then true
       else false.
Proof.
  unfold minDuration, maxDuration, minFileHoldTimeS, maxFileHoldTimeS,
    time_Second. intros Hfit.
  unfold shouldSuppressChange, wrap_int, time_Since, time_Sub, minDuration,
    maxDuration, minFileHoldTimeS, maxFileHoldTimeS, time_Second.
  rewrite (wrap_i64_small (count + 2)) by lia.
  rewrite (wrap_i64_small ((count + 2) * 60)) by lia.
  rewrite (wrap_i64_small ((count + 2) * 60 * 1000000000)) by lia.
  repeat match goal with
         | |- context [?a <? ?b] => destruct (Z.ltb_spec a b)
         end; try reflexivity; lia.
Qed.

Lemma shouldSuppressChange_law_witness :
  shouldSuppressChange clock0 (clock0 - 179 * time_Second) 1 =
  if maxFileHoldTimeS * time_Second <? clock0 - (clock0 - 179 * time_Second)
  then false
  else if clock0 - (clock0 - 179 * time_Second)
          <? (1 + 2) * minFileHoldTimeS * time_Second
       then true
       else false.
Proof.
  apply (shouldSuppressChange_law clock0 (clock0 - 179 * time_Second) 1).
  vm_compute. split; discriminate.
Defined.

(** C6 fails as stated: one second after the last change, with a count of
    179999998, the law says suppress (1 s is below 600 s and below
    180000000 x 60 s), but the product of the hold time and time.Second
    wraps around to a negative Duration and the change is admitted. *)
Lemma shouldSuppressChange_overflow :
  let now := clock0 in
  let lastChange := clock0 - time_Second in
  let count := 179999998 in
  now - lastChange <= maxFileHoldTimeS * time_Second ∧
  now - lastChange < (count + 2) * minFileHoldTimeS * time_Second ∧
  shouldSuppressChange now lastChange count = false.
Proof. vm_compute. repeat split; discriminate. Qed.

(** ** Generation *)

(** C5 does not hold of the code: a scan and the promotion of a new file
    by updateLocal within one second of the clock change the local and the
    global map and leave Generation where it was. *)
Theorem Generation_same_second :
  let m1 :=
    ReplaceLocal (order := listed_order) clock0 clock0 clock0 [disk_a]
      (NewModel clock0 "repo") in
  let later := clock0 + 500000000 in
  let m2 := updateLocal (order := listed_order) later later later disk_b m1 in
  clock0 < later ∧
  local m2 !! "b" = Some disk_b ∧ local m1 !! "b" = None ∧
  global m2 !! "b" = Some disk_b ∧ global m1 !! "b" = None ∧
  lastIdxBcastRequest m1 < lastIdxBcastRequest m2 ∧
  Generation m2 = Generation m1.
Proof. vm_compute. repeat split; discriminate. Qed.

(** SeedLocal never stamps [updatedLocal]: seeding an older "a" under the
    index of a peer changes the local map and, however late the clock,
    not Generation. *)
Lemma Generation_SeedLocal :
  let m1 := Index (order := listed_order) clock0 "42" [peer_a']
              (NewModel clock0 "repo") in
  let m2 := SeedLocal (order := listed_order) clock2 [peer_a] m1 in
  local m1 !! "a" = None ∧
  local m2 !! "a" = Some (fileFromFileInfo peer_a) ∧
  Generation m2 = Generation m1.
Proof. vm_compute. repeat split; discriminate. Qed.

(** ** Index *)

Lemma storeIndex_put r fs :
  storeIndex r fs =
  foldl put r ((λ f, (protocol.Name f, fileFromFileInfo f)) <$> fs).
Proof.
  unfold storeIndex. revert r.
  induction fs as [|f fs IH]; intros r; [done|].
  rewrite fmap_cons. cbn [foldl]. by rewrite IH.
Qed.

Lemma storeIndex_elem r fs n v :
  storeIndex r fs !! n = Some v →
  (∃ f, f ∈ fs ∧ protocol.Name f = n ∧ v = fileFromFileInfo f) ∨
  r !! n = Some v.
Proof.
  rewrite storeIndex_put.
  intros [Hin|Hr]%foldl_put_elem; [left|by right].
  apply list_elem_of_fmap in Hin as (f&Heq&Hf). injection Heq as -> ->. eauto.
Qed.

Lemma storeIndex_is_Some r fs n :
  is_Some (storeIndex r fs !! n) ↔
  n ∈ (protocol.Name <$> fs) ∨ is_Some (r !! n).
Proof.
  by rewrite storeIndex_put, foldl_put_is_Some, <- list_fmap_compose.
Qed.

Lemma storeIndex_NoDup r fs f :
  NoDup (protocol.Name <$> fs) → f ∈ fs →
  storeIndex r fs !! protocol.Name f = Some (fileFromFileInfo f).
Proof.
  intros Hnd Hf. rewrite storeIndex_put. apply foldl_put_NoDup.
  - by rewrite <- list_fmap_compose.
  - apply list_elem_of_fmap. eauto.
Qed.

Lemma storeIndex_size fs :
  NoDup (protocol.Name <$> fs) →
  size (storeIndex ∅ fs) = length fs.
Proof.
  intros Hnd.
  assert (dom (storeIndex ∅ fs) = list_to_set (protocol.Name <$> fs)) as Hdom.
  { apply set_eq; intros n.
    rewrite elem_of_dom, storeIndex_is_Some, elem_of_list_to_set,
      lookup_empty.
    split; [intros [?|[? ?]]; done|by left]. }
  rewrite <- size_dom, Hdom, size_list_to_set by done.
  apply length_fmap.
Qed.

(** The older Index of package main stores the elements that pass its
    test, as the newer one stores all. *)
Lemma legacy_storeOne_put opts_Delete (r : gmap string File) fs :
  foldl (legacy.storeOne opts_Delete) r fs =
  foldl put r
    ((λ f, (protocol.Name f, legacy.fileFromFileInfo f)) <$>
     filter (λ f, legacy_kept opts_Delete f = true) fs).
Proof.
  revert r. induction fs as [|f fs IH]; intros r; [done|].
  cbn [foldl]. rewrite IH, filter_cons. unfold legacy.storeOne at 1.
  replace (negb (Z.land (protocol.Flags f) legacy.FlagDeleted =? 0)
           && negb opts_Delete)
    with (negb (legacy_kept opts_Delete f))
    by (unfold legacy_kept; by rewrite negb_orb).
  destruct (legacy_kept opts_Delete f) eqn:Hk; cbn [negb].
  - by rewrite decide_True by done.
  - by rewrite decide_False by done.
Qed.

Lemma legacy_remote_Index {order : MapOrder} opts_Delete now nodeID fs m :
  remote (legacy.Index opts_Delete now nodeID fs m) =
  <[nodeID := foldl (legacy.storeOne opts_Delete) ∅ fs]> (remote m).
Proof.
  unfold legacy.Index, legacy.recomputeNeed, legacy.recomputeGlobal.
  cbn [remote set_need]. cbv zeta.
  by destruct (if negb _ then true else existsb _ _).
Qed.

Lemma NoDup_fmap_filter {A B} (g : A → B) (P : A → Prop)
    `{∀ x, Decision (P x)} (l : list A) :
  NoDup (g <$> l) → NoDup (g <$> filter P l).
Proof.
  induction l as [|a l IH]; [done|].
  rewrite fmap_cons, NoDup_cons, filter_cons. intros [Hna Hnd].
  destruct (decide (P a)); [|by apply IH].
  rewrite fmap_cons. apply NoDup_cons. split; [|by apply IH].
  intros (x&Hx&[_ Hin]%list_elem_of_filter)%list_elem_of_fmap.
  apply Hna, list_elem_of_fmap. eauto.
Qed.

Lemma NoDup_fmap_elem_inj {A B} (g : A → B) (l : list A) x y :
  NoDup (g <$> l) → x ∈ l → y ∈ l → g x = g y → x = y.
Proof.
  induction l as [|a l IH]; intros Hnd Hx Hy Hg.
  - by apply elem_of_nil in Hx.
  - rewrite fmap_cons in Hnd. apply NoDup_cons in Hnd as [Hna Hnd].
    apply elem_of_cons in Hx as [->|Hx]; apply elem_of_cons in Hy as [->|Hy].
    + done.
    + exfalso. apply Hna, list_elem_of_fmap. eauto.
    + exfalso. apply Hna, list_elem_of_fmap. eauto.
    + by apply IH.
Qed.

(** C7, as the code has it.  Index of package model (src/unnamed/part_000):
    Index(peer, files) makes remote[peer] the map built from the list
    alone, every entry of which is the conversion of an element stored
    under its name, and every element's name gets an entry; the other
    remote indexes stay, and global and need are recomputed from the
    result.  When the names in the list are pairwise distinct the map has
    exactly one entry per element: that of each element is its own
    conversion and the map has as many entries as the list has elements.
    The older Index of package main (src/model.go) does the same with the
    elements it stores: all of them when deletion is enabled, those not
    flagged DELETED when it is not.  A name of which the list has only
    elements that are not stored gets no entry; when the names are
    pairwise distinct an element has its own conversion as entry if it is
    stored and no entry if it is not, and the map has as many entries as
    the list has stored elements. *)
Theorem Index_stores {order : MapOrder} now (nodeID : string)
    (fs : list protocol.FileInfo) (m : Model) :
  (∃ r,
    remote (Index now nodeID fs m) !! nodeID = Some r ∧
    (∀ q, q ≠ nodeID → remote (Index now nodeID fs m) !! q = remote m !! q) ∧
    Index now nodeID fs m =
      recomputeNeed
        (recomputeGlobal now (set_remote (<[nodeID := r]> (remote m)) m)) ∧
    (∀ n v, r !! n = Some v →
            ∃ f, f ∈ fs ∧ protocol.Name f = n ∧ v = fileFromFileInfo f) ∧
    (∀ f, f ∈ fs → is_Some (r !! protocol.Name f)) ∧
    (NoDup (protocol.Name <$> fs) →
     (∀ f, f ∈ fs → r !! protocol.Name f = Some (fileFromFileInfo f)) ∧
     size r = length fs)) ∧
  (∀ opts_Delete : bool, ∃ r,
    remote (legacy.Index opts_Delete now nodeID fs m) !! nodeID = Some r ∧
    (∀ q, q ≠ nodeID →
          remote (legacy.Index opts_Delete now nodeID fs m) !! q
          = remote m !! q) ∧
    legacy.Index opts_Delete now nodeID fs m =
      legacy.recomputeNeed
        (legacy.recomputeGlobal now
           (set_remote (<[nodeID := r]> (remote m)) m)) ∧
    (∀ n v, r !! n = Some v →
            ∃ f, f ∈ fs ∧ protocol.Name f = n ∧
                 legacy_kept opts_Delete f = true ∧
                 v = legacy.fileFromFileInfo f) ∧
    (∀ f, f ∈ fs → legacy_kept opts_Delete f = true →
          is_Some (r !! protocol.Name f)) ∧
    (∀ n, (∀ f, f ∈ fs → protocol.Name f = n →
                legacy_kept opts_Delete f = false) →
          r !! n = None) ∧
    (NoDup (protocol.Name <$> fs) →
     (∀ f, f ∈ fs →
           r !! protocol.Name f =
           if legacy_kept opts_Delete f
           then Some (legacy.fileFromFileInfo f) else None) ∧
     size r =
     length (filter (λ f, legacy_kept opts_Delete f = true) fs))).
Proof.
  split.
  - exists (storeIndex ∅ fs). unfold Index.
    change (remote (recomputeNeed ?x)) with (remote x).
    rewrite remote_recomputeGlobal. cbn [remote set_remote].
    repeat split.
    + by rewrite lookup_insert_eq.
    + intros q Hq. by rewrite lookup_insert_ne.
    + intros n v [Hf|Hr]%storeIndex_elem;
        [done|by rewrite lookup_empty in Hr].
    + intros f Hf. apply storeIndex_is_Some. left.
      apply list_elem_of_fmap. eauto.
    + intros f Hf. by apply storeIndex_NoDup.
    + by apply storeIndex_size.
  - intros opts_Delete.
    exists (foldl (legacy.storeOne opts_Delete) ∅ fs).
    rewrite legacy_remote_Index, legacy_storeOne_put.
    set (kept := filter (λ f, legacy_kept opts_Delete f = true) fs).
    assert (∀ n, n ∈ ((λ f, (protocol.Name f, legacy.fileFromFileInfo f))
                        <$> kept).*1 ↔
                 ∃ f, f ∈ fs ∧ protocol.Name f = n ∧
                      legacy_kept opts_Delete f = true) as Hnames.
    { intros n. rewrite <- list_fmap_compose, list_elem_of_fmap. split.
      - intros (f&->&[Hk Hf]%list_elem_of_filter). eauto.
      - intros (f&Hf&<-&Hk). exists f. split; [done|].
        by apply list_elem_of_filter. }
    split; [by rewrite lookup_insert_eq|].
    split; [intros q Hq; by rewrite lookup_insert_ne|].
    split; [unfold legacy.Index; by rewrite legacy_storeOne_put|].
    split; [|split; [|split]].
    + intros n v [Hin|Hr]%foldl_put_elem;
        [|by rewrite lookup_empty in Hr].
      apply list_elem_of_fmap in Hin
        as (f&[= -> ->]&[Hk Hf]%list_elem_of_filter). eauto.
    + intros f Hf Hk. apply foldl_put_is_Some. left. apply Hnames. eauto.
    + intros n Hnone. rewrite foldl_put_notin; [apply lookup_empty|].
      intros (f&Hf&Hn&Hk)%Hnames. rewrite (Hnone f Hf Hn) in Hk. done.
    + intros Hnd.
      assert (NoDup ((λ f, (protocol.Name f, legacy.fileFromFileInfo f))
                       <$> kept).*1) as Hndk.
      { rewrite <- list_fmap_compose. by apply NoDup_fmap_filter. }
      split.
      * intros f Hf. destruct (legacy_kept opts_Delete f) eqn:Hk.
        -- apply foldl_put_NoDup; [done|]. apply list_elem_of_fmap.
           exists f. split; [done|]. by apply list_elem_of_filter.
        -- rewrite foldl_put_notin; [apply lookup_empty|].
           intros (g&Hg&Hn&Hkg)%Hnames.
           rewrite (NoDup_fmap_elem_inj protocol.Name fs g f Hnd Hg Hf Hn)
             in Hkg. congruence.
      * assert (dom (foldl put (∅ : gmap string File)
                       ((λ f, (protocol.Name f, legacy.fileFromFileInfo f))
                          <$> kept)) =
                list_to_set
                  ((λ f, (protocol.Name f, legacy.fileFromFileInfo f))
                     <$> kept).*1) as Hdom.
        { apply set_eq; intros n.
          rewrite elem_of_dom, foldl_put_is_Some, elem_of_list_to_set,
            lookup_empty.
          split; [intros [?|[? ?]]; done|by left]. }
        rewrite <- size_dom, Hdom, size_list_to_set by done.
        by rewrite !length_fmap.
Qed.

(** C7 fails as stated: a list with two records named "a" leaves a single
    entry in remote["42"], that of the second. *)
Lemma Index_duplicate_name :
  remote (Index (order := listed_order) clock0 "42" [peer_a; peer_a']
            (NewModel clock0 "repo")) !! "42" =
  Some {[ "a" := fileFromFileInfo peer_a' ]} ∧
  length [peer_a; peer_a'] = 2%nat ∧
  size ({[ "a" := fileFromFileInfo peer_a' ]} : gmap string File) = 1%nat ∧
  fileFromFileInfo peer_a ≠ fileFromFileInfo peer_a'.
Proof. vm_compute. repeat split; discriminate. Qed.

(** The older Index of package main, with deletion disabled, omits an
    element although the names are pairwise distinct: of "a" and the
    tombstone of "b" only "a" enters remote["42"]. *)
Lemma legacy_Index_omits_deleted :
  remote (legacy.Index (order := listed_order) false clock0 "42"
            [peer_a; peer_b_deleted] (NewModel clock0 "repo")) !! "42" =
  Some {[ "a" := legacy.fileFromFileInfo peer_a ]} ∧
  protocol.Name <$> [peer_a; peer_b_deleted] = ["a"; "b"] ∧
  size ({[ "a" := legacy.fileFromFileInfo peer_a ]} : gmap string File)
  = 1%nat.
Proof. vm_compute. repeat split. Qed.

(** ** Scanning twice *)

(** C8, as the code has it: after updateLocal of a file new to the local
    map and ReplaceLocal(fs), a second ReplaceLocal(fs) with the same list
    leaves the whole model unchanged (local, global, need, updatedLocal and
    lastIdxBcastRequest included, so no tombstone version is incremented
    again), provided the names in fs are pairwise distinct and no local
    version counter stands at its maximum 2^32 - 1. *)
Theorem ReplaceLocal_again {order0 order1 order2 : MapOrder}
    tg0 tl0 tb0 tg1 tl1 tb1 tg2 tl2 tb2 (f : File) (fs : list File) (m : Model) :
  local m !! Name f = None →
  NoDup (Name <$> fs) →
  Version f < 2 ^ 32 - 1 →
  (∀ n r, local m !! n = Some r → Version r < 2 ^ 32 - 1) →
  ReplaceLocal (order := order2) tg2 tl2 tb2 fs
    (ReplaceLocal (order := order1) tg1 tl1 tb1 fs
       (updateLocal (order := order0) tg0 tl0 tb0 f m)) =
  ReplaceLocal (order := order1) tg1 tl1 tb1 fs
    (updateLocal (order := order0) tg0 tl0 tb0 f m).
Proof.
  intros Hnew Hnd Hvf Hvm. apply ReplaceLocal_idempotent; [|done|].
  - by apply (updateLocal_covers (order := order0)).
  - intros n r. unfold updateLocal. rewrite Hnew.
    rewrite local_touch_local, local_recomputeNeed, local_recomputeGlobal.
    cbn [local set_local]. destruct (decide (Name f = n)) as [<-|Hne].
    + rewrite lookup_insert_eq. by intros [= <-].
    + rewrite lookup_insert_ne by done. apply Hvm.
Qed.

Lemma ReplaceLocal_again_witness :
  ReplaceLocal (order := listed_order) clock2 clock2 clock2 [disk_a]
    (ReplaceLocal (order := reversed_order) clock1 clock1 clock1 [disk_a]
       (updateLocal (order := listed_order) clock0 clock0 clock0 disk_b
          scanned_state)) =
  ReplaceLocal (order := reversed_order) clock1 clock1 clock1 [disk_a]
    (updateLocal (order := listed_order) clock0 clock0 clock0 disk_b
       scanned_state).
Proof.
  apply (ReplaceLocal_again (order0 := listed_order)
           (order1 := reversed_order) (order2 := listed_order)
           clock0 clock0 clock0 clock1 clock1 clock1 clock2 clock2 clock2
           disk_b [disk_a] scanned_state).
  - vm_compute. reflexivity.
  - rewrite list_fmap_singleton. apply NoDup_singleton.
  - vm_compute. reflexivity.
  - assert (local scanned_state = {[ "a" := disk_a ]}) as ->
      by (vm_compute; reflexivity).
    intros n r [_ <-]%lookup_singleton_Some. vm_compute. reflexivity.
Defined.

(** C8 fails as stated: "b" is promoted by updateLocal and a scan that
    names "a" twice, with two modification times, tombstones it; the same
    scan again finds the first "a" differing from the stored one and stamps
    updatedLocal and lastIdxBcastRequest anew. *)
Lemma ReplaceLocal_again_duplicate_names :
  let m1 := updateLocal (order := listed_order) clock0 clock0 clock0 disk_b
              (NewModel clock0 "repo") in
  let m2 := ReplaceLocal (order := listed_order) clock1 clock1 clock1
              [disk_a; disk_a'] m1 in
  let m3 := ReplaceLocal (order := listed_order) clock2 clock2 clock2
              [disk_a; disk_a'] m2 in
  local (NewModel clock0 "repo") !! "b" = None ∧
  local m1 !! "b" = Some disk_b ∧
  local m2 !! "b" = Some tombstone_b ∧
  updatedLocal m2 = 1700000030 ∧ updatedLocal m3 = 1700000060 ∧
  lastIdxBcastRequest m2 = clock1 ∧ lastIdxBcastRequest m3 = clock2 ∧
  clock1 ≠ clock2.
Proof. vm_compute. repeat split; discriminate. Qed.

(** Why the version bound: with the counter of "b" at its maximum both
    locally and at a peer, the tombstone wraps around to version 0, the
    peer's record is NewerThan it, and the second scan drops the tombstone. *)
Lemma ReplaceLocal_again_version_wrap :
  let m1 := updateLocal (order := listed_order) clock0 clock0 clock0 disk_b_max
              (Index (order := listed_order) clock0 "42" [peer_b_max]
                 (NewModel clock0 "repo")) in
  let m2 := ReplaceLocal (order := listed_order) clock1 clock1 clock1 [] m1 in
  let m3 := ReplaceLocal (order := listed_order) clock2 clock2 clock2 [] m2 in
  local m1 !! "b" = Some disk_b_max ∧
  local m2 !! "b" = Some (mkFile "b" protocol.FlagDeleted 1650000000 0 []) ∧
  local m3 !! "b" = None.
Proof. vm_compute. repeat split. Qed.

(** A scan that loses "b" to a newer global record and finds a file last
    modified at the epoch is taken for no change at all: the zero File that
    the lookup of the new name yields Equals the new record, and the sizes
    agree.  (updateLocal tests the presence of the name.) *)
Lemma ReplaceLocal_epoch_file_ignored :
  let m1 := Index (order := listed_order) clock0 "42" [peer_b_newer]
              (ReplaceLocal (order := listed_order) clock0 clock0 clock0
                 [disk_b] (NewModel clock0 "repo")) in
  let m2 := ReplaceLocal (order := listed_order) clock1 clock1 clock1
              [disk_z] m1 in
  NewerThan (file_at (global m1) "b") disk_b = true ∧
  local m1 !! "b" = Some disk_b ∧
  m2 = m1.
Proof. vm_compute. repeat split. Qed.

(** ** The older Index of package main *)

Lemma legacy_store_skips (r : gmap string File) fs n :
  (∀ f, f ∈ fs → protocol.Name f = n →
        Z.land (protocol.Flags f) legacy.FlagDeleted ≠ 0) →
  foldl (legacy.storeOne false) r fs !! n = r !! n.
Proof.
  revert r. induction fs as [|f fs IH]; intros r Hdel; cbn [foldl]; [done|].
  rewrite IH by (intros g Hg; apply Hdel; by right).
  unfold legacy.storeOne. rewrite andb_true_r.
  destruct (Z.land (protocol.Flags f) legacy.FlagDeleted =? 0) eqn:Hd;
    cbn [negb]; [|done].
  apply Z.eqb_eq in Hd.
  destruct (decide (protocol.Name f = n)) as [Hn|Hn].
  - by destruct (Hdel f (list_elem_of_here _ _) Hn).
  - by rewrite lookup_insert_ne.
Qed.

(** The main-package Index, with deletion disabled, leaves out of
    remote[peer] every name that the list only has tombstones for. *)
Theorem legacy_Index_skips_deleted {order : MapOrder} now nodeID fs m n :
  (∀ f, f ∈ fs → protocol.Name f = n →
        Z.land (protocol.Flags f) legacy.FlagDeleted ≠ 0) →
  ∃ r, remote (legacy.Index false now nodeID fs m) !! nodeID = Some r ∧
       r !! n = None.
Proof.
  intros Hdel. exists (foldl (legacy.storeOne false) ∅ fs). split.
  - unfold legacy.Index, legacy.recomputeNeed, legacy.recomputeGlobal.
    cbn [remote set_need]. cbv zeta.
    destruct (if negb _ then true else existsb _ _);
      cbn [remote set_global set_remote]; by rewrite lookup_insert_eq.
  - by rewrite legacy_store_skips, lookup_empty.
Qed.

Lemma legacy_Index_skips_deleted_witness :
  ∃ r, remote (legacy.Index (order := listed_order) false clock0 "42"
                 [peer_a; peer_b_deleted] (NewModel clock0 "repo")) !! "42"
       = Some r ∧ r !! "b" = None.
Proof.
  apply (legacy_Index_skips_deleted (order := listed_order) clock0 "42"
           [peer_a; peer_b_deleted] (NewModel clock0 "repo") "b").
  intros f [->|[->|[]%elem_of_nil]%elem_of_cons]%elem_of_cons;
    vm_compute; [discriminate|intros _; discriminate].
Defined.

(** ** Further properties of the index store *)

Lemma file_blocks_regenerate bs acc start :
  (foldl (λ '(blocks, offset) b,
            (blocks ++ [mkBlock offset (protocol.Length b) (protocol.Hash b)],
             wrap_u64 (offset + protocol.Length b)))
         (acc, start)
         ((λ b, protocol.mkBlockInfo (Length b) (Hash b)) <$> bs)).1
  = acc ++ regenerate start bs.
Proof.
  revert acc start. induction bs as [|b bs IH]; intros acc start.
  - by rewrite app_nil_r.
  - rewrite fmap_cons. cbn [foldl protocol.Length protocol.Hash regenerate].
    by rewrite IH, <- app_assoc.
Qed.

(** The round trip of any File keeps name, flags, modification time,
    version and the length and hash of every block, and regenerates the
    offsets as the running sum of the lengths. *)
Theorem round_trip_regenerates (f : File) :
  fileFromFileInfo (fileInfoFromFile f) =
  mkFile (Name f) (Flags f) (Modified f) (Version f)
         (regenerate 0 (Blocks f)).
Proof.
  unfold fileFromFileInfo, fileInfoFromFile.
  cbn [protocol.Blocks protocol.Name protocol.Flags protocol.Modified
       protocol.Version].
  rewrite fileInfo_blocks, app_nil_l.
  pose proof (file_blocks_regenerate (Blocks f) [] 0) as Hb.
  destruct (foldl _ _ _) as [blocks off]. cbn [fst] in Hb. by rewrite Hb.
Qed.


(** The two comparators order the stamps: of two records exactly one is
    NewerThan the other, or they are Equals. *)
Theorem stamps_trichotomy (a b : File) :
  (NewerThan a b = true ∧ Equals a b = false ∧ NewerThan b a = false) ∨
  (NewerThan a b = false ∧ Equals a b = true ∧ NewerThan b a = false) ∨
  (NewerThan a b = false ∧ Equals a b = false ∧ NewerThan b a = true).
Proof.
  destruct (NewerThan a b) eqn:Hab, (Equals a b) eqn:HE,
    (NewerThan b a) eqn:Hba; try tauto; exfalso;
    rewrite <- ?not_true_iff_false in *; stamps;
    repeat match goal with
           | H : ¬ (Equals _ _ = true) |- _ => rewrite Equals_spec in H
           | H : ¬ (NewerThan _ _ = true) |- _ => rewrite NewerThan_spec in H
           end; lia.
Qed.

(** After recomputeGlobal the keys of the global map are the names that
    have a record in local or in some remote index. *)
Theorem recomputeGlobal_keys {order : MapOrder} now m n :
  is_Some (global (recomputeGlobal now m) !! n) ↔
  is_Some (local m !! n) ∨
  ∃ p fs, remote m !! p = Some fs ∧ is_Some (fs !! n).
Proof.
  rewrite recomputeGlobal_is_Some. unfold candidate. split.
  - intros (c&[Hc|(p&fs&Hp&Hc)]); [left; eauto|right; eauto].
  - intros [[c Hc]|(p&fs&Hp&[c Hc])]; exists c; [by left|right; eauto].
Qed.

(** After recomputeNeed every needed name is a key of the global map. *)
Theorem need_subset_global {order : MapOrder} m :
  dom (need (recomputeNeed m)) ⊆ dom (global (recomputeNeed m)).
Proof.
  intros n [b (_&gf&Hg&_)%need_recomputeNeed]%elem_of_dom.
  apply elem_of_dom. eauto.
Qed.

Lemma range_of_empty {order : MapOrder} {A} :
  range_of (∅ : gmap string A) = [].
Proof.
  apply Permutation_nil_r. rewrite (range_of_perm A ∅).
  by rewrite map_to_list_empty.
Qed.

(** SeedLocal leaves nothing to need when there are no remote indexes. *)
Theorem SeedLocal_no_need {order : MapOrder} now fs m :
  remote m = ∅ → need (SeedLocal now fs m) = ∅.
Proof.
  intros Hr. unfold SeedLocal. set (pre := set_local (storeIndex ∅ fs) m).
  apply map_empty; intros n.
  destruct (need (recomputeNeed (recomputeGlobal now pre)) !! n) as [b|] eqn:Hn;
    [exfalso|done].
  apply need_recomputeNeed in Hn as (_&gf&Hg&Hw).
  destruct (recomputeGlobal_agrees _ _ _ _ Hg) as (g'&Hg'&HE&_).
  assert (newGlobal pre = local pre) as Hng.
  { rewrite newGlobal_visits. unfold remote_visits, pre.
    cbn [remote set_local]. by rewrite Hr, range_of_empty. }
  rewrite Hng in Hg'. apply wanted_spec in Hw as (Hnew&_).
  rewrite local_recomputeGlobal, Hg' in Hnew. stamps.
Qed.

Lemma SeedLocal_no_need_witness :
  need (SeedLocal (order := listed_order) clock0 [peer_a; peer_b_deleted]
          (NewModel clock0 "repo")) = ∅.
Proof.
  apply (SeedLocal_no_need (order := listed_order) clock0
           [peer_a; peer_b_deleted] (NewModel clock0 "repo")).
  reflexivity.
Defined.

(** IndexUpdate for a peer without an index is a no-op. *)
Theorem IndexUpdate_unknown_peer {order : MapOrder} now nodeID fs m :
  remote m !! nodeID = None → IndexUpdate now nodeID fs m = m.
Proof. intros Hp. unfold IndexUpdate. by rewrite Hp. Qed.

Lemma IndexUpdate_unknown_peer_witness :
  IndexUpdate (order := listed_order) clock1 "43" [peer_a'] stale_state =
  stale_state.
Proof.
  apply (IndexUpdate_unknown_peer (order := listed_order) clock1 "43"
           [peer_a'] stale_state).
  vm_compute. reflexivity.
Defined.

(** Scenario 3 of the spec: the index of a peer brings a new name into
    need, and closing the peer takes it out again and leaves local as it
    was. *)
Example Index_then_Close :
  let m1 := Index (order := listed_order) clock1 "42" [peer_b_newer]
              scanned_state in
  let m2 := Close (order := listed_order) clock2 "42" m1 in
  need scanned_state = ∅ ∧
  need m1 = {[ "b" := true ]} ∧
  need m2 = ∅ ∧
  size (global m1) = S (size (global m2)) ∧
  local m2 = local scanned_state.
Proof. vm_compute. repeat split. Qed.

(** ** Invariant: records are stored under their names *)

Section keyed_facts.
Context {order : MapOrder}.

Lemma keyed_empty : keyed ∅.
Proof. intros n f Hf. by rewrite lookup_empty in Hf. Qed.

Lemma keyed_insert fm n f : keyed fm → Name f = n → keyed (<[n := f]> fm).
Proof.
  intros Hk Hn k g. destruct (decide (n = k)) as [<-|Hne].
  - rewrite lookup_insert_eq. by intros [= <-].
  - rewrite lookup_insert_ne by done. apply Hk.
Qed.

Lemma Name_fileFromFileInfo f : Name (fileFromFileInfo f) = protocol.Name f.
Proof. unfold fileFromFileInfo. by destruct (foldl _ _ _). Qed.

Lemma Modified_fileFromFileInfo f :
  Modified (fileFromFileInfo f) = protocol.Modified f.
Proof. unfold fileFromFileInfo. by destruct (foldl _ _ _). Qed.

Lemma Version_fileFromFileInfo f :
  Version (fileFromFileInfo f) = protocol.Version f.
Proof. unfold fileFromFileInfo. by destruct (foldl _ _ _). Qed.

Lemma Flags_fileFromFileInfo f :
  Flags (fileFromFileInfo f) = protocol.Flags f.
Proof. unfold fileFromFileInfo. by destruct (foldl _ _ _). Qed.

Lemma keyed_storeIndex r fs : keyed r → keyed (storeIndex r fs).
Proof.
  intros Hr n v [(f&_&<-&->)|Hv]%storeIndex_elem.
  - apply Name_fileFromFileInfo.
  - by apply Hr.
Qed.

Lemma keyed_newGlobal m :
  keyed (local m) → (∀ p fs, remote m !! p = Some fs → keyed fs) →
  keyed (newGlobal m).
Proof.
  intros Hl Hr n g [[Hc|(p&fs&Hp&Hc)] _]%newGlobal_newest.
  - by apply Hl.
  - by apply (Hr p fs).
Qed.

Lemma well_keyed_recompute now m :
  well_keyed m → well_keyed (recomputeNeed (recomputeGlobal now m)).
Proof.
  intros (Hl&Hg&Hr). unfold well_keyed.
  rewrite local_recomputeNeed, global_recomputeNeed.
  change (remote (recomputeNeed ?x)) with (remote x).
  rewrite local_recomputeGlobal, remote_recomputeGlobal,
    global_recomputeGlobal.
  repeat split; try done.
  destruct (globalUpdated m (newGlobal m)); [by apply keyed_newGlobal|done].
Qed.

Lemma Name_marked f : Name (marked f) = Name f.
Proof.
  unfold marked. by destruct (Z.land (Flags f) protocol.FlagDeleted =? 0).
Qed.

Lemma keyed_replaceLocal_plan m fs :
  keyed (local m) → keyed (replaceLocal_plan m fs).1.
Proof.
  intros Hl n f. rewrite replaceLocal_plan_fst, markDeletedLocals_lookup.
  destruct ((scanLocal m fs).1 !! n) as [x|] eqn:Hx.
  - intros [= <-]. unfold scanLocal in Hx. rewrite scanLocal_fst in Hx.
    apply foldl_put_elem in Hx as [Hx|Hx];
      [|cbn [fst] in Hx; by rewrite lookup_empty in Hx].
    apply list_elem_of_fmap in Hx as (g&[= -> ->]&_). done.
  - destruct (local m !! n) as [g|] eqn:Hg; [|done].
    destruct (NewerThan _ g); [done|]. intros [= <-].
    rewrite Name_marked. by apply Hl.
Qed.

(** Every public mutation keeps the records under their names. *)
Lemma mutate_well_keyed op m : well_keyed m → well_keyed (mutate op m).
Proof.
  intros Hwk. pose proof Hwk as (Hl&Hg&Hr).
  destruct op as [now p fs|now p fs|now p|tg tl tb fs|now fs|tg tl tb f|p];
    cbn [mutate].
  - apply well_keyed_recompute. repeat split; try done.
    intros q gs. cbn [remote set_remote].
    destruct (decide (p = q)) as [<-|Hne].
    + rewrite lookup_insert_eq. intros [= <-].
      apply keyed_storeIndex, keyed_empty.
    + rewrite lookup_insert_ne by done. apply Hr.
  - unfold IndexUpdate. destruct (remote m !! p) as [repo|] eqn:Hp; [|done].
    apply well_keyed_recompute. repeat split; try done.
    intros q gs. cbn [remote set_remote].
    destruct (decide (p = q)) as [<-|Hne].
    + rewrite lookup_insert_eq. intros [= <-].
      apply keyed_storeIndex. by apply (Hr p).
    + rewrite lookup_insert_ne by done. apply Hr.
  - apply well_keyed_recompute. repeat split; try done.
    intros q gs. cbn [remote set_remote set_conns].
    intros [_ Hq]%lookup_delete_Some. by apply (Hr q).
  - destruct (replaceLocal_plan m fs).2 eqn:Hupd.
    + rewrite (ReplaceLocal_updated _ _ _ _ _ Hupd).
      apply (well_keyed_recompute tg
               (set_local (replaceLocal_plan m fs).1 m)).
      repeat split; try done. by apply keyed_replaceLocal_plan.
    + by rewrite (ReplaceLocal_not_updated _ _ _ _ _ Hupd).
  - apply well_keyed_recompute. repeat split; try done.
    apply keyed_storeIndex, keyed_empty.
  - unfold updateLocal.
    destruct (match local m !! Name f with
              | Some ef => negb (Equals ef f)
              | None => true
              end); [|done].
    apply (well_keyed_recompute tg (set_local (<[Name f := f]> (local m)) m)).
    repeat split; try done. by apply keyed_insert.
  - done.
Qed.

End keyed_facts.

(** Records are stored under their names, in local, in global and in
    every remote index, in every state that Index, IndexUpdate, Close,
    ReplaceLocal, SeedLocal, updateLocal and AddConnection reach from a new
    model, each call in an iteration order of its own. *)
Theorem reachable_well_keyed (now : Instant) (d : string)
    (ops : list (MapOrder * Mutation)) :
  well_keyed
    (foldl (λ m oop, mutate (order := oop.1) oop.2 m) (NewModel now d) ops).
Proof.
  assert (well_keyed (NewModel now d)) as Hnew.
  { repeat split; try apply keyed_empty.
    intros p fs Hp. cbn in Hp. by rewrite lookup_empty in Hp. }
  revert Hnew. generalize (NewModel now d) as m.
  induction ops as [|[o op] ops IH]; intros m Hm; cbn [foldl]; [done|].
  apply IH. by apply mutate_well_keyed.
Qed.

(** ** Invariant: global and need are settled *)

Section settled_facts.
Context {order : MapOrder}.

Lemma candidate_recompute now m n c :
  candidate (recomputeNeed (recomputeGlobal now m)) n c ↔ candidate m n c.
Proof.
  unfold candidate. rewrite local_recomputeNeed.
  change (remote (recomputeNeed ?x)) with (remote x).
  by rewrite local_recomputeGlobal, remote_recomputeGlobal.
Qed.

(** The two recomputations settle any state. *)
Lemma settled_recompute now m :
  settled (recomputeNeed (recomputeGlobal now m)).
Proof.
  split; [|split].
  - intros n g. rewrite global_recomputeNeed.
    intros (g'&[Hc _]%newGlobal_newest&HE&_)%recomputeGlobal_agrees.
    exists g'. by rewrite candidate_recompute.
  - intros n c Hc%candidate_recompute. rewrite global_recomputeNeed.
    apply (recomputeGlobal_covers now m n c).
    unfold candidate. by rewrite local_recomputeGlobal, remote_recomputeGlobal.
  - intros n b. exact (need_recomputeNeed (recomputeGlobal now m) n b).
Qed.

Lemma settled_touch_local tl tb m : settled m → settled (touch_local tl tb m).
Proof. by intros (H1&H2&H3). Qed.

Lemma settled_NewModel now d : settled (NewModel now d).
Proof.
  split; [|split].
  - intros n g Hg. cbn in Hg. by rewrite lookup_empty in Hg.
  - intros n c [Hc|(p&fs&Hp&_)]; cbn in *; by rewrite lookup_empty in *.
  - intros n b. split.
    + intros Hn. cbn in Hn. by rewrite lookup_empty in Hn.
    + intros (_&gf&Hg&_). cbn in Hg. by rewrite lookup_empty in Hg.
Qed.

Lemma mutate_settled op m : settled m → settled (mutate op m).
Proof.
  intros Hs.
  destruct op as [now p fs|now p fs|now p|tg tl tb fs|now fs|tg tl tb f|p];
    cbn [mutate].
  - apply settled_recompute.
  - unfold IndexUpdate. destruct (remote m !! p); [|done].
    apply settled_recompute.
  - apply settled_recompute.
  - destruct (replaceLocal_plan m fs).2 eqn:Hupd.
    + rewrite (ReplaceLocal_updated _ _ _ _ _ Hupd).
      apply settled_touch_local, settled_recompute.
    + by rewrite (ReplaceLocal_not_updated _ _ _ _ _ Hupd).
  - apply settled_recompute.
  - unfold updateLocal.
    destruct (match local m !! Name f with
              | Some ef => negb (Equals ef f)
              | None => true
              end); [|done].
    apply settled_touch_local, settled_recompute.
  - exact Hs.
Qed.

(** In a settled state the new global map has nothing to publish. *)
Lemma settled_globalUpdated m :
  settled m → globalUpdated m (newGlobal m) = false.
Proof.
  intros (Hstamp&Hcov&_).
  assert (∀ n f0, newGlobal m !! n = Some f0 →
            ∃ f1, global m !! n = Some f1 ∧ Equals f0 f1 = true) as Hall.
  { intros n f0 [Hc Hmax]%newGlobal_newest.
    destruct (Hcov _ _ Hc) as (f1&Hf1&Hle). exists f1. split; [done|].
    destruct (Hstamp _ _ Hf1) as (c&Hcc&HE).
    specialize (Hmax _ Hcc). stamps. }
  assert (dom (newGlobal m) = dom (global m)) as Hdom.
  { apply set_eq. intros n. rewrite !elem_of_dom. split.
    - intros [f0 Hf0]. destruct (Hall _ _ Hf0) as (f1&Hf1&_). eauto.
    - intros [g Hg]. apply newGlobal_is_Some.
      destruct (Hstamp _ _ Hg) as (c&Hc&_). eauto. }
  unfold globalUpdated.
  rewrite <- (size_dom (newGlobal m)), <- (size_dom (global m)), Hdom.
  rewrite Nat.eqb_refl. cbn [negb].
  apply not_true_is_false. intros Hex.
  apply existsb_exists in Hex as ([n f0]&Hin&Hne).
  apply list_elem_of_In, elem_of_range_of in Hin.
  destruct (Hall _ _ Hin) as (f1&Hf1&HE). rewrite Hf1, HE in Hne. done.
Qed.

Lemma settled_recomputeGlobal now m : settled m → recomputeGlobal now m = m.
Proof.
  intros Hs. unfold recomputeGlobal. by rewrite settled_globalUpdated.
Qed.

Lemma settled_recomputeNeed m : need_current m → recomputeNeed m = m.
Proof.
  intros Hn.
  assert (need (recomputeNeed m) = need m) as Heq.
  { apply map_eq. intros n.
    destruct (need (recomputeNeed m) !! n) as [b|] eqn:H1.
    - symmetry. apply Hn. by apply need_recomputeNeed.
    - destruct (need m !! n) as [b|] eqn:H2; [|done].
      apply Hn, need_recomputeNeed in H2. congruence. }
  unfold recomputeNeed in *. cbn [need set_need] in Heq. rewrite Heq.
  by destruct m.
Qed.

Lemma settled_noop now m :
  settled m → recomputeNeed (recomputeGlobal now m) = m.
Proof.
  intros Hs. rewrite settled_recomputeGlobal by done.
  apply settled_recomputeNeed, Hs.
Qed.

End settled_facts.

(** Every state that Index, IndexUpdate, Close, ReplaceLocal, SeedLocal,
    updateLocal and AddConnection reach from a new model is settled: the
    keys of global are the names held by local or by some peer, each
    global record has the stamps of a held record that no held record is
    NewerThan, and need holds exactly the names whose global record
    passes the tests of recomputeNeed. *)
Theorem reachable_settled (now : Instant) (d : string)
    (ops : list (MapOrder * Mutation)) :
  settled
    (foldl (λ m oop, mutate (order := oop.1) oop.2 m) (NewModel now d) ops).
Proof.
  pose proof (settled_NewModel now d) as Hnew.
  revert Hnew. generalize (NewModel now d) as m.
  induction ops as [|[o op] ops IH]; intros m Hm; cbn [foldl]; [done|].
  apply IH. by apply mutate_settled.
Qed.

(** Recomputing global and need a second time, at any later clock reading
    and in any iteration order, changes nothing: no map, no time stamp. *)
Theorem recompute_idempotent (order1 order2 : MapOrder) (now now' : Instant)
    (m : Model) :
  recomputeNeed (order := order2)
    (recomputeGlobal (order := order2) now'
       (recomputeNeed (order := order1)
          (recomputeGlobal (order := order1) now m))) =
  recomputeNeed (order := order1) (recomputeGlobal (order := order1) now m).
Proof. apply settled_noop, settled_recompute. Qed.

(** Receiving from a peer the index it sent last changes nothing: the
    model after the second Index is the model after the first, with the
    same Generation. *)
Theorem Index_idempotent (order1 order2 : MapOrder) (now now' : Instant)
    (nodeID : string) (fs : list protocol.FileInfo) (m : Model) :
  Index (order := order2) now' nodeID fs
    (Index (order := order1) now nodeID fs m) =
  Index (order := order1) now nodeID fs m.
Proof.
  unfold Index at 1.
  assert (remote (Index (order := order1) now nodeID fs m) !! nodeID =
          Some (storeIndex ∅ fs)) as Hr.
  { unfold Index. change (remote (recomputeNeed ?x)) with (remote x).
    rewrite remote_recomputeGlobal. cbn [remote set_remote].
    apply lookup_insert_eq. }
  rewrite (insert_id _ _ _ Hr).
  replace (set_remote (remote (Index now nodeID fs m)) (Index now nodeID fs m))
    with (Index (order := order1) now nodeID fs m)
    by (by destruct (Index now nodeID fs m)).
  apply settled_noop. apply settled_recompute.
Qed.

(** ** Who has a file, and what a pull leaves *)

Section sources.
Context {order : MapOrder}.

Lemma foldl_collect {A} (keep : string * A → bool) (es : list (string * A))
    (acc : list string) :
  foldl (λ acc e, if keep e then acc ++ [e.1] else acc) acc es =
  acc ++ (filter (λ e, keep e = true) es).*1.
Proof.
  revert acc. induction es as [|e es IH]; intros acc; cbn [foldl].
  - by rewrite app_nil_r.
  - rewrite IH, filter_cons. destruct (keep e) eqn:Hk.
    + rewrite decide_True by done. by rewrite fmap_cons, <- app_assoc.
    + rewrite decide_False by done. done.
Qed.

Lemma whoHas_filter m name :
  whoHas m name =
  (filter (λ e, holds name (file_at (global m) name) e = true)
     (range_of (remote m))).*1.
Proof.
  unfold whoHas.
  rewrite <- (app_nil_l (_.*1)), <- foldl_collect.
  assert (∀ es acc,
    foldl (λ (remote : list string) '(node, files),
             match files !! name with
             | Some file =>
                 if Equals file (file_at (global m) name)
                 then remote ++ [node] else remote
             | None => remote
             end) acc es =
    foldl (λ acc e, if holds name (file_at (global m) name) e
                    then acc ++ [e.1] else acc) acc es) as Hfold.
  { induction es as [|[p fs] es IH]; intros acc; cbn [foldl]; [done|].
    rewrite IH. f_equal. unfold holds; cbn [fst snd].
    destruct (fs !! name) as [file|]; [|done].
    by destruct (Equals file _). }
  apply Hfold.
Qed.

Lemma whoHas_elem m name p :
  p ∈ whoHas m name ↔
  ∃ fs file, remote m !! p = Some fs ∧ fs !! name = Some file ∧
             Equals file (file_at (global m) name) = true.
Proof.
  rewrite whoHas_filter, list_elem_of_fmap. split.
  - intros ([q fs]&->&[Hk Hin%elem_of_range_of]%list_elem_of_filter).
    unfold holds in Hk; cbn [fst snd] in *.
    destruct (fs !! name) as [file|] eqn:Hf; [|done]. eauto.
  - intros (fs&file&Hp&Hf&HE). exists (p, fs). split; [done|].
    apply list_elem_of_filter. split; [|by apply elem_of_range_of].
    unfold holds; cbn [snd]. by rewrite Hf.
Qed.

Lemma whoHas_NoDup m name : NoDup (whoHas m name).
Proof.
  rewrite whoHas_filter.
  pose proof (NoDup_fst_range_of (remote m)) as Hnd.
  induction (range_of (remote m)) as [|e es IH]; [constructor|].
  rewrite fmap_cons in Hnd. apply NoDup_cons in Hnd as [Hne Hnd].
  rewrite filter_cons. destruct (decide _); [|by apply IH].
  rewrite fmap_cons. apply NoDup_cons. split; [|by apply IH].
  intros (x&Hx&[_ Hin]%list_elem_of_filter)%list_elem_of_fmap.
  apply Hne, list_elem_of_fmap. eauto.
Qed.

Lemma needed_source m n :
  settled m → is_Some (need m !! n) →
  ∃ p fs file, remote m !! p = Some fs ∧ fs !! n = Some file ∧
               Equals file (file_at (global m) n) = true.
Proof.
  intros (Hstamp&_&Hneed) [b Hn].
  apply Hneed in Hn as (_&gf&Hg&Hw).
  unfold file_at. rewrite Hg. cbn [default]. unfold id.
  destruct (Hstamp _ _ Hg) as (c&[Hc|(p&fs&Hp&Hc)]&HE).
  - apply wanted_spec in Hw as (Hw&_). rewrite Hc in Hw. stamps.
  - exists p, fs, c. repeat split; try done. stamps.
Qed.

Lemma pulled_not_needed tg m n gf :
  global_covers m → global m !! n = Some gf →
  need (recomputeNeed
          (recomputeGlobal tg (set_local (<[n := gf]> (local m)) m))) !! n
  = None.
Proof.
  intros Hcov Hg.
  set (m1 := set_local (<[n := gf]> (local m)) m).
  destruct (need _ !! n) as [b|] eqn:Hn; [exfalso|done].
  apply need_recomputeNeed in Hn as (_&g'&Hg'&Hw).
  apply wanted_spec in Hw as (Hw&_).
  rewrite local_recomputeGlobal in Hw.
  unfold m1 in Hw at 1. cbn [local set_local] in Hw.
  rewrite lookup_insert_eq in Hw.
  apply recomputeGlobal_agrees in Hg' as (g''&Hg''&HE&_).
  rewrite (newGlobal_local_wins m1 n gf) in Hg''.
  - injection Hg'' as <-. stamps.
  - unfold m1; cbn [local set_local]. apply lookup_insert_eq.
  - intros p fs c Hp Hc.
    destruct (Hcov n c) as (g&Hg0&Hle); [right; eauto|].
    rewrite Hg in Hg0. by injection Hg0 as <-.
Qed.

Lemma updateLocal_pulled tg tl tb m n gf :
  settled m → well_keyed m → is_Some (need m !! n) →
  global m !! n = Some gf →
  local (updateLocal tg tl tb gf m) !! n = Some gf ∧
  need (updateLocal tg tl tb gf m) !! n = None.
Proof.
  intros Hs (_&Hkg&_) [b Hn] Hg.
  pose proof Hs as (_&Hcov&Hneed).
  apply Hneed in Hn as (_&gf'&Hg'&Hw).
  rewrite Hg in Hg'. injection Hg' as <-.
  apply wanted_spec in Hw as (Hw&_).
  unfold updateLocal. rewrite (Hkg _ _ Hg).
  assert (match local m !! n with
          | Some ef => negb (Equals ef gf)
          | None => true
          end = true) as ->.
  { destruct (local m !! n) as [lf|]; [|done].
    destruct (Equals lf gf) eqn:HE; [stamps|done]. }
  split.
  - cbn [local touch_local]. rewrite local_recomputeNeed,
      local_recomputeGlobal. cbn [local set_local]. apply lookup_insert_eq.
  - change (need (touch_local tl tb ?x)) with (need x).
    by apply pulled_not_needed.
Qed.

End sources.

(** whoHas lists, each once, exactly the peers whose index has a record
    for the name with the stamps of the global record (of the zero File
    when global has none). *)
Theorem whoHas_spec {order : MapOrder} (m : Model) (name : string) :
  NoDup (whoHas m name) ∧
  ∀ p, p ∈ whoHas m name ↔
       ∃ fs file, remote m !! p = Some fs ∧ fs !! name = Some file ∧
                  Equals file (file_at (global m) name) = true.
Proof. split; [apply whoHas_NoDup|intros p; apply whoHas_elem]. Qed.

(** In a settled state whoHas finds a peer for every needed name: pullFile
    never fails there for lack of a node with the file. *)
Theorem needed_has_source {order : MapOrder} (m : Model) (n : string) :
  settled m → is_Some (need m !! n) → whoHas m n ≠ [].
Proof.
  intros Hs Hn. destruct (needed_source m n Hs Hn) as (p&fs&file&H).
  assert (p ∈ whoHas m n) as Hin by (apply whoHas_elem; eauto).
  intros Hnil. rewrite Hnil in Hin. by apply elem_of_nil in Hin.
Qed.

Lemma needed_has_source_witness :
  is_Some (need needy_state !! "a") ∧
  whoHas (order := listed_order) needy_state "a" ≠ [].
Proof.
  assert (is_Some (need needy_state !! "a")) as Hn by (vm_compute; eauto).
  split; [exact Hn|].
  apply (needed_has_source (order := listed_order) needy_state "a");
    [|exact Hn].
  apply (settled_recompute (order := listed_order)).
Defined.

(** A pull completes: in a settled state, updateLocal with the global
    record of a needed name stores that record in local and takes the name
    out of need. *)
Theorem updateLocal_completes_pull {order : MapOrder} (tg tl tb : Instant)
    (m : Model) (n : string) (gf : File) :
  settled m → well_keyed m → is_Some (need m !! n) →
  global m !! n = Some gf →
  local (updateLocal tg tl tb gf m) !! n = Some gf ∧
  need (updateLocal tg tl tb gf m) !! n = None.
Proof. apply updateLocal_pulled. Qed.

Lemma updateLocal_completes_pull_witness :
  is_Some (need needy_state !! "a") ∧
  need (updateLocal (order := listed_order) clock1 clock1 clock1
          (fileFromFileInfo peer_a) needy_state) !! "a" = None.
Proof.
  assert (is_Some (need needy_state !! "a")) as Hn by (vm_compute; eauto).
  split; [exact Hn|].
  apply (updateLocal_completes_pull (order := listed_order)
           clock1 clock1 clock1 needy_state "a" (fileFromFileInfo peer_a)).
  - apply (settled_recompute (order := listed_order)).
  - apply (mutate_well_keyed (order := listed_order)
             (DoIndex clock0 "42" [peer_a]) (NewModel clock0 "repo")).
    repeat split; try apply keyed_empty.
    intros p fs Hp. cbn in Hp. by rewrite lookup_empty in Hp.
  - exact Hn.
  - by vm_compute.
Defined.

(** The puller takes a needed name whose global record is not a directory
    out of need whatever pullFile returns, an error included: the error is
    assigned to a variable of the inner block, and the test before
    updateLocal reads the outer one. *)
Theorem pullOne_clears_need {order : MapOrder}
    (pullFile : string → option error) (tg tl tb : Instant)
    (m : Model) (n : string) :
  settled m → well_keyed m → is_Some (need m !! n) →
  Z.land (Flags (file_at (global m) n)) protocol.FlagDirectory = 0 →
  local (pullOne pullFile tg tl tb n m) !! n = global m !! n ∧
  need (pullOne pullFile tg tl tb n m) !! n = None.
Proof.
  intros Hs Hk Hn Hfile. pose proof Hs as (_&_&Hneed).
  destruct Hn as [b Hb]. pose proof Hb as Hb'.
  apply Hneed in Hb' as (_&gf&Hg&_).
  unfold pullOne. rewrite Hfile. change (0 =? 0) with true. cbn match.
  rewrite Hg. apply updateLocal_pulled; eauto.
Qed.

Lemma pullOne_clears_need_witness :
  is_Some (need needy_state !! "a") ∧
  need (pullOne (order := listed_order) failing_pull clock1 clock1 clock1
          "a" needy_state) !! "a" = None.
Proof.
  assert (is_Some (need needy_state !! "a")) as Hn by (vm_compute; eauto).
  split; [exact Hn|].
  apply (pullOne_clears_need (order := listed_order) failing_pull
           clock1 clock1 clock1 needy_state "a").
  - apply (settled_recompute (order := listed_order)).
  - apply (mutate_well_keyed (order := listed_order)
             (DoIndex clock0 "42" [peer_a]) (NewModel clock0 "repo")).
    repeat split; try apply keyed_empty.
    intros p fs Hp. cbn in Hp. by rewrite lookup_empty in Hp.
  - exact Hn.
  - by vm_compute.
Defined.

(** For a needed directory the puller calls pullDir only: the model stays
    as it is, the name in need included. *)
Lemma pullOne_directory {order : MapOrder}
    (pullFile : string → option error) (tg tl tb : Instant)
    (m : Model) (n : string) :
  Z.land (Flags (file_at (global m) n)) protocol.FlagDirectory ≠ 0 →
  pullOne pullFile tg tl tb n m = m.
Proof.
  intros Hdir. unfold pullOne.
  by destruct (Z.eqb_spec
                 (Z.land (Flags (file_at (global m) n)) protocol.FlagDirectory)
                 0).
Qed.

(** ** The index exchange of a connection *)

Lemma stampsOf_fileFromFileInfo f :
  stampsOf (fileFromFileInfo f) = sentStamps f.
Proof.
  unfold stampsOf, sentStamps.
  by rewrite Modified_fileFromFileInfo, Version_fileFromFileInfo.
Qed.

Lemma storeIndex_snoc r fs f :
  storeIndex r (fs ++ [f]) =
  <[protocol.Name f := fileFromFileInfo f]> (storeIndex r fs).
Proof. unfold storeIndex. by rewrite foldl_app. Qed.

Lemma sent_first idx (s0 : gmap string (Z * Z)) r0 :
  (∀ n, s0 !! n = stampsOf <$> r0 !! n) →
  ∀ n, foldl (λ sent f, <[protocol.Name f := sentStamps f]> sent) s0 idx !! n
       = stampsOf <$> storeIndex r0 idx !! n.
Proof.
  revert s0 r0. induction idx as [|f idx IH]; intros s0 r0 H0; [done|].
  cbn [foldl]. apply IH. intros k.
  destruct (decide (protocol.Name f = k)) as [<-|Hne].
  - rewrite !lookup_insert_eq. cbn. by rewrite stampsOf_fileFromFileInfo.
  - by rewrite !lookup_insert_ne.
Qed.

Lemma sent_diff idx (sent : gmap string (Z * Z)) diff r :
  (∀ n, sent !! n = stampsOf <$> storeIndex r diff !! n) →
  ∀ n, (foldl diffOne (sent, diff) idx).1 !! n
       = stampsOf <$> storeIndex r (foldl diffOne (sent, diff) idx).2 !! n.
Proof.
  revert sent diff. induction idx as [|f idx IH]; intros sent diff H0; [done|].
  cbn [foldl]. unfold diffOne at 2 4.
  destruct (match sent !! protocol.Name f with
            | Some vs => _
            | None => true
            end); [|by apply IH].
  apply IH. intros k. rewrite storeIndex_snoc.
  destruct (decide (protocol.Name f = k)) as [<-|Hne].
  - rewrite !lookup_insert_eq. cbn. by rewrite stampsOf_fileFromFileInfo.
  - by rewrite !lookup_insert_ne.
Qed.

Lemma differs_spec (sent : gmap string (Z * Z)) f :
  match sent !! protocol.Name f with
  | Some vs =>
      negb (protocol.Modified f =? vs.1) || negb (protocol.Version f =? vs.2)
  | None => true
  end = true ↔ sent !! protocol.Name f ≠ Some (sentStamps f).
Proof.
  unfold sentStamps. destruct (sent !! protocol.Name f) as [[a b]|]; cbn.
  - rewrite orb_true_iff, !negb_true_iff, !Z.eqb_neq. split.
    + intros [H|H] [= -> ->]; done.
    + intros H. destruct (decide (protocol.Modified f = a)) as [<-|?];
        [|by left]. right. intros <-. done.
  - done.
Qed.

Lemma diffOne_notin idx (sent : gmap string (Z * Z)) diff n :
  n ∉ (protocol.Name <$> idx) →
  (foldl diffOne (sent, diff) idx).1 !! n = sent !! n.
Proof.
  revert sent diff. induction idx as [|f idx IH]; intros sent diff Hn;
    [done|].
  rewrite fmap_cons in Hn. apply not_elem_of_cons in Hn as [Hne Hn].
  cbn [foldl]. unfold diffOne at 2.
  destruct (match sent !! protocol.Name f with
            | Some vs => _
            | None => true
            end); rewrite IH by done; [|done].
  by rewrite lookup_insert_ne.
Qed.

Lemma diffOne_sent idx (sent : gmap string (Z * Z)) diff f :
  NoDup (protocol.Name <$> idx) → f ∈ idx →
  (foldl diffOne (sent, diff) idx).1 !! protocol.Name f = Some (sentStamps f).
Proof.
  revert sent diff. induction idx as [|a idx IH]; intros sent diff Hnd Hf.
  - by apply elem_of_nil in Hf.
  - rewrite fmap_cons in Hnd. apply NoDup_cons in Hnd as [Hna Hnd].
    apply elem_of_cons in Hf as [->|Hf]; [|cbn [foldl]; by
      destruct (diffOne (sent, diff) a); apply IH].
    cbn [foldl]. unfold diffOne at 2.
    destruct (match sent !! protocol.Name a with
              | Some vs => _
              | None => true
              end) eqn:Hd; rewrite diffOne_notin by done.
    + apply lookup_insert_eq.
    + destruct (sent !! protocol.Name a) as [vs|] eqn:Hs.
      * destruct (decide (Some vs = Some (sentStamps a))) as [?|Hne];
          [done|]. rewrite <- Hs in Hne.
        apply differs_spec in Hne. rewrite Hs in Hne. congruence.
      * done.
Qed.

Lemma diffOne_payload idx (sent sent0 : gmap string (Z * Z)) diff :
  NoDup (protocol.Name <$> idx) →
  (∀ f, f ∈ idx → sent !! protocol.Name f = sent0 !! protocol.Name f) →
  (foldl diffOne (sent, diff) idx).2 =
  diff ++ filter (λ f, sent0 !! protocol.Name f ≠ Some (sentStamps f)) idx.
Proof.
  revert sent diff. induction idx as [|a idx IH]; intros sent diff Hnd Hag.
  - cbn. by rewrite app_nil_r.
  - rewrite fmap_cons in Hnd. apply NoDup_cons in Hnd as [Hna Hnd].
    cbn [foldl]. rewrite filter_cons. unfold diffOne at 2.
    pose proof (differs_spec sent a) as Hspec.
    rewrite (Hag a) in Hspec at 2 by (by left).
    destruct (match sent !! protocol.Name a with
              | Some vs => _
              | None => true
              end).
    + rewrite decide_True by (by apply Hspec).
      rewrite (IH _ _ Hnd), <- app_assoc; [done|].
      intros f Hf. rewrite lookup_insert_ne; [apply Hag; by right|].
      intros Heq. apply Hna. rewrite Heq. apply list_elem_of_fmap. eauto.
    + rewrite decide_False by (intros H; apply Hspec in H; done).
      apply IH; [done|]. intros f Hf. apply Hag. by right.
Qed.

Lemma first_sent_notin idx (s0 : gmap string (Z * Z)) n :
  n ∉ (protocol.Name <$> idx) →
  foldl (λ sent f, <[protocol.Name f := sentStamps f]> sent) s0 idx !! n
  = s0 !! n.
Proof.
  revert s0. induction idx as [|a idx IH]; intros s0 Hn; [done|].
  rewrite fmap_cons in Hn. apply not_elem_of_cons in Hn as [Hne Hn].
  cbn [foldl]. rewrite IH by done. by rewrite lookup_insert_ne.
Qed.

Lemma first_sent idx (s0 : gmap string (Z * Z)) f :
  NoDup (protocol.Name <$> idx) → f ∈ idx →
  foldl (λ sent f, <[protocol.Name f := sentStamps f]> sent) s0 idx
    !! protocol.Name f = Some (sentStamps f).
Proof.
  revert s0. induction idx as [|a idx IH]; intros s0 Hnd Hf.
  - by apply elem_of_nil in Hf.
  - rewrite fmap_cons in Hnd. apply NoDup_cons in Hnd as [Hna Hnd].
    cbn [foldl]. apply elem_of_cons in Hf as [->|Hf]; [|by apply IH].
    rewrite first_sent_notin by done. apply lookup_insert_eq.
Qed.

(** What indexPlan keeps as sent and what the receiver stores agree. *)
Lemma indexPlan_in_step {order : MapOrder} now idx c m p :
  in_step c m p →
  ∃ r, remote (receiveIndex now p (indexPlan idx c).1.1 (indexPlan idx c).2 m)
         !! p = Some r ∧
       ∀ n, (indexPlan idx c).1.2 !! n = stampsOf <$> r !! n.
Proof.
  unfold in_step, indexPlan, receiveIndex.
  destruct (indexSent c) as [sent|].
  - intros (r&Hr&Hag).
    destruct (foldl diffOne (sent, []) idx) as [sent' diff] eqn:Hd.
    cbn [fst snd]. change (messageTypeIndexUpdate =? messageTypeIndex)
      with false. change (messageTypeIndexUpdate =? messageTypeIndexUpdate)
      with true. cbn match.
    unfold IndexUpdate. rewrite Hr.
    change (remote (recomputeNeed ?x)) with (remote x).
    rewrite remote_recomputeGlobal. cbn [remote set_remote].
    rewrite lookup_insert_eq. exists (storeIndex r diff). split; [done|].
    pose proof (sent_diff idx sent [] r Hag) as H. by rewrite Hd in H.
  - intros _. cbn [fst snd].
    change (messageTypeIndex =? messageTypeIndex) with true. cbn match.
    unfold Index. change (remote (recomputeNeed ?x)) with (remote x).
    rewrite remote_recomputeGlobal. cbn [remote set_remote].
    rewrite lookup_insert_eq. exists (storeIndex ∅ idx). split; [done|].
    apply sent_first. intros n. by rewrite !lookup_empty.
Qed.

Lemma Connection_Index_message werr idx c :
  (Connection_Index werr idx c).1.2 =
  (nextId c, (indexPlan idx c).1.1, (indexPlan idx c).2).
Proof.
  unfold Connection_Index. destruct (indexPlan idx c) as [[ty sent] payload].
  destruct werr; [|done]. unfold Connection_Close. cbn [closed].
  by destruct (closed c).
Qed.

Lemma Connection_Index_indexSent werr idx c :
  indexSent (Connection_Index werr idx c).1.1 = Some (indexPlan idx c).1.2.
Proof.
  unfold Connection_Index. destruct (indexPlan idx c) as [[ty sent] payload].
  destruct werr; [|done]. unfold Connection_Close. cbn [closed].
  by destruct (closed c).
Qed.

Lemma indexPlan_sent idx c f :
  NoDup (protocol.Name <$> idx) → f ∈ idx →
  (indexPlan idx c).1.2 !! protocol.Name f = Some (sentStamps f).
Proof.
  intros Hnd Hf. unfold indexPlan. destruct (indexSent c) as [sent|].
  - pose proof (diffOne_sent idx sent [] f Hnd Hf) as H.
    by destruct (foldl diffOne (sent, []) idx).
  - by apply first_sent.
Qed.

Lemma first_exchange_in_step : in_step sender_one receiver_one "42".
Proof.
  unfold in_step, sender_one. rewrite Connection_Index_indexSent.
  apply (indexPlan_in_step (order := listed_order) clock0 first_index
           (NewConnection "7") (NewModel clock0 "repo") "42").
  exact I.
Qed.

(** A sender and a receiver stay in step: when the stamps a connection
    has recorded as sent are those of the index the receiver holds for the
    sender, they are so again after Connection.Index has sent a full index
    or an update and the receiver has handed it to the model. *)
Theorem index_exchange_in_step {order : MapOrder} (werr : option error)
    (now : Instant) (idx : list protocol.FileInfo) (c : Connection)
    (m : Model) (p : string) :
  in_step c m p →
  let '(c', (_, msgType, payload), _) := Connection_Index werr idx c in
  in_step c' (receiveIndex now p msgType payload m) p.
Proof.
  intros Hstep.
  pose proof (Connection_Index_message werr idx c) as Hmsg.
  pose proof (Connection_Index_indexSent werr idx c) as Hsent.
  destruct (Connection_Index werr idx c) as [[c' [[id ty] payload]] told].
  cbn [fst snd] in Hmsg, Hsent. injection Hmsg as -> -> ->.
  unfold in_step. rewrite Hsent. by apply indexPlan_in_step.
Qed.

Lemma index_exchange_in_step_witness :
  let '(c', (_, msgType, payload), _) :=
    Connection_Index None later_index sender_one in
  in_step c'
    (receiveIndex (order := listed_order) clock1 "42" msgType payload
       receiver_one) "42".
Proof.
  apply (index_exchange_in_step (order := listed_order) None clock1
           later_index sender_one receiver_one "42").
  apply first_exchange_in_step.
Defined.

(** After an exchange that started in step, the receiver holds for every
    record of the sender's index a record of the same name, modification
    time and version, whether the record went over the wire in this
    message or not; the names of the index being pairwise distinct. *)
Theorem index_exchange_delivers {order : MapOrder} (werr : option error)
    (now : Instant) (idx : list protocol.FileInfo) (c : Connection)
    (m : Model) (p : string) (f : protocol.FileInfo) :
  in_step c m p → NoDup (protocol.Name <$> idx) → f ∈ idx →
  let '(_, (_, msgType, payload), _) := Connection_Index werr idx c in
  ∃ r g, remote (receiveIndex now p msgType payload m) !! p = Some r ∧
         r !! protocol.Name f = Some g ∧
         Modified g = protocol.Modified f ∧ Version g = protocol.Version f.
Proof.
  intros Hstep Hnd Hf.
  pose proof (Connection_Index_message werr idx c) as Hmsg.
  destruct (Connection_Index werr idx c) as [[c' [[id ty] payload]] told].
  cbn [fst snd] in Hmsg. injection Hmsg as -> -> ->.
  destruct (indexPlan_in_step now idx c m p Hstep) as (r&Hr&Hag).
  specialize (Hag (protocol.Name f)).
  rewrite (indexPlan_sent idx c f Hnd Hf) in Hag.
  destruct (r !! protocol.Name f) as [g|] eqn:Hg; [|done].
  exists r, g. injection Hag as HM HV. by repeat split.
Qed.

Lemma index_exchange_delivers_witness :
  let '(_, (_, msgType, payload), _) :=
    Connection_Index None later_index sender_one in
  ∃ r g,
    remote (receiveIndex (order := listed_order) clock1 "42" msgType payload
              receiver_one) !! "42" = Some r ∧
    r !! "a" = Some g ∧
    Modified g = 1600000005 ∧ Version g = 0.
Proof.
  apply (index_exchange_delivers (order := listed_order) None clock1
           later_index sender_one receiver_one "42" peer_a').
  - apply first_exchange_in_step.
  - apply (bool_decide_unpack _). by vm_compute.
  - apply list_elem_of_here.
Defined.

(** Once a full index has been sent, Connection.Index sends an index
    update that holds, in the order of the index, exactly the records
    whose modification time or version is not the one last sent under
    their name; the names of the index being pairwise distinct. *)
Theorem index_update_payload (werr : option error)
    (idx : list protocol.FileInfo) (c : Connection)
    (sent : gmap string (Z * Z)) :
  indexSent c = Some sent → NoDup (protocol.Name <$> idx) →
  let '(_, (_, msgType, payload), _) := Connection_Index werr idx c in
  msgType = messageTypeIndexUpdate ∧
  payload =
  filter (λ f, sent !! protocol.Name f ≠ Some (sentStamps f)) idx.
Proof.
  intros Hsent Hnd.
  pose proof (Connection_Index_message werr idx c) as Hmsg.
  destruct (Connection_Index werr idx c) as [[c' [[id ty] payload]] told].
  cbn [fst snd] in Hmsg. injection Hmsg as -> -> ->.
  unfold indexPlan. rewrite Hsent.
  pose proof (diffOne_payload idx sent sent [] Hnd (λ _ _, eq_refl)) as Hp.
  destruct (foldl diffOne (sent, []) idx) as [sent' diff].
  cbn [fst snd] in *. by rewrite Hp.
Qed.

Lemma index_update_payload_witness :
  let '(_, (_, msgType, payload), _) :=
    Connection_Index None [peer_a; peer_b_newer]
      (mkConnection "7" false 1 (Some {[ "a" := (1600000000, 0) ]})
         true false) in
  msgType = messageTypeIndexUpdate ∧
  payload =
  filter (λ f, ({[ "a" := (1600000000, 0) ]} : gmap string (Z * Z))
                 !! protocol.Name f ≠ Some (sentStamps f))
    [peer_a; peer_b_newer].
Proof.
  apply (index_update_payload None [peer_a; peer_b_newer]
           (mkConnection "7" false 1 (Some {[ "a" := (1600000000, 0) ]})
              true false)).
  - reflexivity.
  - apply (bool_decide_unpack _). by vm_compute.
Defined.

Lemma filter_none {A} (P : A → Prop) `{∀ x, Decision (P x)} (l : list A) :
  (∀ x, x ∈ l → ¬ P x) → filter P l = [].
Proof.
  induction l as [|a l IH]; intros Hall; [done|].
  rewrite filter_cons, decide_False by (apply Hall; by left).
  apply IH. intros x Hx. apply Hall. by right.
Qed.

(** Sending the same index again sends an empty update: after any
    Connection.Index of an index whose names are pairwise distinct, a
    second Connection.Index of that index writes an index update without
    records. *)
Theorem index_resend_is_empty (werr werr' : option error)
    (idx : list protocol.FileInfo) (c : Connection) :
  NoDup (protocol.Name <$> idx) →
  (Connection_Index werr' idx (Connection_Index werr idx c).1.1).1.2 =
  (nextId (Connection_Index werr idx c).1.1, messageTypeIndexUpdate, []).
Proof.
  intros Hnd. rewrite Connection_Index_message.
  pose proof (Connection_Index_indexSent werr idx c) as Hsent.
  unfold indexPlan at 1 2. rewrite Hsent.
  pose proof (diffOne_payload idx _ (indexPlan idx c).1.2 [] Hnd
                (λ _ _, eq_refl)) as Hp.
  destruct (foldl diffOne _ idx) as [sent' diff]. cbn [fst snd] in *.
  rewrite Hp. do 2 f_equal. cbn [app].
  apply filter_none. intros g Hg Hne.
  apply Hne. by apply indexPlan_sent.
Qed.

Lemma index_resend_is_empty_witness :
  (Connection_Index None later_index
     (Connection_Index None later_index sender_one).1.1).1.2.2 = [].
Proof.
  rewrite (index_resend_is_empty None None later_index sender_one);
    [reflexivity|].
  apply (bool_decide_unpack _). by vm_compute.
Defined.

(** ** The puller's helpers *)

Lemma Byte_to_N_inj x y : Strings.Byte.to_N x = Strings.Byte.to_N y → x = y.
Proof.
  intros H. pose proof (Strings.Byte.of_to_N x) as Hx.
  rewrite H, Strings.Byte.of_to_N in Hx. by injection Hx.
Qed.

Lemma bytes_Compare_eq a b : bytes_Compare a b = 0 ↔ a = b.
Proof.
  revert b. induction a as [|x a IH]; intros [|y b]; cbn [bytes_Compare];
    try done.
  destruct (N.compare_spec (Strings.Byte.to_N x) (Strings.Byte.to_N y))
    as [Heq|Hlt|Hgt].
  - apply Byte_to_N_inj in Heq as ->. rewrite IH. split; congruence.
  - split; [done|]. intros [= -> _]. lia.
  - split; [done|]. intros [= -> _]. lia.
Qed.

Lemma hashCompare_None current correct :
  length current = length correct →
  hashCompare current correct = None ↔ Hash <$> current = Hash <$> correct.
Proof.
  revert correct. induction current as [|c cs IH]; intros [|r rs] Hlen;
    try done.
  cbn [hashCompare]. rewrite !fmap_cons.
  destruct (bytes_Compare (Hash c) (Hash r) =? 0) eqn:Hc; cbn [negb].
  - apply Z.eqb_eq, bytes_Compare_eq in Hc. rewrite IH by (cbn in Hlen; lia).
    rewrite Hc. split; [by intros ->|by intros [= ->]].
  - apply Z.eqb_neq in Hc. split; [done|].
    intros [= Heq _]. exfalso. apply Hc, bytes_Compare_eq, Heq.
Qed.

(** hashCheck accepts a file that could be read and hashed exactly when
    the hashes of its blocks are, one by one and in number, the hashes
    expected. *)
Theorem hashCheck_accepts (current correct : list Block) :
  hashCheck (inl current) correct = None ↔
  Hash <$> current = Hash <$> correct.
Proof.
  unfold hashCheck.
  destruct (length current =? length correct)%nat eqn:Hlen; cbn [negb].
  - apply Nat.eqb_eq in Hlen. by apply hashCompare_None.
  - apply Nat.eqb_neq in Hlen. split; [done|].
    intros Heq. apply (f_equal length) in Heq.
    by rewrite !length_fmap in Heq.
Qed.

Lemma fetchers_ok schedule blocks :
  (λ r, r.1.2) <$> filter (λ r, r.2 = true) (fetchers schedule blocks) =
  take (length schedule) blocks.
Proof.
  revert blocks. induction schedule as [|who schedule IH]; intros blocks;
    [done|].
  cbn [fetchers]. destruct blocks as [|b rest]; cbn [Next].
  - rewrite filter_cons, decide_False by done. rewrite IH. by destruct schedule.
  - rewrite filter_cons, decide_True by done. rewrite fmap_cons, IH. done.
Qed.

(** Whatever the order in which the fetchers of a file call Next, the
    blocks handed out are, in the order of the calls, the blocks of the
    queue from its head on: none twice, none skipped; and every call
    after the queue is empty is told so. *)
Theorem fetchers_share_queue (schedule : list nat) (blocks : list Block) :
  (λ r, r.1.2) <$> filter (λ r, r.2 = true) (fetchers schedule blocks) =
  take (length schedule) blocks ∧
  (λ r, r.2) <$> fetchers schedule blocks =
  replicate (min (length schedule) (length blocks)) true ++
  replicate (length schedule - length blocks) false.
Proof.
  split; [apply fetchers_ok|].
  revert blocks. induction schedule as [|who schedule IH]; intros blocks;
    [done|].
  cbn [fetchers]. destruct blocks as [|b rest]; cbn [Next].
  - rewrite fmap_cons, IH. cbn. by rewrite Nat.sub_0_r, Nat.min_0_r.
  - rewrite fmap_cons, IH. done.
Qed.

(** One fetcher on its own, none of whose requests fails, takes every
    block of the queue, in order, and leaves it empty, given as many turns
    as there are blocks and one more for the call that finds the queue
    empty. *)
Theorem fetch_all_drains (requestGlobal : Block → bool)
    (blocks : list Block) (fuel : nat) :
  (∀ b, b ∈ blocks → requestGlobal b = true) →
  (length blocks < fuel)%nat →
  fetch_all fuel requestGlobal blocks = (blocks, []).
Proof.
  revert blocks. induction fuel as [|fuel IH]; intros blocks Hreq Hlt; [lia|].
  cbn [fetch_all]. destruct blocks as [|b rest]; cbn [Next]; [done|].
  rewrite (Hreq b) by (by left).
  rewrite IH; [done| |cbn in Hlt; lia].
  intros x Hx. apply Hreq. by right.
Qed.

Lemma fetch_all_drains_witness :
  fetch_all 3 (λ _, true) (Blocks two_blocks) = (Blocks two_blocks, []).
Proof.
  apply (fetch_all_drains (λ _, true) (Blocks two_blocks) 3);
    [done|cbn; lia].
Defined.

(** A block whose request fails is lost to the pull: the fetcher has
    taken it off the queue and stops, so the block is neither among those
    fetched nor left for another fetcher. *)
Theorem fetch_all_drops_failed (requestGlobal : Block → bool)
    (before after : list Block) (b : Block) (fuel : nat) :
  (∀ x, x ∈ before → requestGlobal x = true) →
  requestGlobal b = false →
  (length before < fuel)%nat →
  fetch_all fuel requestGlobal (before ++ b :: after) = (before, after).
Proof.
  revert before. induction fuel as [|fuel IH]; intros before Hreq Hb Hlt;
    [lia|].
  cbn [fetch_all]. destruct before as [|x before]; cbn [app Next].
  - by rewrite Hb.
  - rewrite (Hreq x) by (by left).
    rewrite IH; [done| |done|cbn in Hlt; lia].
    intros y Hy. apply Hreq. by right.
Qed.

Lemma fetch_all_drops_failed_witness :
  fetch_all 3 (λ b, Offset b =? 0)
    ([mkBlock 0 131072 []] ++ mkBlock 131072 5 [] :: [mkBlock 131077 1 []])
  = ([mkBlock 0 131072 []], [mkBlock 131077 1 []]).
Proof.
  apply (fetch_all_drops_failed (λ b, Offset b =? 0)
           [mkBlock 0 131072 []] [mkBlock 131077 1 []]
           (mkBlock 131072 5 []) 3).
  - intros x ->%list_elem_of_singleton. reflexivity.
  - reflexivity.
  - cbn. lia.
Defined.

(** ** Saving and seeding the local index *)

Lemma round_trip_reoffset f :
  fileFromFileInfo (fileInfoFromFile f) = reoffset f.
Proof.
  unfold fileFromFileInfo, fileInfoFromFile, reoffset.
  cbn [protocol.Blocks protocol.Name protocol.Flags protocol.Modified
       protocol.Version].
  rewrite fileInfo_blocks, app_nil_l.
  pose proof (file_blocks_regenerate (Blocks f) [] 0) as Hb.
  destruct (foldl _ _ _) as [blocks off]. cbn [fst] in Hb. by rewrite Hb.
Qed.

Lemma protocolIndex_fmap {order : MapOrder} m :
  protocolIndex m = (λ e, fileInfoFromFile e.2) <$> range_of (local m).
Proof.
  unfold protocolIndex.
  assert (∀ es acc,
    foldl (λ (index : list protocol.FileInfo) '(_, f),
             index ++ [fileInfoFromFile f]) acc es =
    acc ++ ((λ e : string * File, fileInfoFromFile e.2) <$> es)) as Hfold.
  { induction es as [|[n f] es IH]; intros acc; cbn [foldl].
    - by rewrite app_nil_r.
    - by rewrite IH, fmap_cons, <- app_assoc. }
  apply Hfold.
Qed.

Lemma fmap_ext_elem {A B} (f g : A → B) (l : list A) :
  (∀ x, x ∈ l → f x = g x) → f <$> l = g <$> l.
Proof.
  induction l as [|a l IH]; intros H; [done|].
  rewrite !fmap_cons, (H a) by (by left). f_equal.
  apply IH. intros x Hx. apply H. by right.
Qed.

Lemma storeIndex_protocolIndex {order : MapOrder} m :
  keyed (local m) →
  storeIndex ∅ (protocolIndex m) = reoffset <$> local m.
Proof.
  intros Hk. rewrite storeIndex_put, protocolIndex_fmap.
  rewrite <- list_fmap_compose.
  rewrite (fmap_ext_elem _ (λ e, (e.1, reoffset e.2))).
  2:{ intros [n f] Hin%elem_of_range_of. cbn.
      rewrite round_trip_reoffset. f_equal. by apply Hk. }
  apply map_eq. intros n. rewrite lookup_fmap.
  destruct (local m !! n) as [f|] eqn:Hf; cbn.
  - apply foldl_put_NoDup.
    + rewrite <- list_fmap_compose.
      rewrite (fmap_ext_elem _ fst) by done.
      apply NoDup_fst_range_of.
    + apply list_elem_of_fmap. exists (n, f). split; [done|].
      by apply elem_of_range_of.
  - rewrite foldl_put_notin; [apply lookup_empty|].
    rewrite <- list_fmap_compose.
    intros ([k g]&->&Hin%elem_of_range_of)%list_elem_of_fmap.
    cbn in Hf. congruence.
Qed.

(** The index saved by ProtocolIndex seeds the same local map: SeedLocal
    of ProtocolIndex of a model whose local records are stored under their
    names gives each record back under its name, with the offsets of its
    blocks counted anew from 0. *)
Theorem SeedLocal_ProtocolIndex (order1 order2 : MapOrder) (now : Instant)
    (m m0 : Model) :
  keyed (local m) →
  local (SeedLocal (order := order2) now
           (protocolIndex (order := order1) m) m0)
  = reoffset <$> local m.
Proof.
  intros Hk. unfold SeedLocal.
  rewrite local_recomputeNeed, local_recomputeGlobal.
  cbn [local set_local]. by apply storeIndex_protocolIndex.
Qed.

Lemma SeedLocal_ProtocolIndex_witness :
  local (SeedLocal (order := listed_order) clock2
           (protocolIndex (order := reversed_order) tombstone_state)
           (NewModel clock2 "repo"))
  = reoffset <$> local tombstone_state.
Proof.
  apply (SeedLocal_ProtocolIndex reversed_order listed_order clock2
           tombstone_state (NewModel clock2 "repo")).
  apply (mutate_well_keyed (order := listed_order)
           (DoReplaceLocal clock1 clock1 clock1 [disk_a]) promoted_state).
  apply (mutate_well_keyed (order := listed_order)
           (DoUpdateLocal clock0 clock0 clock0 disk_b) scanned_state).
  apply (mutate_well_keyed (order := listed_order)
           (DoReplaceLocal clock0 clock0 clock0 [disk_a])
           (NewModel clock0 "repo")).
  repeat split; try apply keyed_empty.
  intros p fs Hp. cbn in Hp. by rewrite lookup_empty in Hp.
Defined.

(** ** Updates and departures of a peer *)

Lemma foldl_put_is_elem {A} (es : list (string * A)) g k v :
  k ∈ es.*1 → foldl put g es !! k = Some v → (k, v) ∈ es.
Proof.
  revert g. induction es as [|[n f] es IH]; intros g Hk Hv.
  - by apply elem_of_nil in Hk.
  - cbn [foldl] in Hv. destruct (decide (k ∈ es.*1)) as [Hin|Hnin].
    + right. by apply (IH (put g (n, f))).
    + rewrite fmap_cons in Hk. apply elem_of_cons in Hk as [->|?]; [|done].
      rewrite foldl_put_notin in Hv by done.
      unfold put in Hv; cbn [fst snd] in Hv.
      rewrite lookup_insert_eq in Hv. injection Hv as <-. by left.
Qed.

(** IndexUpdate merges: for a peer that has an index, the names of the
    list are overwritten by records of the list, every other record of
    the peer is kept, and the indexes of the other peers and the local map
    are untouched. *)
Theorem IndexUpdate_merges {order : MapOrder} (now : Instant)
    (nodeID : string) (fs : list protocol.FileInfo) (m : Model)
    (repo : gmap string File) :
  remote m !! nodeID = Some repo →
  ∃ r, remote (IndexUpdate now nodeID fs m) !! nodeID = Some r ∧
       (∀ n, n ∉ (protocol.Name <$> fs) → r !! n = repo !! n) ∧
       (∀ n, n ∈ (protocol.Name <$> fs) →
             ∃ f, f ∈ fs ∧ protocol.Name f = n ∧
                  r !! n = Some (fileFromFileInfo f)) ∧
       (∀ q, q ≠ nodeID →
             remote (IndexUpdate now nodeID fs m) !! q = remote m !! q) ∧
       local (IndexUpdate now nodeID fs m) = local m.
Proof.
  intros Hp. unfold IndexUpdate. rewrite Hp.
  change (remote (recomputeNeed ?x)) with (remote x).
  rewrite local_recomputeNeed, local_recomputeGlobal, remote_recomputeGlobal.
  cbn [remote local set_remote]. rewrite lookup_insert_eq.
  exists (storeIndex repo fs). repeat split.
  - intros n Hn. rewrite storeIndex_put. apply foldl_put_notin.
    by rewrite <- list_fmap_compose.
  - intros n Hn.
    destruct (proj2 (storeIndex_is_Some repo fs n)) as [v Hv]; [by left|].
    rewrite Hv. rewrite storeIndex_put in Hv.
    apply foldl_put_is_elem in Hv; [|by rewrite <- list_fmap_compose].
    apply list_elem_of_fmap in Hv as (f&[= -> ->]&Hf). eauto.
  - intros q Hq. by rewrite lookup_insert_ne.
Qed.

Lemma IndexUpdate_merges_witness :
  ∃ r, remote (IndexUpdate (order := listed_order) clock2 "42"
                 [peer_b_newer] stale_state) !! "42" = Some r ∧
       (∀ n, n ∉ (protocol.Name <$> [peer_b_newer]) →
             r !! n = storeIndex ∅ [peer_a] !! n) ∧
       (∀ n, n ∈ (protocol.Name <$> [peer_b_newer]) →
             ∃ f, f ∈ [peer_b_newer] ∧ protocol.Name f = n ∧
                  r !! n = Some (fileFromFileInfo f)) ∧
       (∀ q, q ≠ "42" →
             remote (IndexUpdate (order := listed_order) clock2 "42"
                       [peer_b_newer] stale_state) !! q
             = remote stale_state !! q) ∧
       local (IndexUpdate (order := listed_order) clock2 "42"
                [peer_b_newer] stale_state) = local stale_state.
Proof.
  apply (IndexUpdate_merges (order := listed_order) clock2 "42"
           [peer_b_newer] stale_state (storeIndex ∅ [peer_a])).
  vm_compute. reflexivity.
Defined.

(** When a peer leaves, what only it had leaves with it: after Close the
    peer has no index and is not connected, and a name that neither local
    nor another peer's index holds is in neither global nor need. *)
Theorem Close_forgets {order : MapOrder} (now : Instant) (node : string)
    (m : Model) (n : string) :
  local m !! n = None →
  (∀ q fs, q ≠ node → remote m !! q = Some fs → fs !! n = None) →
  remote (Close now node m) !! node = None ∧
  ConnectedTo (Close now node m) node = false ∧
  global (Close now node m) !! n = None ∧
  need (Close now node m) !! n = None.
Proof.
  intros Hl Hr. unfold Close.
  set (m1 := set_conns _ _ _).
  assert (global (recomputeGlobal now m1) !! n = None) as Hg.
  { apply eq_None_not_Some. intros Hs.
    apply recomputeGlobal_is_Some in Hs as (c&[Hc|(q&fs&Hq&Hc)]).
    - unfold m1 in Hc. cbn [local set_conns set_remote] in Hc. congruence.
    - unfold m1 in Hq. cbn [remote set_conns set_remote] in Hq.
      apply lookup_delete_Some in Hq as [Hne Hq].
      rewrite (Hr q fs) in Hc; done. }
  repeat split.
  - change (remote (recomputeNeed ?x)) with (remote x).
    rewrite remote_recomputeGlobal. unfold m1.
    cbn [remote set_conns set_remote]. apply lookup_delete_eq.
  - unfold ConnectedTo. apply bool_decide_eq_false.
    change (nodes (recomputeNeed ?x)) with (nodes x).
    replace (nodes (recomputeGlobal now m1)) with (nodes m1)
      by (unfold recomputeGlobal; by destruct (globalUpdated _ _)).
    unfold m1. cbn [nodes set_conns].
    intros [_ Hn]%elem_of_difference. apply Hn. by apply elem_of_singleton.
  - by rewrite global_recomputeNeed.
  - destruct (need _ !! n) as [b|] eqn:Hn; [|done].
    apply need_recomputeNeed in Hn as (_&gf&Hgf&_). congruence.
Qed.

Lemma Close_forgets_witness :
  remote (Close (order := listed_order) clock1 "42" needy_state) !! "42"
    = None ∧
  ConnectedTo (Close (order := listed_order) clock1 "42" needy_state) "42"
    = false ∧
  global (Close (order := listed_order) clock1 "42" needy_state) !! "a"
    = None ∧
  need (Close (order := listed_order) clock1 "42" needy_state) !! "a" = None.
Proof.
  apply (Close_forgets (order := listed_order) clock1 "42" needy_state "a").
  - vm_compute. reflexivity.
  - intros q fs Hne Hq.
    assert (remote needy_state = {[ "42" := storeIndex ∅ [peer_a] ]}) as Hr
      by (vm_compute; reflexivity).
    rewrite Hr in Hq. apply lookup_singleton_Some in Hq as [<- _]. done.
Defined.

(** ** The first index sent to a new peer *)



(** ** Generation *)

Section stamps.
Context {order : MapOrder}.

Lemma stamps_recompute now m :
  updatedLocal (recomputeNeed (recomputeGlobal now m)) = updatedLocal m ∧
  (updateGlobal (recomputeNeed (recomputeGlobal now m)) = updateGlobal m ∨
   updateGlobal (recomputeNeed (recomputeGlobal now m)) = time_Unix now).
Proof.
  unfold recomputeNeed, recomputeGlobal.
  destruct (globalUpdated m (newGlobal m)); cbn; auto.
Qed.

Lemma stamps_mutate op m :
  (∀ t, t ∈ readings op →
        updatedLocal m <= time_Unix t ∧ updateGlobal m <= time_Unix t) →
  updatedLocal m <= updatedLocal (mutate op m) ∧
  updateGlobal m <= updateGlobal (mutate op m) ∧
  (updatedLocal (mutate op m) = updatedLocal m ∨
   ∃ t, t ∈ readings op ∧ updatedLocal (mutate op m) = time_Unix t) ∧
  (updateGlobal (mutate op m) = updateGlobal m ∨
   ∃ t, t ∈ readings op ∧ updateGlobal (mutate op m) = time_Unix t).
Proof.
  intros Hread.
  destruct op as [now p fs|now p fs|now p|tg tl tb fs|now fs|tg tl tb f|p];
    cbn [mutate readings] in *.
  - destruct (stamps_recompute now
                (set_remote (<[p := storeIndex ∅ fs]> (remote m)) m))
      as [HL [HG|HG]]; unfold Index; rewrite HL, HG; cbn;
      destruct (Hread now) as [? ?]; [by left| |by left|];
      repeat split; try lia; eauto using list_elem_of_here.
  - unfold IndexUpdate. destruct (remote m !! p) as [repo|];
      [|repeat split; try lia; by left].
    destruct (stamps_recompute now
                (set_remote (<[p := storeIndex repo fs]> (remote m)) m))
      as [HL [HG|HG]]; rewrite HL, HG; cbn;
      destruct (Hread now) as [? ?]; [by left| |by left|];
      repeat split; try lia; eauto using list_elem_of_here.
  - destruct (stamps_recompute now
                (set_conns (nodes m ∖ {[p]}) (rawConn m ∖ {[p]})
                   (set_remote (delete p (remote m)) m)))
      as [HL [HG|HG]]; unfold Close; rewrite HL, HG; cbn;
      destruct (Hread now) as [? ?]; [by left| |by left|];
      repeat split; try lia; eauto using list_elem_of_here.
  - destruct (Hread tg) as [? ?]; [by left|].
    destruct (Hread tl) as [? ?]; [right; by left|].
    destruct (replaceLocal_plan m fs).2 eqn:Hupd.
    + rewrite (ReplaceLocal_updated _ _ _ _ _ Hupd).
      cbn [updatedLocal updateGlobal touch_local].
      destruct (stamps_recompute tg
                  (set_local (replaceLocal_plan m fs).1 m))
        as [_ [HG|HG]]; rewrite HG; cbn;
        repeat split; try lia; try (by left);
        right; eauto using list_elem_of_here, list_elem_of_further.
    + rewrite (ReplaceLocal_not_updated _ _ _ _ _ Hupd).
      repeat split; try lia; by left.
  - destruct (stamps_recompute now (set_local (storeIndex ∅ fs) m))
      as [HL [HG|HG]]; unfold SeedLocal; rewrite HL, HG; cbn;
      destruct (Hread now) as [? ?]; [by left| |by left|];
      repeat split; try lia; eauto using list_elem_of_here.
  - destruct (Hread tg) as [? ?]; [by left|].
    destruct (Hread tl) as [? ?]; [right; by left|].
    unfold updateLocal.
    destruct (match local m !! Name f with
              | Some ef => negb (Equals ef f)
              | None => true
              end); [|repeat split; try lia; by left].
    cbn [updatedLocal updateGlobal touch_local].
    destruct (stamps_recompute tg
                (set_local (<[Name f := f]> (local m)) m))
      as [_ [HG|HG]]; rewrite HG; cbn;
      repeat split; try lia; try (by left);
      right; eauto using list_elem_of_here, list_elem_of_further.
  - cbn. repeat split; try lia; by left.
Qed.

End stamps.

(** Generation never goes back while the clock does not: a mutation whose
    clock readings are, in whole seconds, not before the two time stamps
    of the model leaves a Generation that is not below the previous one,
    as long as the sums fit an int64. *)
Theorem Generation_monotone {order : MapOrder} (op : Mutation) (m : Model) :
  (∀ t, t ∈ readings op →
        updatedLocal m <= time_Unix t < 2 ^ 62 ∧
        updateGlobal m <= time_Unix t) →
  - 2 ^ 62 <= updatedLocal m < 2 ^ 62 →
  - 2 ^ 62 <= updateGlobal m < 2 ^ 62 →
  Generation m <= Generation (mutate op m).
Proof.
  intros Hread HL HG.
  destruct (stamps_mutate op m) as (H1&H2&H3&H4).
  { intros t Ht. destruct (Hread t Ht). lia. }
  assert (updatedLocal (mutate op m) < 2 ^ 62).
  { destruct H3 as [->|(t&Ht&->)]; [lia|]. destruct (Hread t Ht). lia. }
  assert (updateGlobal (mutate op m) < 2 ^ 62).
  { destruct H4 as [->|(t&Ht&->)]; [lia|]. destruct (Hread t Ht). lia. }
  unfold Generation. rewrite !wrap_i64_small by lia. lia.
Qed.

Lemma Generation_monotone_witness :
  Generation scanned_state <=
  Generation (mutate (order := listed_order)
                (DoUpdateLocal clock1 clock1 clock1 disk_b) scanned_state).
Proof.
  apply (Generation_monotone (order := listed_order)
           (DoUpdateLocal clock1 clock1 clock1 disk_b) scanned_state).
  - intros t Ht. cbn [readings] in Ht.
    assert (t = clock1) as ->.
    { repeat (apply elem_of_cons in Ht as [->|Ht]; [done|]).
      by apply elem_of_nil in Ht. }
    vm_compute. repeat split; discriminate.
  - vm_compute. split; [discriminate|reflexivity].
  - vm_compute. split; [discriminate|reflexivity].
Defined.

(** ** Change suppression in the model *)

Lemma shouldSuppressChange_late now lastChange count :
  maxFileHoldTimeS * time_Second < now - lastChange →
  shouldSuppressChange now lastChange count = false.
Proof.
  unfold shouldSuppressChange, time_Since, time_Sub, minDuration,
    maxDuration, maxFileHoldTimeS, time_Second. intros Hlate.
  destruct (Z.ltb_spec (600 * 1000000000)
              (Z.max (- 2 ^ 63) (Z.min (2 ^ 63 - 1) (now - lastChange))));
    [done|lia].
Qed.

Lemma shouldSuppressChange_early now lastChange count :
  0 <= count <= 1000000 →
  now - lastChange <= maxFileHoldTimeS * time_Second →
  now - lastChange < (count + 2) * minFileHoldTimeS * time_Second →
  shouldSuppressChange now lastChange count = true.
Proof.
  unfold shouldSuppressChange, wrap_int, time_Since, time_Sub, minDuration,
    maxDuration, minFileHoldTimeS, maxFileHoldTimeS, time_Second.
  intros Hc Hmax Hmin.
  rewrite (wrap_i64_small (count + 2)) by lia.
  rewrite (wrap_i64_small ((count + 2) * 60)) by lia.
  rewrite (wrap_i64_small ((count + 2) * 60 * 1000000000)) by lia.
  repeat match goal with
         | |- context [?a <? ?b] => destruct (Z.ltb_spec a b)
         end; try reflexivity; lia.
Qed.

(** A change that comes more than ten minutes after the last admitted
    change of the file, or of a file never seen more than ten minutes
    after the zero time, is admitted whatever the count of suppressed
    changes; the model then records the clock reading as the last change
    and resets the count. *)
Theorem Model_shouldSuppressChange_admits (now now' : Instant)
    (name : string) (m : Model) :
  maxFileHoldTimeS * time_Second <
    now - default Instant_zero (fileLastChanged m !! name) →
  (Model_shouldSuppressChange now now' name m).1 = false ∧
  fileLastChanged (Model_shouldSuppressChange now now' name m).2 !! name
    = Some now' ∧
  fileWasSuppressed (Model_shouldSuppressChange now now' name m).2 !! name
    = Some 0.
Proof.
  intros Hlate. unfold Model_shouldSuppressChange.
  rewrite shouldSuppressChange_late by done.
  cbn [fst snd fileLastChanged fileWasSuppressed set_suppression].
  by rewrite !lookup_insert_eq.
Qed.

Lemma Model_shouldSuppressChange_admits_witness :
  (Model_shouldSuppressChange clock0 clock1 "a" (NewModel clock0 "repo")).1
    = false ∧
  fileLastChanged
    (Model_shouldSuppressChange clock0 clock1 "a" (NewModel clock0 "repo")).2
    !! "a" = Some clock1 ∧
  fileWasSuppressed
    (Model_shouldSuppressChange clock0 clock1 "a" (NewModel clock0 "repo")).2
    !! "a" = Some 0.
Proof.
  apply (Model_shouldSuppressChange_admits clock0 clock1 "a"
           (NewModel clock0 "repo")).
  by vm_compute.
Defined.

Lemma suppressionRun_holds name readings :
  ∀ m (t0 : Instant) (k : Z),
    fileLastChanged m !! name = Some t0 →
    fileWasSuppressed m !! name = Some k →
    0 <= k → k + Z.of_nat (length readings) <= 1000000 →
    (∀ (i : nat) now now', readings !! i = Some (now, now') →
       now - t0 <= maxFileHoldTimeS * time_Second ∧
       now - t0 < (k + Z.of_nat i + 2) * minFileHoldTimeS * time_Second) →
    (suppressionRun name readings m).1 = replicate (length readings) true ∧
    fileLastChanged (suppressionRun name readings m).2 !! name = Some t0 ∧
    fileWasSuppressed (suppressionRun name readings m).2 !! name
      = Some (k + Z.of_nat (length readings)).
Proof.
  induction readings as [|[now now'] readings IH];
    intros m t0 k Ht0 Hk Hk0 Hlen Hall.
  - cbn. repeat split; try done. by rewrite Z.add_0_r.
  - cbn [suppressionRun length] in *.
    destruct (Hall 0%nat now now' eq_refl) as [Hmax Hmin].
    unfold Model_shouldSuppressChange. rewrite Ht0, Hk.
    cbn [default from_option]. unfold id.
    change (Z.of_nat 0) with 0 in Hmin. rewrite Z.add_0_r in Hmin.
    rewrite (shouldSuppressChange_early now t0 k) by (done || lia).
    match goal with
    | |- context [suppressionRun name readings ?m1] =>
        destruct (IH m1 t0 (k + 1)) as (H1&H2&H3)
    end.
    + done.
    + cbn [fileWasSuppressed set_suppression]. rewrite lookup_insert_eq.
      unfold wrap_int. by rewrite wrap_i64_small by lia.
    + lia.
    + lia.
    + intros i n n' Hi. destruct (Hall (S i) n n' Hi) as [? ?].
      split; [done|]. lia.
    + destruct (suppressionRun name readings _) as [sups m2].
      cbn [fst snd] in *. rewrite H1, H2, H3.
      repeat split. f_equal. lia.
Qed.

(** A file that keeps changing is held back: after an admitted change at
    [t0], every later check that comes within ten minutes of [t0] and,
    for the i-th of them, earlier than i + 2 minutes after [t0] suppresses
    the change, leaves the time of the last admitted change alone and
    counts one more suppressed change. *)
Theorem suppression_holds_back (name : string)
    (readings : list (Instant * Instant)) (m : Model) (t0 : Instant) :
  fileLastChanged m !! name = Some t0 →
  fileWasSuppressed m !! name = Some 0 →
  Z.of_nat (length readings) <= 1000000 →
  (∀ (i : nat) now now', readings !! i = Some (now, now') →
     now - t0 <= maxFileHoldTimeS * time_Second ∧
     now - t0 < (Z.of_nat i + 2) * minFileHoldTimeS * time_Second) →
  (suppressionRun name readings m).1 = replicate (length readings) true ∧
  fileLastChanged (suppressionRun name readings m).2 !! name = Some t0 ∧
  fileWasSuppressed (suppressionRun name readings m).2 !! name
    = Some (Z.of_nat (length readings)).
Proof.
  intros Ht0 Hk Hlen Hall.
  apply (suppressionRun_holds name readings m t0 0); try done; lia.
Qed.

Lemma suppression_holds_back_witness :
  (suppressionRun "a"
     [(clock0 + 100 * time_Second, clock0);
      (clock0 + 170 * time_Second, clock0);
      (clock0 + 230 * time_Second, clock0)] admitted_state).1
    = replicate 3 true ∧
  fileLastChanged
    (suppressionRun "a"
       [(clock0 + 100 * time_Second, clock0);
        (clock0 + 170 * time_Second, clock0);
        (clock0 + 230 * time_Second, clock0)] admitted_state).2 !! "a"
    = Some clock0 ∧
  fileWasSuppressed
    (suppressionRun "a"
       [(clock0 + 100 * time_Second, clock0);
        (clock0 + 170 * time_Second, clock0);
        (clock0 + 230 * time_Second, clock0)] admitted_state).2 !! "a"
    = Some 3.
Proof.
  apply (suppression_holds_back "a"
           [(clock0 + 100 * time_Second, clock0);
            (clock0 + 170 * time_Second, clock0);
            (clock0 + 230 * time_Second, clock0)] admitted_state clock0).
  - by vm_compute.
  - by vm_compute.
  - cbn. lia.
  - intros [|[|[|i]]] now now' Hi; cbn in Hi; try done;
      injection Hi as <- <-; vm_compute; split; congruence.
Defined.

(** ** The read operations *)

Lemma wrap_int_add_l x y : wrap_int (wrap_int x + y) = wrap_int (x + y).
Proof.
  unfold wrap_int, wrap_i64. f_equal.
  replace ((x + 2 ^ 63) `mod` 2 ^ 64 - 2 ^ 63 + y + 2 ^ 63)
    with ((x + 2 ^ 63) `mod` 2 ^ 64 + y) by lia.
  rewrite Zplus_mod_idemp_l. f_equal. lia.
Qed.

Lemma foldl_comm_perm {A B} (f : A → B → A) (l1 l2 : list B) :
  (∀ a x y, f (f a x) y = f (f a y) x) →
  l1 ≡ₚ l2 → ∀ a, foldl f a l1 = foldl f a l2.
Proof.
  intros Hcomm Hperm.
  induction Hperm as [|x l1 l2 _ IH|x y l|l1 l2 l3 _ IH1 _ IH2]; intros a;
    cbn [foldl].
  - done.
  - apply IH.
  - by rewrite Hcomm.
  - by rewrite IH1.
Qed.

Lemma range_of_orders (order1 order2 : MapOrder) {A} (m : gmap string A) :
  range_of (MapOrder := order1) m ≡ₚ range_of (MapOrder := order2) m.
Proof.
  by rewrite (range_of_perm (MapOrder := order1)),
    (range_of_perm (MapOrder := order2)).
Qed.

Section read_facts.
Context (Block_Size : Block → Z).

Lemma sizeOne_comm acc x y :
  sizeOne Block_Size (sizeOne Block_Size acc x) y =
  sizeOne Block_Size (sizeOne Block_Size acc y) x.
Proof.
  destruct acc as [[files deleted] bytes]. unfold sizeOne.
  destruct (Z.land (Flags x.2) protocol.FlagDeleted =? 0),
    (Z.land (Flags y.2) protocol.FlagDeleted =? 0); try done.
  rewrite !wrap_int_add_l. do 2 f_equal. lia.
Qed.

Lemma sizeOne_counts es :
  ∀ files deleted bytes,
    0 <= files → 0 <= deleted →
    files + deleted + Z.of_nat (length es) < 2 ^ 63 →
    files <= (foldl (sizeOne Block_Size) (files, deleted, bytes) es).1.1 ∧
    deleted <= (foldl (sizeOne Block_Size) (files, deleted, bytes) es).1.2 ∧
    (foldl (sizeOne Block_Size) (files, deleted, bytes) es).1.1 +
    (foldl (sizeOne Block_Size) (files, deleted, bytes) es).1.2
    = files + deleted + Z.of_nat (length es).
Proof.
  induction es as [|e es IH]; intros files deleted bytes Hf Hd Hlen.
  - cbn. lia.
  - cbn [foldl length] in *. unfold sizeOne at 2 4 6 8.
    destruct (Z.land (Flags e.2) protocol.FlagDeleted =? 0).
    + unfold wrap_int at 1 3 5 7. rewrite !(wrap_i64_small (files + 1)) by lia.
      destruct (IH (files + 1) deleted
                  (wrap_int (bytes + File_Size Block_Size e.2)))
        as (H1&H2&H3); lia.
    + unfold wrap_int at 1 2 3 4.
      rewrite !(wrap_i64_small (deleted + 1)) by lia.
      destruct (IH files (deleted + 1) bytes) as (H1&H2&H3); lia.
Qed.

Lemma length_range_of {order : MapOrder} {A} (m : gmap string A) :
  length (range_of m) = size m.
Proof. by rewrite (range_of_perm A m), length_map_to_list. Qed.

Lemma NeedFiles_fst {order : MapOrder} m :
  (NeedFiles Block_Size m).1 =
  (λ e, file_at (global m) e.1) <$> range_of (need m).
Proof.
  unfold NeedFiles.
  assert (∀ (es : list (string * bool)) files bytes,
    (foldl (λ '(files, bytes) '(n, _),
              let f := file_at (global m) n in
              (files ++ [f], wrap_int (bytes + File_Size Block_Size f)))
           (files, bytes) es).1 =
    files ++ ((λ e : string * bool, file_at (global m) e.1) <$> es)) as Hfold.
  { induction es as [|[n b] es IH]; intros files bytes; cbn [foldl].
    - by rewrite app_nil_r.
    - by rewrite IH, fmap_cons, <- app_assoc. }
  apply Hfold.
Qed.

End read_facts.

(** What GlobalSize, LocalSize and InSyncSize return, and the byte count
    of NeedFiles, do not depend on the order in which the maps are
    iterated; the list of NeedFiles is the same up to its order. *)
Theorem sizes_any_order (order1 order2 : MapOrder) (Block_Size : Block → Z)
    (m : Model) :
  GlobalSize (order := order1) Block_Size m =
    GlobalSize (order := order2) Block_Size m ∧
  LocalSize (order := order1) Block_Size m =
    LocalSize (order := order2) Block_Size m ∧
  InSyncSize (order := order1) Block_Size m =
    InSyncSize (order := order2) Block_Size m ∧
  (NeedFiles (order := order1) Block_Size m).2 =
    (NeedFiles (order := order2) Block_Size m).2 ∧
  (NeedFiles (order := order1) Block_Size m).1 ≡ₚ
    (NeedFiles (order := order2) Block_Size m).1.
Proof.
  repeat split.
  - apply foldl_comm_perm; [apply sizeOne_comm|apply range_of_orders].
  - apply foldl_comm_perm; [apply sizeOne_comm|apply range_of_orders].
  - apply foldl_comm_perm; [|apply range_of_orders].
    intros [files bytes] [n1 f1] [n2 f2].
    destruct (global m !! n1) as [g1|] eqn:H1;
      destruct (global m !! n2) as [g2|] eqn:H2;
      rewrite ?H1, ?H2; try done;
      try destruct (Equals f1 g1) eqn:E1;
      try destruct (Equals f2 g2) eqn:E2;
      rewrite ?H1, ?H2, ?E1, ?E2; try done.
    rewrite !wrap_int_add_l. do 2 f_equal. lia.
  - assert (∀ (es : list (string * bool)) files bytes,
      (foldl (λ '(files, bytes) '(n, _),
                let f := file_at (global m) n in
                (files ++ [f], wrap_int (bytes + File_Size Block_Size f)))
             (files, bytes) es).2 =
      foldl (λ bytes (e : string * bool),
               wrap_int (bytes +
                         File_Size Block_Size (file_at (global m) e.1)))
            bytes es) as Hfold.
    { induction es as [|[n b] es IH]; intros files bytes; cbn [foldl];
        [done|]. by rewrite IH. }
    unfold NeedFiles. rewrite !Hfold.
    apply foldl_comm_perm; [|apply range_of_orders].
    intros bytes x y. rewrite !wrap_int_add_l. f_equal. lia.
  - rewrite !NeedFiles_fst. apply fmap_Permutation, range_of_orders.
Qed.

(** LocalSize and GlobalSize count every record once: the number of files
    and the number of deleted files add up to the size of the map, for a
    map of fewer than 2^63 records. *)
Theorem sizes_partition {order : MapOrder} (Block_Size : Block → Z)
    (m : Model) :
  Z.of_nat (size (local m)) < 2 ^ 63 →
  Z.of_nat (size (global m)) < 2 ^ 63 →
  (0 <= (LocalSize Block_Size m).1.1 ∧ 0 <= (LocalSize Block_Size m).1.2 ∧
   (LocalSize Block_Size m).1.1 + (LocalSize Block_Size m).1.2
   = Z.of_nat (size (local m))) ∧
  (0 <= (GlobalSize Block_Size m).1.1 ∧ 0 <= (GlobalSize Block_Size m).1.2 ∧
   (GlobalSize Block_Size m).1.1 + (GlobalSize Block_Size m).1.2
   = Z.of_nat (size (global m))).
Proof.
  intros Hl Hg. unfold LocalSize, GlobalSize. split.
  - destruct (sizeOne_counts Block_Size (range_of (local m)) 0 0 0)
      as (H1&H2&H3); rewrite ?length_range_of in *; lia.
  - destruct (sizeOne_counts Block_Size (range_of (global m)) 0 0 0)
      as (H1&H2&H3); rewrite ?length_range_of in *; lia.
Qed.

Lemma sizes_partition_witness :
  (LocalSize (order := listed_order) Length tombstone_state).1.1 +
  (LocalSize (order := listed_order) Length tombstone_state).1.2
  = Z.of_nat (size (local tombstone_state)).
Proof.
  apply (sizes_partition (order := listed_order) Length tombstone_state);
    by vm_compute.
Defined.

(** NeedFiles lists one record per needed name, the global record of the
    name: in a model whose need map is current, a record is in the list
    exactly when it is the global record of a name and passes the tests
    of recomputeNeed there. *)
Theorem NeedFiles_lists_needed {order : MapOrder} (Block_Size : Block → Z)
    (m : Model) (f : File) :
  need_current m →
  length (NeedFiles Block_Size m).1 = size (need m) ∧
  (f ∈ (NeedFiles Block_Size m).1 ↔
   ∃ n, global m !! n = Some f ∧ wanted m n f = true).
Proof.
  intros Hneed. rewrite NeedFiles_fst, length_fmap, length_range_of.
  split; [done|]. rewrite list_elem_of_fmap. split.
  - intros ([n b]&->&Hin%elem_of_range_of).
    apply Hneed in Hin as (_&gf&Hg&Hw). exists n.
    unfold file_at. cbn [fst]. by rewrite Hg.
  - intros (n&Hg&Hw). exists (n, true). split.
    + unfold file_at. cbn [fst]. by rewrite Hg.
    + apply elem_of_range_of, Hneed. eauto.
Qed.

Lemma NeedFiles_lists_needed_witness :
  length (NeedFiles (order := listed_order) Length needy_state).1
    = size (need needy_state) ∧
  (fileFromFileInfo peer_a
     ∈ (NeedFiles (order := listed_order) Length needy_state).1 ↔
   ∃ n, global needy_state !! n = Some (fileFromFileInfo peer_a) ∧
        wanted needy_state n (fileFromFileInfo peer_a) = true).
Proof.
  apply (NeedFiles_lists_needed (order := listed_order) Length needy_state
           (fileFromFileInfo peer_a)).
  apply (settled_recompute (order := listed_order)).
Defined.

(** ** Starting read/write mode *)

(** StartRW switches deletion on without recomputing need: a deletion
    that a peer announced while deletion was off is not in need after
    StartRW(true), so the puller does not act on it; it enters need with
    the next recomputation. *)
Theorem StartRW_leaves_need_stale {order : MapOrder} (m : Model)
    (n : string) (gf lf : File) :
  need_current m → delete_ m = false →
  global m !! n = Some gf → local m !! n = Some lf →
  NewerThan gf lf = true →
  Z.land (Flags gf) protocol.FlagDeleted ≠ 0 →
  Z.land (Flags gf) protocol.FlagInvalid = 0 →
  need (StartRW true m) !! n = None ∧
  need (recomputeNeed (StartRW true m)) !! n = Some true.
Proof.
  intros Hneed Hdel Hg Hl Hnew Hd Hv. split.
  - cbn [StartRW need set_delete].
    destruct (need m !! n) as [b|] eqn:Hn; [exfalso|done].
    apply Hneed in Hn as (_&gf'&Hg'&Hw). rewrite Hg in Hg'.
    injection Hg' as <-. apply wanted_spec in Hw as (_&_&Hw).
    destruct (Hw Hd) as [Hon _]. congruence.
  - apply need_recomputeNeed. split; [done|]. exists gf. split; [done|].
    apply wanted_spec. cbn [StartRW local delete_ set_delete].
    rewrite Hl. repeat split; eauto.
Qed.

Lemma StartRW_leaves_need_stale_witness :
  need (StartRW true deletion_pending) !! "b" = None ∧
  need (recomputeNeed (order := listed_order)
          (StartRW true deletion_pending)) !! "b" = Some true.
Proof.
  apply (StartRW_leaves_need_stale (order := listed_order) deletion_pending
           "b" (fileFromFileInfo peer_b_deleted) disk_b).
  - apply (settled_recompute (order := listed_order)).
  - reflexivity.
  - by vm_compute.
  - by vm_compute.
  - by vm_compute.
  - by vm_compute.
  - by vm_compute.
Defined.

(** ** Announcing local changes *)

Lemma elem_of_protocolIndex {order : MapOrder} m n f :
  local m !! n = Some f → fileInfoFromFile f ∈ protocolIndex m.
Proof.
  intros Hf. rewrite protocolIndex_fmap. apply list_elem_of_fmap.
  exists (n, f). split; [done|]. by apply elem_of_range_of.
Qed.

(** A local change is announced once: after an updateLocal that changes
    the local map, the first round of the broadcast loop that comes more
    than 15 s after the change broadcasts an index that holds the new
    record, and the round after it broadcasts nothing, however late it
    comes; the clock not going back between the change and the
    broadcast. *)
Theorem local_change_is_broadcast_once {order : MapOrder}
    (tg tl tb now1 now2 now3 now1' now2' now3' : Instant) (f : File)
    (m : Model) :
  match local m !! Name f with
  | Some ef => Equals ef f = false
  | None => True
  end →
  lastIdxBcast m < tb → tb <= now3 →
  idxBcastHoldtime < now1 - tb →
  ∃ idx,
    (broadcastRound now1 now2 now3 (updateLocal tg tl tb f m)).2 = Some idx ∧
    fileInfoFromFile f ∈ idx ∧
    (broadcastRound now1' now2' now3'
       (broadcastRound now1 now2 now3 (updateLocal tg tl tb f m)).1).2 = None.
Proof.
  intros Hchg Hreq Hnow Hhold.
  assert (updateLocal tg tl tb f m =
          touch_local tl tb
            (recomputeNeed
               (recomputeGlobal tg
                  (set_local (<[Name f := f]> (local m)) m)))) as Hupd.
  { unfold updateLocal. destruct (local m !! Name f) as [ef|];
      [by rewrite Hchg|done]. }
  set (m' := updateLocal tg tl tb f m) in *.
  assert (lastIdxBcastRequest m' = tb) as Hr by (by rewrite Hupd).
  assert (lastIdxBcast m' = lastIdxBcast m) as Hb.
  { rewrite Hupd. cbn [lastIdxBcast touch_local].
    unfold recomputeNeed, recomputeGlobal.
    by destruct (globalUpdated _ _). }
  assert (local m' !! Name f = Some f) as Hl.
  { rewrite Hupd. cbn [local touch_local].
    rewrite local_recomputeNeed, local_recomputeGlobal.
    cbn [local set_local]. apply lookup_insert_eq. }
  assert (broadcastRound now1 now2 now3 m' =
          (set_lastIdxBcast now3 m', Some (protocolIndex m'))) as Hround.
  { unfold broadcastRound. rewrite Hr, Hb.
    assert ((lastIdxBcast m <? tb) = true) as -> by (by apply Z.ltb_lt).
    assert ((idxBcastHoldtime <? time_Since now1 tb) = true) as ->; [|done].
    apply Z.ltb_lt. unfold time_Since, time_Sub, minDuration, maxDuration.
    unfold idxBcastHoldtime, time_Second in *. lia. }
  rewrite Hround. cbn [fst snd]. exists (protocolIndex m'). repeat split.
  - by apply (elem_of_protocolIndex m' (Name f)).
  - unfold broadcastRound. cbn [lastIdxBcast lastIdxBcastRequest
      set_lastIdxBcast]. rewrite Hr.
    assert ((now3 <? tb) = false) as -> by (apply Z.ltb_ge; lia). done.
Qed.

Lemma local_change_is_broadcast_once_witness :
  ∃ idx,
    (broadcastRound (order := listed_order) clock2 clock2 clock2
       (updateLocal (order := listed_order) clock1 clock1 clock1 disk_b
          scanned_state)).2 = Some idx ∧
    fileInfoFromFile disk_b ∈ idx ∧
    (broadcastRound (order := listed_order)
       (clock2 + 3600 * time_Second) (clock2 + 3600 * time_Second)
       (clock2 + 3600 * time_Second)
       (broadcastRound (order := listed_order) clock2 clock2 clock2
          (updateLocal (order := listed_order) clock1 clock1 clock1 disk_b
             scanned_state)).1).2 = None.
Proof.
  apply (local_change_is_broadcast_once (order := listed_order)
           clock1 clock1 clock1 clock2 clock2 clock2
           (clock2 + 3600 * time_Second) (clock2 + 3600 * time_Second)
           (clock2 + 3600 * time_Second) disk_b scanned_state).
  - by vm_compute.
  - by vm_compute.
  - by vm_compute.
  - by vm_compute.
Defined.
